(** * soloact.data.make_dataset: a shallow embedding and its properties

    The augmentation pipeline of [src/soloact/data/make_dataset.py]:
    label flattening, the randomisation helper, MFCC feature reduction,
    zero padding, per-track augmentation and dataset assembly.

    Conventions of the embedding.
    - Python values that travel through the configuration and the labels are
      the inductive [value]; a [dict] is an insertion-ordered association list
      with string keys, updated in place by [dict_set].
    - Floats are exact rationals ([Q]): rounding, [nan] and [inf] are outside
      the model.
    - Strings are ASCII text: characters with a code of 128 and above, and
      with them the Unicode spaces, digits and letter cases that [int],
      [lower] and [upper] know, are outside the model.
    - Exceptions are the inductive [exn]; a computation that touches the
      global random generator or the file system is a function of the
      [world], returning an outcome together with the world it leaves.
    - Of the file system the world keeps the writes that completed and
      what it answers to a write; a temporary file leaves no trace. *)

From Stdlib Require Import List String Ascii Bool Arith ZArith QArith Lia.
From Stdlib Require Import Qround DecimalString Lqa.
Import ListNotations.

Local Open Scope string_scope.
Local Open Scope Z_scope.

(** ** Python values *)

#[local] Set Warnings "-register-all".

Inductive value : Type :=
| VNone
| VBool (b : bool)
| VInt (z : Z)
| VFloat (q : Q)
| VStr (s : string)
| VList (l : list value)
| VDict (d : list (string * value)).

Definition dict := list (string * value).

Inductive exn : Type :=
| AssertionError (msg : string)
| TypeError
| ValueError
| AttributeError
| IndexError
| KeyError
| SoxError
| SystemExit (msg : string)
| NameError
| OSError.

Definition result (A : Type) : Type := (exn + A)%type.

(** ** Insertion-ordered dictionaries *)

Module Dict.

(** [d.get(k)]: the value, or nothing when the key is absent. *)
Fixpoint lookup {A} (k : string) (d : list (string * A)) : option A :=
  match d with
  | [] => None
  | (k', v) :: rest => if String.eqb k k' then Some v else lookup k rest
  end.

(** [d[k] = v]: an existing key keeps its position, a new one goes last. *)
Fixpoint set {A} (k : string) (v : A) (d : list (string * A)) : list (string * A) :=
  match d with
  | [] => [(k, v)]
  | (k', v') :: rest =>
      if String.eqb k k' then (k', v) :: rest else (k', v') :: set k v rest
  end.

(** [{**a, **b}]. *)
Definition merge {A} (a b : list (string * A)) : list (string * A) :=
  fold_left (fun acc kv => set (fst kv) (snd kv) acc) b a.

(** [OrderedDict.fromkeys(ks, v)]: every key bound to [v], in the order
    of first occurrence. *)
Definition fromkeys {A} (ks : list string) (v : A) : list (string * A) :=
  fold_left (fun acc k => set k v acc) ks [].

(** [del d[k]], doing nothing when the key is absent. *)
Definition remove {A} (k : string) (d : list (string * A)) : list (string * A) :=
  filter (fun kv => negb (String.eqb k (fst kv))) d.

Definition keys {A} (d : list (string * A)) : list string := map fst d.

Definition mem (k : string) (l : list string) : bool :=
  existsb (String.eqb k) l.

End Dict.

(** [d.get(k)] on a Python dict of values: a missing key reads as [None]. *)
Definition py_get (k : string) (d : dict) : value :=
  match Dict.lookup k d with
  | Some v => v
  | None => VNone
  end.

(** ** [flatten] *)

(** [flatten(x, par, sep)] for [x] a dictionary.  The recursive call passes
    [par] only, so below the root the separator is the default ["."]. *)
Fixpoint flatten_value (x : value) (par sep : string) : dict :=
  match x with
  | VDict items =>
      (fix loop (items : list (string * value)) (store : dict) {struct items} : dict :=
         match items with
         | [] => store
         | (k, v) :: rest =>
             match v with
             | VDict _ =>
                 loop rest
                   (Dict.merge store
                      (flatten_value v
                         (if String.eqb par "" then k else par ++ sep ++ k) "."))
             | _ => loop rest (Dict.set (par ++ sep ++ k) v store)
             end
         end) items []
  | _ => []
  end.

Definition flatten (x : dict) (par sep : string) : dict :=
  flatten_value (VDict x) par sep.

(** The call of the pipeline: [flatten(labels)]. *)
Definition flatten_labels (x : dict) : dict := flatten x "" ".".

(** ** Python's built-in string and path operations used by the module *)

Module Py.

Definition chars (s : string) : list ascii := list_ascii_of_string s.
Definition str (l : list ascii) : string := string_of_list_ascii l.

Definition between (lo hi : nat) (c : ascii) : bool :=
  let n := nat_of_ascii c in (Nat.leb lo n && Nat.leb n hi)%bool.

(** [s.lower()] and [s.upper()] on ASCII text. *)
Definition lower_char (c : ascii) : ascii :=
  if between 65 90 c then ascii_of_nat (nat_of_ascii c + 32) else c.
Definition upper_char (c : ascii) : ascii :=
  if between 97 122 c then ascii_of_nat (nat_of_ascii c - 32) else c.
Definition lower (s : string) : string := str (map lower_char (chars s)).
Definition upper (s : string) : string := str (map upper_char (chars s)).

(** [s.split(c)]: never empty, [""] splits into [[""]]. *)
Fixpoint split (c : ascii) (s : string) : list string :=
  match s with
  | EmptyString => [EmptyString]
  | String a rest =>
      if Ascii.eqb a c then EmptyString :: split c rest
      else match split c rest with
           | [] => [String a EmptyString]
           | w :: ws => String a w :: ws
           end
  end.

(** [l[-k]] for [k >= 1]. *)
Definition index_from_end {A} (l : list A) (k : nat) : result A :=
  match nth_error (rev l) (k - 1) with
  | Some x => inr x
  | None => inl IndexError
  end.

(** [sub in s]. *)
Fixpoint contains (sub s : string) : bool :=
  if String.prefix sub s then true
  else match s with
       | EmptyString => false
       | String _ rest => contains sub rest
       end.

Fixpoint dropwhile {A} (p : A -> bool) (l : list A) : list A :=
  match l with
  | [] => []
  | x :: rest => if p x then dropwhile p rest else l
  end.

(** [s.rstrip(set)]: drops trailing characters that occur in [set]. *)
Definition rstrip (set s : string) : string :=
  str (rev (dropwhile (fun c => existsb (Ascii.eqb c) (chars set)) (rev (chars s)))).

(** [s.endswith(suffix)]. *)
Definition endswith (suffix s : string) : bool :=
  String.prefix (str (rev (chars suffix))) (str (rev (chars s))).

(** [str(n)] for a non-negative integer. *)
Definition str_of_nat (n : nat) : string := NilEmpty.string_of_uint (Nat.to_uint n).

Definition startswith_slash (s : string) : bool :=
  match s with String "/" _ => true | _ => false end.
Definition endswith_slash (s : string) : bool :=
  match rev (chars s) with "/"%char :: _ => true | _ => false end.

(** One step of [posixpath.join]. *)
Definition join2 (path b : string) : string :=
  if startswith_slash b then b
  else if (String.eqb path "" || endswith_slash path)%bool then path ++ b
  else path ++ "/" ++ b.

(** [os.path.join(a, *p)]. *)
Definition join (a : string) (p : list string) : string := fold_left join2 p a.

(** [os.path.dirname(p)]. *)
Definition dirname (p : string) : string :=
  let head := rev (dropwhile (fun c => negb (Ascii.eqb c "/")) (rev (chars p))) in
  if (negb (Nat.eqb (List.length head) 0) && negb (forallb (Ascii.eqb "/") head))%bool
  then rstrip "/" (str head) else str head.

(** White space as [int()] strips it from ASCII text: the space and the
    five characters from the tab to the carriage return. *)
Definition is_space (c : ascii) : bool :=
  (between 9 13 c || Nat.eqb (nat_of_ascii c) 32)%bool.
Definition is_digit (c : ascii) : bool := between 48 57 c.
Definition digit_val (c : ascii) : Z := Z.of_nat (nat_of_ascii c - 48).

(** Digits with single underscores between them; [acc] is the value read
    so far and [prev_digit] tells whether the last character was a digit. *)
Fixpoint digits (l : list ascii) (acc : Z) (prev_digit : bool) : option Z :=
  match l with
  | [] => if prev_digit then Some acc else None
  | c :: rest =>
      if is_digit c then digits rest (10 * acc + digit_val c) true
      else if (Ascii.eqb c "_" && prev_digit)%bool then digits rest acc false
      else None
  end.

(** [int(s)] for a string in base 10: [ValueError] on anything that is not
    optional white space, an optional sign and a digit string.  The bound
    that later releases put on the number of digits is not modelled. *)
Definition int_of_string (s : string) : result Z :=
  let body := rev (dropwhile is_space (rev (dropwhile is_space (chars s)))) in
  let parsed :=
    match body with
    | "-"%char :: ds => option_map Z.opp (digits ds 0 false)
    | "+"%char :: ds => digits ds 0 false
    | ds => digits ds 0 false
    end in
  match parsed with
  | Some z => inr z
  | None => inl ValueError
  end.

End Py.

(** ** Comparisons of Python values *)

(** The number a value stands for in arithmetic and ordering, if any
    ([bool] is a subtype of [int]). *)
Definition num (v : value) : option Q :=
  match v with
  | VBool b => Some (if b then 1%Q else 0%Q)
  | VInt z => Some (inject_Z z)
  | VFloat q => Some q
  | _ => None
  end.

Definition Qltb (p q : Q) : bool := negb (Qle_bool q p).

(** [a == b]. *)
Fixpoint py_eq (a b : value) {struct a} : bool :=
  match a with
  | VNone => match b with VNone => true | _ => false end
  | VStr s => match b with VStr t => String.eqb s t | _ => false end
  | VList la =>
      match b with
      | VList lb =>
          (fix go (la lb : list value) {struct la} : bool :=
             match la, lb with
             | [], [] => true
             | x :: xs, y :: ys => (py_eq x y && go xs ys)%bool
             | _, _ => false
             end) la lb
      | _ => false
      end
  | VDict da =>
      match b with
      | VDict db =>
          (Nat.eqb (List.length da) (List.length db) &&
           (fix go (da : list (string * value)) {struct da} : bool :=
              match da with
              | [] => true
              | (k, v) :: rest =>
                  (match Dict.lookup k db with
                   | Some w => py_eq v w
                   | None => false
                   end && go rest)%bool
              end) da)%bool
      | _ => false
      end
  | _ =>
      match num a, num b with
      | Some p, Some q => Qeq_bool p q
      | _, _ => false
      end
  end.

(** [a > b]: numbers by value, strings and lists lexicographically, any
    other pairing is a [TypeError]. *)
Fixpoint py_gt (a b : value) {struct a} : result bool :=
  match a with
  | VStr s => match b with VStr t => inr (String.ltb t s) | _ => inl TypeError end
  | VList la =>
      match b with
      | VList lb =>
          (fix go (la lb : list value) {struct la} : result bool :=
             match la, lb with
             | [], _ => inr false
             | _ :: _, [] => inr true
             | x :: xs, y :: ys => if py_eq x y then go xs ys else py_gt x y
             end) la lb
      | _ => inl TypeError
      end
  | _ =>
      match num a, num b with
      | Some p, Some q => inr (Qltb q p)
      | _, _ => inl TypeError
      end
  end.

(** [v < 1]. *)
Definition py_lt_one (v : value) : result bool :=
  match num v with
  | Some q => inr (Qltb q 1)
  | None => inl TypeError
  end.

(** ** Computations that may raise and that change a state *)

Definition M (S A : Type) : Type := S -> result A * S.

Definition ret {S A} (x : A) : M S A := fun s => (inr x, s).
Definition raise {S A} (e : exn) : M S A := fun s => (inl e, s).
Definition bind {S A B} (c : M S A) (k : A -> M S B) : M S B :=
  fun s => match c s with
           | (inr x, s') => k x s'
           | (inl e, s') => (inl e, s')
           end.
Definition lift {S A} (r : result A) : M S A := fun s => (r, s).

Declare Scope py_scope.
Delimit Scope py_scope with py.
Notation "x <- c ;; k" := (bind c (fun x => k))
  (at level 61, c at next level, right associativity) : py_scope.
Notation "c ;;; k" := (bind c (fun _ => k))
  (at level 61, right associativity) : py_scope.

(** A [for] loop that threads an accumulator and stops at the first raise. *)
Fixpoint for_each {S A B} (body : B -> A -> M S B) (l : list A) (acc : B) : M S B :=
  match l with
  | [] => ret acc
  | x :: rest => bind (body acc x) (fun acc' => for_each body rest acc')
  end.

(** ** The random module

    The generator behind [random.random()] and [Random._randbelow(n)] is an
    interface: a state, the two draws, and the ranges the library promises. *)

Record Random : Type := {
  gen : Type;
  random_random : gen -> Q * gen;
  randbelow : Z -> gen -> Z * gen;
  random_random_range : forall g,
    (0 <= fst (random_random g))%Q /\ (fst (random_random g) < 1)%Q;
  randbelow_range : forall n g, 0 < n -> 0 <= fst (randbelow n g) < n
}.

(** What a run reads and changes: the generator and the file system.  Of
    the file system the world keeps, in order, the paths of the writes that
    completed ([written]: the files [FX.build] rendered under a name, then
    those of [np.save] and [to_csv]), the paths [os.makedirs] was called on
    and accepted ([dirs]: each of them is then a directory, whether the call
    had to make it, its parents too, or found it there), and the error, if
    any, with which the file system answers a write or a [makedirs] at a
    path ([denied]). *)
Record world (R : Random) : Type := World {
  rng : gen R;
  written : list string;
  dirs : list string;
  denied : string -> option exn
}.
Arguments World {R}.
Arguments rng {R}.
Arguments written {R}.
Arguments dirs {R}.
Arguments denied {R}.

Section RandomModule.
Context {R : Random}.
Local Open Scope py_scope.

Definition draw_random : M (world R) Q :=
  fun w => let (r, g) := random_random R (rng w) in
           (inr r, World g (written w) (dirs w) (denied w)).

Definition draw_below (n : Z) : M (world R) Z :=
  fun w => let (r, g) := randbelow R n (rng w) in
           (inr r, World g (written w) (dirs w) (denied w)).

(** [random.uniform(a, b)]: [a + (b - a) * random()]. *)
Definition uniform (a b : value) : M (world R) value :=
  match num a, num b with
  | Some p, Some q => r <- draw_random ;; ret (VFloat (p + (q - p) * r))
  | _, _ => raise TypeError
  end.

(** [int(x)] as [randrange] uses it, with its test [int(x) != x]. *)
Definition integral (q : Q) : result Z :=
  if Qeq_bool (inject_Z (Qfloor q)) q then inr (Qfloor q) else inl ValueError.

(** [random.randrange(start, stop)] as in CPython 3.6 to 3.11: both
    arguments must be integral, and the range must not be empty. *)
Definition randrange (start stop : Q) : M (world R) Z :=
  istart <- lift (integral start) ;;
  istop <- lift (integral stop) ;;
  let width := istop - istart in
  if 0 <? width then r <- draw_below width ;; ret (istart + r)
  else raise ValueError.

(** [random.randint(a, b)]: [randrange(a, b + 1)]. *)
Definition randint (a b : value) : M (world R) value :=
  match num a, num b with
  | Some p, Some q => z <- randrange p (q + 1) ;; ret (VInt z)
  | _, _ => raise TypeError
  end.

(** [random.choice(seq)]. *)
Definition choice {A} (seq : list A) : M (world R) A :=
  match seq with
  | [] => raise IndexError
  | _ =>
      i <- draw_below (Z.of_nat (List.length seq)) ;;
      match nth_error seq (Z.to_nat i) with
      | Some x => ret x
      | None => raise IndexError
      end
  end.

(** [random.choices(population, k=k)]: [k] draws with replacement, each
    [population[int(random() * len(population))]]. *)
Fixpoint choices {A} (population : list A) (k : nat) : M (world R) (list A) :=
  match k with
  | O => ret []
  | S k' =>
      r <- draw_random ;;
      match nth_error population
              (Z.to_nat (Qfloor (r * inject_Z (Z.of_nat (List.length population))))) with
      | Some x => rest <- choices population k' ;; ret (x :: rest)
      | None => raise IndexError
      end
  end.

(** ** [rand] *)

Definition rand (x y : value) : M (world R) value :=
  bx <- lift (py_lt_one x) ;;
  by_ <- lift (py_lt_one y) ;;
  if (bx && by_)%bool then uniform x y else randint x y.

End RandomModule.

(** ** Two-dimensional arrays *)

(** A numpy array of rank 2: its shape and its rows.  The shape is kept
    apart from the rows because an array with no row still has a width. *)
Record array2 : Type := Array2 {
  shape0 : nat;
  shape1 : nat;
  data : list (list Q)
}.

Definition shape (a : array2) : nat * nat := (shape0 a, shape1 a).

Definition wf_array (a : array2) : Prop :=
  List.length (data a) = shape0 a /\
  Forall (fun row => List.length row = shape1 a) (data a).

(** [a[i, j]], when the index is inside the array. *)
Definition item (a : array2) (i j : nat) : option Q :=
  match nth_error (data a) i with
  | Some row => nth_error row j
  | None => None
  end.

Definition entry (a : array2) (i j : nat) : Q := nth j (nth i (data a) []) 0%Q.

(** [np.zeros(shape)]. *)
Definition zeros (s : nat * nat) : array2 :=
  Array2 (fst s) (snd s) (repeat (repeat 0%Q (snd s)) (fst s)).

(** [np.expand_dims(x, axis = 1)] of a vector: one column. *)
Definition expand_dims (x : list Q) : array2 :=
  Array2 (List.length x) 1 (map (fun v => [v]) x).

(** [np.mean(a, axis = 0)]: one mean per column, over the rows. *)
Definition Qsum (l : list Q) : Q := fold_right Qplus 0%Q l.
Definition mean_axis0 (a : array2) : list Q :=
  map (fun j => (Qsum (map (fun row => nth j row 0%Q) (data a))
                 / inject_Z (Z.of_nat (shape0 a)))%Q)
      (seq 0 (shape1 a)).

(** ** [pad] *)

(** [max(shapes, key = lambda x: x[0])]: the first shape whose first
    dimension is the largest. *)
Fixpoint max_by_first (best : nat * nat) (l : list (nat * nat)) : nat * nat :=
  match l with
  | [] => best
  | s :: rest =>
      if Nat.ltb (fst best) (fst s) then max_by_first s rest
      else max_by_first best rest
  end.

Definition py_max_by_first (l : list (nat * nat)) : result (nat * nat) :=
  match l with
  | [] => inl ValueError
  | s :: rest => inr (max_by_first s rest)
  end.

(** [grid[:x, :y] = inp] for [x, y = inp.shape].  The target is clipped to
    the grid; numpy then broadcasts [inp] into it, which needs each dimension
    of [inp] to equal the target's or to be 1, and raises otherwise. *)
Definition assign_corner (grid inp : array2) : result array2 :=
  let x := shape0 inp in
  let y := shape1 inp in
  let sx := Nat.min x (shape0 grid) in
  let sy := Nat.min y (shape1 grid) in
  if ((Nat.eqb x sx || Nat.eqb x 1) && (Nat.eqb y sy || Nat.eqb y 1))%bool then
    inr (Array2 (shape0 grid) (shape1 grid)
           (map (fun i =>
                   map (fun j =>
                          if (Nat.ltb i sx && Nat.ltb j sy)%bool
                          then entry inp (if Nat.eqb x sx then i else 0%nat)
                                         (if Nat.eqb y sy then j else 0%nat)
                          else entry grid i j)
                       (seq 0 (shape1 grid)))
                (seq 0 (shape0 grid))))
  else inl ValueError.

Definition padder (inp : array2) (max_shape : nat * nat) : result array2 :=
  let zero_grid := zeros max_shape in
  assign_corner zero_grid inp.

Fixpoint map_result {A B} (f : A -> result B) (l : list A) : result (list B) :=
  match l with
  | [] => inr []
  | x :: rest =>
      match f x with
      | inl e => inl e
      | inr y =>
          match map_result f rest with
          | inl e => inl e
          | inr ys => inr (y :: ys)
          end
      end
  end.

(** The stacked array [np.array(reshapen)] is the list of its slices. *)
Definition pad (l_arrays : list array2) : result (list array2) :=
  match py_max_by_first (map shape l_arrays) with
  | inl e => inl e
  | inr max_shape => map_result (fun x => padder x max_shape) l_arrays
  end.

(** ** [feature_pipeline] *)

(** [librosa.feature.mfcc(y, sr, n_mfcc)] is an interface: a matrix with one
    row per coefficient and one column per frame, the frames being those of
    the library's centred short-time transform with a hop of 512 samples. *)
Definition n_frames (samples : nat) : nat := 1 + samples / 512.

Record Librosa : Type := {
  mfcc : list Q -> Z -> nat -> array2;
  mfcc_wf : forall y sr n, wf_array (mfcc y sr n);
  mfcc_shape : forall y sr n,
    shape (mfcc y sr n) = (n, n_frames (List.length y))
}.

Definition feature_pipeline (L : Librosa) (arr : list Q) : list Q :=
  let m := mfcc L arr 44100 26 in
  let mfcc_mean := mean_axis0 m in
  mfcc_mean.

(** ** The sox transformer and the audio loader

    [sox.Transformer] and [librosa.load] are interfaces.  [arsenal] tells
    whether a name is a bound method of the transformer, [signature] gives the
    default of every parameter of that method ([getattr] followed by
    [inspect.signature]), [apply] is the method's own validation of its
    arguments, [build] renders a source file through a chain of effects
    into the file named, or into the temporary file of the [with] block when
    no name is given, and [load] is what the loader reads back from rendered
    audio at a rate.  Rendering and loading may raise. *)
Definition chain := list (string * dict).

Record Sox : Type := {
  arsenal : string -> bool;
  signature : string -> result dict;
  apply : string -> dict -> result unit;
  build : string -> option string -> chain -> result (list Q);
  load : list Q -> Z -> result (list Q)
}.

Section AugmentTrack.
Context {R : Random} (X : Sox) (L : Librosa).
Local Open Scope py_scope.

Definition is_str (v : value) (s : string) : bool :=
  match v with VStr t => String.eqb t s | _ => false end.

(** [v is True]. *)
Definition is_True (v : value) : bool :=
  match v with VBool true => true | _ => false end.

Definition bounds_message (effect param : string) : string :=
  "Upper bound for " ++ (effect ++ "." ++ param)
    ++ " must be greater than its lower bound".

(** The body of the loop over [parameters.items()]. *)
Definition resolve_param (f_defaults : dict) (effect : string)
    (used : dict) (item : string * value) : M (world R) dict :=
  let (param, val) := item in
  match val with
  | VDict policy =>
      let state := py_get "state" policy in
      let default := py_get "default" policy in
      if is_str state "constant" then
        ret (Dict.set param
               (if is_True default then py_get param f_defaults
                else py_get "upper" policy) used)
      else if is_str state "random" then
        match py_get param f_defaults with
        | VList _ => raise TypeError
        | _ =>
            let lower := py_get "lower" policy in
            let upper := py_get "upper" policy in
            ok <- lift (py_gt upper lower) ;;
            if ok then v <- rand lower upper ;; ret (Dict.set param v used)
            else raise (AssertionError (bounds_message effect param))
        end
      else ret used
  | _ => raise AttributeError
  end.

(** The coin of the classification policy: [true] when the effect is
    skipped, that is when [int(random.choice([True, False])) == 0]. *)
Definition skipped (exercise : string) (sustain : list string)
    (effect : string) : M (world R) bool :=
  if (String.eqb (Py.lower exercise) "classification"
      && negb (Dict.mem effect sustain))%bool
  then b <- choice [true; false] ;; ret (negb b)
  else ret false.

(** The body of the loop over [effects.items()]: the labels so far and the
    effects the transformer has accumulated. *)
Definition apply_effect (exercise : string) (sustain : list string)
    (acc : dict * chain) (item : string * value) : M (world R) (dict * chain) :=
  let (labels, fx) := acc in
  let (effect, parameters) := item in
  skip <- skipped exercise sustain effect ;;
  if skip then ret (labels, fx)
  else
    f_defaults <- lift (signature X effect) ;;
    match parameters with
    | VDict params =>
        used <- for_each (resolve_param f_defaults effect) params [] ;;
        lift (apply X effect used) ;;;
        ret (Dict.set effect (VDict used) labels, (fx ++ [(effect, used)])%list)
    | _ => raise AttributeError
    end.

Definition record_written (path : string) : M (world R) unit :=
  fun w => (inr tt, World (rng w) (written w ++ [path])%list (dirs w) (denied w)).

(** A write that the file system may refuse: [np.save(path, arr)], and
    [open(path, 'w')] followed by [to_csv]. *)
Definition write_file (path : string) : M (world R) unit :=
  fun w => match denied w path with
           | Some e => (inl e, w)
           | None => record_written path w
           end.

(** [os.makedirs(path, exist_ok=True)]. *)
Definition makedirs (path : string) : M (world R) unit :=
  fun w => match denied w path with
           | Some e => (inl e, w)
           | None =>
               (inr tt, World (rng w) (written w) (dirs w ++ [path])%list (denied w))
           end.

(** The destination of the augmented copy of [file] under [write]. *)
Definition outfile_of (write file : string) (n : nat) : result string :=
  let parts := Py.split "/"%char file in
  match (if negb (Py.contains "/audio/" file)
         then Py.index_from_end parts 2 else Py.index_from_end parts 3) with
  | inl e => inl e
  | inr model =>
      match Py.index_from_end parts 1 with
      | inl e => inl e
      | inr name => inr (Py.join write [model; Py.str_of_nat n ++ "_" ++ name])
      end
  end.

(** The effect loop of [augment_track]: the nested labels and the chain. *)
Definition augment_effects (effects : list (string * value))
    (exercise : string) (sustain : list string) : M (world R) (dict * chain) :=
  for_each (apply_effect exercise sustain) effects ([], []).

Definition augment_track (file : string) (n : nat)
    (effects : list (string * value)) (exercise : string)
    (sustain : list string) (write : option string)
  : M (world R) (dict * list Q) :=
  lf <- augment_effects effects exercise sustain ;;
  let (labels, fx) := lf in
  match write with
  | Some dir =>
      outfile <- lift (outfile_of dir file n) ;;
      lift (build X file (Some outfile) fx) ;;;
      record_written outfile
  | None => ret tt
  end ;;;
  audio <- lift (build X file None fx) ;;
  array <- lift (load X audio 41000) ;;
  let flattened_labels := Dict.set "group" (VInt (Z.of_nat n)) (flatten_labels labels) in
  ret (flattened_labels, feature_pipeline L array).

End AugmentTrack.

(** ** The label table

    A [pandas.DataFrame] built from a list of dictionaries, kept as its rows;
    a cell whose row lacks the column is missing ([NaN]). *)
Definition DataFrame := list dict.

Definition column (name : string) (df : DataFrame) : list (option value) :=
  map (Dict.lookup name) df.

(** [df[name] = pd.Series(values)]: aligned on the row number; rows past the
    end of the series get a missing cell. *)
Fixpoint set_column_from (i : nat) (name : string) (values : list value)
    (df : DataFrame) : DataFrame :=
  match df with
  | [] => []
  | row :: rest =>
      match nth_error values i with
      | Some v => Dict.set name v row
      | None => Dict.remove name row
      end :: set_column_from (S i) name values rest
  end.

Definition set_column (name : string) (values : list value) (df : DataFrame)
  : DataFrame := set_column_from 0 name values df.

(** ** [validate_reduce_fx] and [augment_data] *)

Record augmentation_config : Type := {
  cfg_effects : dict;
  cfg_active : list string;
  cfg_exercise : option string;
  cfg_sustain : option (list string);
  cfg_write : option string
}.

(** What [augment_data] reads besides the effect configuration: the files the
    glob over the train models found, the train models, its keyword
    arguments, the global [INTERIM_DIR] (which the module uses and does not
    define: [None] unless someone has bound the name), the absolute data
    directory, and the line typed at the prompt. *)
Record arguments : Type := {
  train_soundfiles : list string;
  use_models_train : list string;
  subsample : option nat;
  n_augment : nat;
  write_with_effects_to : option string;
  make_training_set : bool;
  source : string;
  INTERIM_DIR : option string;
  data_dir : string;
  stdin : string
}.

Section AugmentData.
Context {R : Random} (X : Sox) (L : Librosa).
Local Open Scope py_scope.

(** The second component is the original mapping when every effect is a
    method of the transformer, and otherwise the set of the others. *)
Definition validate_reduce_fx (effects : dict) : bool * (dict + list string) :=
  if forallb (arsenal X) (Dict.keys effects) then (true, inl effects)
  else (false, inr (filter (fun f => negb (arsenal X f)) (Dict.keys effects))).

(** [{k: v for k, v in effects.items() if k in active}]. *)
Definition reduce_to_active (effects : dict) (active : list string) : dict :=
  fold_left (fun acc kv => if Dict.mem (fst kv) active
                           then Dict.set (fst kv) (snd kv) acc else acc)
            effects [].

(** The fixed order, and the effects put back in the ordered dictionary. *)
Definition chain_order (effects : dict) : list string :=
  (["overdrive"]
     ++ filter (fun f => negb (Dict.mem f ["reverb"; "overdrive"])) (Dict.keys effects)
     ++ ["reverb"])%list.

Definition ordered_effects (effects : dict) : dict :=
  fold_left (fun acc kv => Dict.set (fst kv) (snd kv) acc) effects
            (Dict.fromkeys (chain_order effects) VNone).

(** From the validation to the replaced [effects] entry; [.items()] on the
    set of invalid names is an [AttributeError]. *)
Definition effect_chain (cfg : augmentation_config) : result dict :=
  match snd (validate_reduce_fx (cfg_effects cfg)) with
  | inl effects => inr (ordered_effects (reduce_to_active effects (cfg_active cfg)))
  | inr _ => inl AttributeError
  end.

(** The answer at the prompt: [int(input()) == 1] goes on, any other
    integer is [sys.exit('Operation cancelled')]. *)
Definition confirm (line : string) : result unit :=
  match Py.int_of_string line with
  | inl e => inl e
  | inr z => if z =? 1 then inr tt else inl (SystemExit "Operation cancelled")
  end.

(** The block guarded by [write_with_effects_to]: the value of the
    [write] entry afterwards.  Reading the unbound global is a
    [NameError]. *)
Definition confirm_write (a : arguments) (cfg : augmentation_config)
  : M (world R) (option string) :=
  match write_with_effects_to a with
  | Some dest =>
      if String.eqb dest "" then ret (cfg_write cfg)
      else
        match INTERIM_DIR a with
        | None => raise NameError
        | Some interim =>
            let OUT_DIR := Py.join interim [dest] ++ "_" ++ Py.upper (source a) in
            lift (confirm (stdin a)) ;;;
            for_each (fun _ m => makedirs (Py.dirname (Py.join OUT_DIR [m] ++ "/")))
                     (use_models_train a) tt ;;;
            ret (Some OUT_DIR)
        end
  | None => ret (cfg_write cfg)
  end.

(** The file [np.save(file, arr)] writes: the name, with the extension
    [.npy] added unless it is there. *)
Definition npy_name (file : string) : string :=
  if Py.endswith ".npy" file then file else file ++ ".npy".

(** The transposition [zip] of the pairs, unpacked into two names; it
    raises when there is no pair. *)
Definition unzip2 {A B} (pairs : list (A * B)) : result (list A * list B) :=
  match pairs with
  | [] => inl ValueError
  | _ => inr (map fst pairs, map snd pairs)
  end.

Definition gt (x : string) (ix : nat) : result string :=
  Py.index_from_end (Py.split "/"%char x) ix.

Definition file_meta (src file : string) : result (string * string) :=
  match gt file (if negb (String.eqb src "sn") then 2 else 3)%nat with
  | inl e => inl e
  | inr model =>
      match gt file 1 with
      | inl e => inl e
      | inr name => inr (model, Py.rstrip ".wav" name)
      end
  end.

(** [list(itertools.chain.from_iterable([[m] * n for m in l]))]. *)
Definition repeat_each {A} (n : nat) (l : list A) : list A :=
  List.concat (map (fun m => repeat m n) l).

(** The double loop filling [store_all]. *)
Definition augment_all (files : list string) (n : nat)
    (effects : dict) (exercise : string) (sustain : list string)
    (write : option string) : M (world R) (list (dict * list Q)) :=
  for_each
    (fun store sf =>
       for_each
         (fun store i =>
            r <- augment_track X L sf i effects exercise sustain write ;;
            ret (store ++ [r])%list)
         (seq 0 n) store)
    files [].

Definition augment_data (a : arguments) (cfg : augmentation_config)
  : M (world R) (list array2 * DataFrame) :=
  files <- match subsample a with
           | Some k => choices (train_soundfiles a) k
           | None => ret (train_soundfiles a)
           end ;;
  effects <- lift (effect_chain cfg) ;;
  write <- confirm_write a cfg ;;
  store_all <- augment_all files (n_augment a) effects
                 (match cfg_exercise cfg with Some e => e | None => "regression" end)
                 (match cfg_sustain cfg with Some s => s | None => ["overdrive"; "reverb"] end)
                 write ;;
  lf <- lift (unzip2 store_all) ;;
  let (labels, features) := lf in
  let all_features := map expand_dims features in
  X_train <- lift (pad all_features) ;;
  let Y_train : DataFrame := labels in
  meta <- lift (map_result (file_meta (source a)) files) ;;
  mc <- lift (unzip2 meta) ;;
  let (models, chordnames) := mc in
  let models := repeat_each (n_augment a) models in
  let chordnames := repeat_each (n_augment a) chordnames in
  let Y_train := set_column "model" (map VStr models) Y_train in
  let Y_train := set_column "chords" (map VStr chordnames) Y_train in
  (if make_training_set a then
     let processed_dir := data_dir a ++ "/processed/" in
     write_file (npy_name (processed_dir ++ "training_X_" ++ source a)) ;;;
     write_file (processed_dir ++ "training_Y_" ++ source a ++ ".csv")
   else ret tt) ;;;
  ret (X_train, Y_train).

End AugmentData.

(** ** Instances of the interfaces

    Small stand-ins on which the pipeline runs: a generator that replays a
    script of draws, an excerpt of the transformer's method table, and a
    feature extractor with the shape of the library's. *)

Module Script.

Definition next (g : list nat) : nat * list nat :=
  match g with
  | [] => (0%nat, [])
  | x :: rest => (x, rest)
  end.

(** A draw [x] reads as the fraction [(x mod 1000) / 1000]. *)
Definition random (g : list nat) : Q * list nat :=
  (Z.of_nat (fst (next g)) mod 1000 # 1000, snd (next g)).

Definition below (n : Z) (g : list nat) : Z * list nat :=
  (Z.of_nat (fst (next g)) mod n, snd (next g)).

Lemma random_range g :
  (0 <= fst (random g))%Q /\ (fst (random g) < 1)%Q.
Proof.
  unfold random, Qle, Qlt; simpl.
  pose proof (Z.mod_pos_bound (Z.of_nat (fst (next g))) 1000 eq_refl).
  lia.
Qed.

Lemma below_range n g : 0 < n -> 0 <= fst (below n g) < n.
Proof. intros Hn; unfold below; simpl; now apply Z.mod_pos_bound. Qed.

Definition generator : Random :=
  {| gen := list nat;
     random_random := random;
     randbelow := below;
     random_random_range := random_range;
     randbelow_range := below_range |}.

Definition start (script : list nat) : world generator :=
  @World generator script [] [] (fun _ => None).

End Script.

Module Excerpt.

(** Some methods of the transformer with their keyword defaults. *)
Definition table : list (string * dict) :=
  [ ("overdrive", [("gain_db", VFloat 20); ("colour", VFloat 20)]);
    ("reverb", [("reverberance", VInt 50); ("high_freq_damping", VInt 50);
                ("room_scale", VInt 100); ("stereo_depth", VInt 100);
                ("pre_delay", VInt 0); ("wet_gain", VInt 0);
                ("wet_only", VBool false)]);
    ("echo", [("gain_in", VFloat (8 # 10)); ("gain_out", VFloat (9 # 10));
              ("n_echos", VInt 1); ("delays", VList [VInt 60]);
              ("decays", VList [VFloat (4 # 10)])]);
    ("phaser", [("gain_in", VFloat (8 # 10)); ("gain_out", VFloat (74 # 100));
                ("delay", VInt 3); ("decay", VFloat (4 # 10));
                ("speed", VFloat (5 # 10));
                ("modulation_shape", VStr "sinusoidal")]) ].

Definition is_method (f : string) : bool :=
  match Dict.lookup f table with Some _ => true | None => false end.

Definition defaults (f : string) : result dict :=
  match Dict.lookup f table with
  | Some d => inr d
  | None => inl AttributeError
  end.

(** A call with a keyword the method does not have is a [TypeError]; the
    values themselves are accepted. *)
Definition call (f : string) (used : dict) : result unit :=
  match Dict.lookup f table with
  | Some d =>
      if forallb (fun k => Dict.mem k (Dict.keys d)) (Dict.keys used)
      then inr tt else inl TypeError
  | None => inl AttributeError
  end.

(** Rendering gives 512 samples per character of the file's path, so
    that files differ in duration. *)
Definition render (file : string) (output : option string) (fx : chain)
  : result (list Q) :=
  inr (repeat 0%Q (512 * String.length file)).

Definition transformer : Sox :=
  {| arsenal := is_method;
     signature := defaults;
     apply := call;
     build := render;
     load := fun audio _ => inr audio |}.

Definition cepstrum (y : list Q) (sr : Z) (n : nat) : array2 :=
  Array2 n (n_frames (List.length y))
    (map (fun i => map (fun j => inject_Z (Z.of_nat (i + j)))
                       (seq 0 (n_frames (List.length y))))
         (seq 0 n)).

Lemma cepstrum_wf y sr n : wf_array (cepstrum y sr n).
Proof.
  unfold wf_array, cepstrum; cbn [data shape0 shape1]; split.
  - now rewrite List.length_map, List.length_seq.
  - apply Forall_forall; intros row Hrow.
    apply in_map_iff in Hrow as (i & <- & _).
    now rewrite List.length_map, List.length_seq.
Qed.

Lemma cepstrum_shape y sr n :
  shape (cepstrum y sr n) = (n, n_frames (List.length y)).
Proof. reflexivity. Qed.

Definition extractor : Librosa :=
  {| mfcc := cepstrum; mfcc_wf := cepstrum_wf; mfcc_shape := cepstrum_shape |}.

End Excerpt.

(** ** Sample inputs *)

Module Sample.

Definition constant_default : value :=
  VDict [("state", VStr "constant"); ("default", VBool true)].

Definition random_between (lower upper : value) : value :=
  VDict [("state", VStr "random"); ("lower", lower); ("upper", upper)].

(** Two files of one model, two repetitions, the regression policy, and
    both sustained effects at their defaults. *)
Definition config : augmentation_config :=
  {| cfg_effects :=
       [("reverb", VDict [("reverberance", constant_default)]);
        ("overdrive", VDict [("gain_db", constant_default)])];
     cfg_active := ["overdrive"; "reverb"];
     cfg_exercise := Some "regression";
     cfg_sustain := None;
     cfg_write := None |}.

Definition args : arguments :=
  {| train_soundfiles := ["data/strat/C.wav"; "data/strat/Gmaj.wav"];
     use_models_train := ["strat"];
     subsample := None;
     n_augment := 2;
     write_with_effects_to := None;
     make_training_set := false;
     source := "power";
     INTERIM_DIR := Some "data/interim";
     data_dir := "/home/data";
     stdin := "" |}.

End Sample.

Module PadSample.
Definition tall : array2 := Array2 2 1 [[1%Q]; [2%Q]].
Definition short : array2 := Array2 1 1 [[3%Q]].
Definition wide : array2 := Array2 1 2 [[3%Q; 4%Q]].

End PadSample.

Module ChainSample.
Definition config : augmentation_config :=
  {| cfg_effects :=
       [("reverb", VDict [("reverberance", Sample.constant_default)]);
        ("phaser", VDict [("speed", Sample.random_between (VFloat (1 # 10)) (VFloat (5 # 10)))]);
        ("echo", VDict [("n_echos", Sample.constant_default)]);
        ("overdrive", VDict [("gain_db", Sample.constant_default)])];
     cfg_active := ["phaser"; "reverb"; "overdrive"];
     cfg_exercise := Some "classification";
     cfg_sustain := None;
     cfg_write := None |}.
End ChainSample.

Module MissingSample.
(** Only the phaser is active. *)
Definition config : augmentation_config :=
  {| cfg_effects :=
       [("phaser", VDict [("speed", Sample.constant_default)])];
     cfg_active := ["phaser"];
     cfg_exercise := Some "classification";
     cfg_sustain := Some [];
     cfg_write := None |}.

Definition chain : dict :=
  [("overdrive", VNone);
   ("phaser", VDict [("speed", Sample.constant_default)]);
   ("reverb", VNone)].
End MissingSample.

Module BoundsSample.
Definition policy : dict :=
  [("state", VStr "random"); ("lower", VInt 5); ("upper", VInt 3)].
Definition effects (effect param : string) : dict :=
  [(effect, VDict [(param, VDict policy)])].
End BoundsSample.

Module PromptSample.
(** A run asked to write the augmented audio, with the line typed. *)
Definition args (line : string) : arguments :=
  {| train_soundfiles := ["data/strat/C.wav"];
     use_models_train := ["strat"];
     subsample := None;
     n_augment := 1;
     write_with_effects_to := Some "augmented";
     make_training_set := false;
     source := "power";
     INTERIM_DIR := Some "data/interim";
     data_dir := "/home/data";
     stdin := line |}.
End PromptSample.

Module DeterminismSample.
Definition effects : dict :=
  [("overdrive", VDict [("gain_db", Sample.constant_default)]);
   ("phaser", VDict [("speed", Sample.random_between (VFloat (1 # 10)) (VFloat (5 # 10)))]);
   ("reverb", VDict [("reverberance", Sample.random_between (VInt 10) (VInt 90))])].

(** The same method table, rendering silence. *)
Definition muted : Sox :=
  {| arsenal := Excerpt.is_method;
     signature := Excerpt.defaults;
     apply := Excerpt.call;
     build := fun _ _ _ => inr [];
     load := fun audio _ => inr audio |}.

Definition fresh : world Script.generator := Script.start [0; 300; 57]%nat.
Definition used : world Script.generator :=
  @World Script.generator [0; 300; 57]%nat ["old/0_C.wav"] ["old"] (fun _ => None).
End DeterminismSample.

Module InvalidSample.
(** The sample configuration with one more configured effect, not among
    the active ones, that is no method of the transformer. *)
Definition config : augmentation_config :=
  {| cfg_effects := (cfg_effects Sample.config ++ [("wobble", VDict [])])%list;
     cfg_active := ["overdrive"; "reverb"];
     cfg_exercise := Some "regression";
     cfg_sustain := None;
     cfg_write := None |}.
End InvalidSample.

Module EdgeSample.
(** One file and no repetition. *)
Definition no_repetition : arguments :=
  {| train_soundfiles := ["data/strat/C.wav"];
     use_models_train := ["strat"];
     subsample := None;
     n_augment := 0;
     write_with_effects_to := None;
     make_training_set := true;
     source := "power";
     INTERIM_DIR := Some "data/interim";
     data_dir := "/home/data";
     stdin := "" |}.

End EdgeSample.

Module FaultSample.
(** The excerpt of the transformer with a loader that cannot read what
    was rendered. *)
Definition deaf : Sox :=
  {| arsenal := Excerpt.is_method;
     signature := Excerpt.defaults;
     apply := Excerpt.call;
     build := Excerpt.render;
     load := fun _ _ => inl OSError |}.

(** The sample run, asked to persist the training set. *)
Definition args : arguments :=
  {| train_soundfiles := ["data/strat/C.wav"; "data/strat/Gmaj.wav"];
     use_models_train := ["strat"];
     subsample := None;
     n_augment := 2;
     write_with_effects_to := None;
     make_training_set := true;
     source := "power";
     INTERIM_DIR := None;
     data_dir := "/home/data";
     stdin := "" |}.

(** A file system that refuses the label table. *)
Definition no_table : world Script.generator :=
  @World Script.generator [] [] []
    (fun path =>
       if String.eqb path "/home/data/processed/training_Y_power.csv"
       then Some OSError else None).

(** A run asked to write the augmented audio while the module is as it
    stands, with [INTERIM_DIR] unbound. *)
Definition as_shipped : arguments :=
  {| train_soundfiles := ["data/strat/C.wav"];
     use_models_train := ["strat"];
     subsample := None;
     n_augment := 1;
     write_with_effects_to := Some "augmented";
     make_training_set := false;
     source := "power";
     INTERIM_DIR := None;
     data_dir := "/home/data";
     stdin := "1" |}.
End FaultSample.

(** ** Notions used in the statements *)

(** One turn of the loop of [flatten] over the items of the mapping. *)
Definition flatten_step (par sep : string) (store : dict) (kv : string * value) : dict :=
  match snd kv with
  | VDict _ =>
      Dict.merge store
        (flatten_value (snd kv)
           (if String.eqb par "" then fst kv else par ++ sep ++ fst kv) ".")
  | v => Dict.set (par ++ sep ++ fst kv) v store
  end.

(** A value that is a dictionary. *)
Definition is_dict (v : value) : bool :=
  match v with VDict _ => true | _ => false end.

(** What one item of the mapping adds to the keys of the store. *)
Definition contributes (par sep k : string) (v : value) (key : string) : Prop :=
  match v with
  | VDict _ =>
      In key (Dict.keys (flatten_value v
                           (if String.eqb par "" then k else par ++ sep ++ k) "."))
  | _ => key = par ++ sep ++ k
  end.

(** A leaf of a nested mapping with the keys on the way down to it. *)
Inductive leaf_at : value -> list string -> value -> Prop :=
| leaf_here d k v :
    In (k, v) d -> is_dict v = false -> leaf_at (VDict d) [k] v
| leaf_below d k v path x :
    In (k, v) d -> leaf_at v path x -> leaf_at (VDict d) (k :: path) x.

(** A slice [out] keeps the original [a] on its top-left submatrix and is
    zero everywhere else. *)
Definition padded_slice (a out : array2) : Prop :=
  (forall i j, (i < shape0 a)%nat -> (j < shape1 a)%nat -> item out i j = item a i j)
  /\
  (forall i j, (i < shape0 out)%nat -> (j < shape1 out)%nat ->
               (shape0 a <= i)%nat \/ (shape1 a <= j)%nat ->
               item out i j = Some 0%Q).

(** [OrderedDict.fromkeys] from a dictionary under construction. *)
Definition set_all {A} (v : A) (ks : list string) (d : list (string * A)) :=
  fold_left (fun acc k => Dict.set k v acc) ks d.

(** The loop that puts the effects back in the ordered dictionary. *)
Definition put_back {A} (effects d : list (string * A)) :=
  fold_left (fun acc kv => Dict.set (fst kv) (snd kv) acc) effects d.

(** A computation that raises from every state. *)
Definition raises {S A} (c : M S A) : Prop :=
  forall s, exists e s', c s = (inl e, s').

(** The test that sends an effect to the coin: classification, and the
    effect outside the sustain set. *)
Definition may_skip (exercise : string) (sustain : list string) (effect : string) : bool :=
  (String.eqb (Py.lower exercise) "classification" && negb (Dict.mem effect sustain))%bool.

(** The exception a random parameter with unordered bounds ends in, by
    the library default of the parameter. *)
Definition bounds_failure (default : value) (effect param : string) : exn :=
  match default with
  | VList _ => TypeError
  | _ => AssertionError (bounds_message effect param)
  end.

(** A computation that reads nothing of the world but the generator: from
    worlds with the same generator state it gives the same outcome and
    leaves the same generator state. *)
Definition rng_only {R : Random} {A} (c : M (world R) A) : Prop :=
  forall w1 w2, rng w1 = rng w2 ->
    fst (c w1) = fst (c w2) /\ rng (snd (c w1)) = rng (snd (c w2)).

(** The cell of the [group] column for repetition [i]. *)
Definition group_cell (i : nat) : option value := Some (VInt (Z.of_nat i)).

(** A computation that neither reads nor changes the state. *)
Definition stateless {S A} (c : M S A) : Prop :=
  exists r, forall s, c s = (r, s).

(** A computation that leaves the file system as it is, whether it
    returns or raises. *)
Definition keeps_files {R : Random} {A} (c : M (world R) A) : Prop :=
  forall w r w', c w = (r, w') ->
    written w' = written w /\ dirs w' = dirs w /\ denied w' = denied w.

(** A track that fails with [e] after the effect loop and the rendering
    under a name: in the rendering into the temporary file, or in the
    loader. *)
Definition fails_late (X : Sox) (file : string) (fx : chain) (e : exn) : Prop :=
  build X file None fx = inl e
  \/ exists audio, build X file None fx = inr audio /\ load X audio 41000 = inl e.

(** The label entry of an applied effect. *)
Definition mirror (applied : string * dict) : string * value :=
  (fst applied, VDict (snd applied)).

(** A mapping without nested dictionaries and with distinct keys. *)
Definition flat_mapping (d : dict) : Prop :=
  Forall (fun kv => is_dict (snd kv) = false) d /\ NoDup (Dict.keys d).

(** The directory of the augmented copies when [write_with_effects_to] is
    [dest] and [INTERIM_DIR] is bound. *)
Definition out_dir (a : arguments) (dest : string) : option string :=
  match INTERIM_DIR a with
  | Some interim => Some (Py.join interim [dest] ++ "_" ++ Py.upper (source a))
  | None => None
  end.

(** The [write] entry that reaches [augment_track]. *)
Definition write_destination (a : arguments) (cfg : augmentation_config)
  : option string :=
  match write_with_effects_to a with
  | Some dest => if String.eqb dest "" then cfg_write cfg else out_dir a dest
  | None => cfg_write cfg
  end.

(** The paths handed to [os.makedirs] after the confirmation, one per
    train model. *)
Definition made_dirs (a : arguments) : list string :=
  match write_with_effects_to a with
  | Some dest =>
      if String.eqb dest "" then []
      else match out_dir a dest with
           | Some dir => map (fun m => Py.dirname (Py.join dir [m] ++ "/"))
                             (use_models_train a)
           | None => []
           end
  | None => []
  end.

(** The two files of a persisted training set. *)
Definition array_file (a : arguments) : string :=
  npy_name ((data_dir a ++ "/processed/") ++ "training_X_" ++ source a).
Definition table_file (a : arguments) : string :=
  (data_dir a ++ "/processed/") ++ "training_Y_" ++ source a ++ ".csv".
Definition artifacts (a : arguments) : list string :=
  if make_training_set a then [array_file a; table_file a] else [].

(** The last step of [augment_data]: the training set saved when asked. *)
Definition persist {R : Random} (a : arguments) : M (world R) unit :=
  if make_training_set a
  then bind (write_file (array_file a)) (fun _ => write_file (table_file a))
  else ret tt.


(** The turns of the double loop of [augment_data]: file by file, and for
    each file repetition by repetition. *)
Definition jobs (files : list string) (n : nat) : list (string * nat) :=
  flat_map (fun sf => map (pair sf) (seq 0 n)) files.

(** [sampled step todo w rows w']: running [step] on the turns [todo] one
    after the other from the world [w], each from the world the one before
    left, returns every time, gives [rows] in that order and leaves [w']. *)
Inductive sampled {S A B} (step : A -> M S B) : list A -> S -> list B -> S -> Prop :=
| sampled_nil s : sampled step [] s [] s
| sampled_cons x todo s r s1 rows s2 :
    step x s = (inr r, s1) ->
    sampled step todo s1 rows s2 ->
    sampled step (x :: todo) s (r :: rows) s2.

(** The exercise and the sustained effects [augment_track] is called
    with: those of the configuration, or its defaults. *)
Definition exercise_of (cfg : augmentation_config) : string :=
  match cfg_exercise cfg with Some e => e | None => "regression" end.
Definition sustain_of (cfg : augmentation_config) : list string :=
  match cfg_sustain cfg with Some s => s | None => ["overdrive"; "reverb"] end.

(** A path segment: a name in which no ["/"] occurs. *)
Definition segment (s : string) : Prop :=
  forallb (fun c => negb (Ascii.eqb c "/")) (Py.chars s) = true.

(** * Properties *)

(** ** Dictionaries *)

Lemma lookup_set_same {A} k (v : A) d : Dict.lookup k (Dict.set k v d) = Some v.
Proof.
  induction d as [|[k' v'] d IH]; simpl.
  - now rewrite String.eqb_refl.
  - destruct (String.eqb k k') eqn:E; simpl; rewrite E; auto.
Qed.

Lemma lookup_set_other {A} k k' (v : A) d :
  k <> k' -> Dict.lookup k (Dict.set k' v d) = Dict.lookup k d.
Proof.
  intros Hne; induction d as [|[k0 v0] d IH]; simpl.
  - destruct (String.eqb_spec k k'); congruence.
  - destruct (String.eqb_spec k' k0); simpl.
    + subst. destruct (String.eqb_spec k k0); congruence.
    + destruct (String.eqb_spec k k0); auto.
Qed.

Lemma mem_In k l : Dict.mem k l = true <-> In k l.
Proof.
  unfold Dict.mem; rewrite existsb_exists; split.
  - intros (x & Hx & E); apply String.eqb_eq in E; now subst.
  - intros H; exists k; split; auto using String.eqb_refl.
Qed.

Lemma mem_false k l : Dict.mem k l = false <-> ~ In k l.
Proof.
  rewrite <- mem_In; destruct (Dict.mem k l); split; congruence.
Qed.

Lemma keys_set_in {A} k (v : A) d :
  In k (Dict.keys d) -> Dict.keys (Dict.set k v d) = Dict.keys d.
Proof.
  unfold Dict.keys; induction d as [|[k' v'] d IH]; simpl; [tauto|].
  intros [->|Hin].
  - now rewrite String.eqb_refl.
  - destruct (String.eqb k k'); simpl; [reflexivity|]. now rewrite IH.
Qed.

Lemma set_fresh {A} k (v : A) d :
  ~ In k (Dict.keys d) -> Dict.set k v d = (d ++ [(k, v)])%list.
Proof.
  unfold Dict.keys; induction d as [|[k' v'] d IH]; simpl; [reflexivity|].
  intros Hnot. destruct (String.eqb_spec k k'); [subst; tauto|].
  rewrite IH; tauto.
Qed.

Lemma in_keys_set {A} k (v : A) d : In k (Dict.keys (Dict.set k v d)).
Proof.
  unfold Dict.keys; induction d as [|[k' v'] d IH]; simpl; [now left|].
  destruct (String.eqb_spec k k'); simpl; [now left | now right].
Qed.

Lemma keys_set_cases {A} k (v : A) d :
  Dict.keys (Dict.set k v d) = Dict.keys d \/
  (~ In k (Dict.keys d) /\ Dict.keys (Dict.set k v d) = (Dict.keys d ++ [k])%list).
Proof.
  destruct (in_dec string_dec k (Dict.keys d)) as [Hin|Hnot].
  - left; now apply keys_set_in.
  - right; split; auto. rewrite set_fresh by assumption.
    unfold Dict.keys; now rewrite map_app.
Qed.

(** ** [flatten] *)

Lemma flatten_fold x par sep :
  flatten x par sep = fold_left (flatten_step par sep) x [].
Proof.
  unfold flatten; simpl. generalize (@nil (string * value)) as store.
  induction x as [|[k v] x IH]; intros store; [reflexivity|].
  destruct v; simpl; apply IH.
Qed.

Lemma flatten_flat_from (x : dict) (store : dict) :
  forallb (fun kv => negb (is_dict (snd kv))) x = true ->
  NoDup (Dict.keys x) ->
  (forall k, In k (Dict.keys x) -> ~ In ("." ++ k) (Dict.keys store)) ->
  fold_left (flatten_step "" ".") x store
  = (store ++ map (fun kv => (("." ++ fst kv)%string, snd kv)) x)%list.
Proof.
  revert store; induction x as [|[k v] x IH]; intros store Hflat Hnd Hfresh; simpl.
  - now rewrite app_nil_r.
  - simpl in Hflat. apply andb_true_iff in Hflat as [Hv Hflat].
    inversion Hnd as [|? ? Hk Hnd']; subst.
    assert (Hstep : flatten_step "" "." store (k, v) = (store ++ [(("." ++ k)%string, v)])%list).
    { unfold flatten_step; simpl.
      destruct v; try discriminate; apply set_fresh; apply Hfresh; simpl; auto. }
    rewrite Hstep, IH; auto.
    + now rewrite <- app_assoc.
    + intros k' Hk' Hin. unfold Dict.keys in Hin.
      rewrite map_app in Hin; apply in_app_or in Hin as [Hin|Hin].
      * apply (Hfresh k'); simpl; auto.
      * simpl in Hin. destruct Hin as [E|[]]. injection E as E. congruence.
Qed.

(** C6.  On a mapping that is already flat (no value is a dictionary, keys
    distinct) [flatten] does not return the mapping: every key comes back
    with the separator in front of it, because the leaf branch joins the
    empty parent with the separator where the dictionary branch does not. *)
Theorem flatten_flat_mapping_prefixes_separator (x : dict) :
  forallb (fun kv => negb (is_dict (snd kv))) x = true ->
  NoDup (Dict.keys x) ->
  flatten_labels x = map (fun kv => ("." ++ fst kv, snd kv)) x.
Proof.
  intros Hflat Hnd. unfold flatten_labels.
  rewrite flatten_fold, flatten_flat_from; auto.
Qed.

Lemma flatten_flat_mapping_witness :
  flatten_labels [("overdrive.gain", VInt 3); ("group", VInt 0)]
  = [(".overdrive.gain", VInt 3); (".group", VInt 0)].
Proof.
  apply (flatten_flat_mapping_prefixes_separator
           [("overdrive.gain", VInt 3); ("group", VInt 0)]).
  - reflexivity.
  - repeat constructor; simpl; intuition discriminate.
Defined.

(** The example of the docstring and of the specification: below the root
    the keys are the dot-joined paths. *)
Example flatten_nested_example :
  flatten_labels [("overdrive", VDict [("gain", VInt 3)])] = [("overdrive.gain", VInt 3)]
  /\ flatten_labels [("Cookies", VDict [("milk", VStr "Yes"); ("beer", VStr "No")])]
     = [("Cookies.milk", VStr "Yes"); ("Cookies.beer", VStr "No")].
Proof. split; reflexivity. Qed.

(** ** [flatten] below the root *)

Lemma append_assoc (a b c : string) : (a ++ b) ++ c = a ++ b ++ c.
Proof. induction a as [|x a IH]; simpl; [reflexivity | now rewrite IH]. Qed.

Lemma append_not_empty (a b : string) : a ++ "." ++ b <> "".
Proof. destruct a; discriminate. Qed.

Lemma keys_set_iff {A} k k' (v : A) d :
  In k (Dict.keys (Dict.set k' v d)) <-> k = k' \/ In k (Dict.keys d).
Proof.
  destruct (keys_set_cases k' v d) as [Hs|[_ Hs]]; rewrite Hs.
  - split; [now right|]. intros [->|H]; [|assumption].
    rewrite <- Hs. apply in_keys_set.
  - rewrite in_app_iff. simpl. intuition congruence.
Qed.

Lemma keys_merge_iff {A} k (a b : list (string * A)) :
  In k (Dict.keys (Dict.merge a b)) <-> In k (Dict.keys a) \/ In k (Dict.keys b).
Proof.
  unfold Dict.merge. revert a; induction b as [|[k' v'] b IH]; intros a; simpl.
  - unfold Dict.keys; simpl; tauto.
  - rewrite IH, keys_set_iff. unfold Dict.keys; simpl. intuition congruence.
Qed.

Lemma flatten_step_keys par sep store k v key :
  In key (Dict.keys (flatten_step par sep store (k, v)))
  <-> In key (Dict.keys store) \/ contributes par sep k v key.
Proof.
  unfold flatten_step, contributes; simpl.
  destruct v; rewrite ?keys_set_iff, ?keys_merge_iff; tauto.
Qed.

Lemma flatten_fold_keys par sep items :
  forall store key,
    In key (Dict.keys (fold_left (flatten_step par sep) items store))
    <-> In key (Dict.keys store)
        \/ exists k v, In (k, v) items /\ contributes par sep k v key.
Proof.
  induction items as [|[k v] items IH]; intros store key; simpl.
  - split; [now left|]. now intros [H|(k & v & [] & _)].
  - rewrite IH, flatten_step_keys. split.
    + intros [[H|H]|(k' & v' & Hin & H)]; eauto 7.
    + intros [H|(k' & v' & [E|Hin] & H)]; eauto 7.
      injection E as <- <-. auto.
Qed.

Lemma leaf_at_path v path x : leaf_at v path x -> path <> [].
Proof. destruct 1; discriminate. Qed.

Lemma concat_cons k path :
  path <> [] -> String.concat "." (k :: path) = k ++ "." ++ String.concat "." path.
Proof. destruct path; [congruence|reflexivity]. Qed.

Section ValueInduction.
Variable P : value -> Prop.
Hypothesis HNone : P VNone.
Hypothesis HBool : forall b, P (VBool b).
Hypothesis HInt : forall z, P (VInt z).
Hypothesis HFloat : forall q, P (VFloat q).
Hypothesis HStr : forall s, P (VStr s).
Hypothesis HList : forall l, Forall P l -> P (VList l).
Hypothesis HDict : forall d, Forall (fun kv => P (snd kv)) d -> P (VDict d).

Fixpoint value_nested_ind (v : value) : P v :=
  match v with
  | VNone => HNone
  | VBool b => HBool b
  | VInt z => HInt z
  | VFloat q => HFloat q
  | VStr s => HStr s
  | VList l =>
      HList l
        ((fix all (l : list value) : Forall P l :=
            match l with
            | [] => Forall_nil P
            | x :: rest => Forall_cons x (value_nested_ind x) (all rest)
            end) l)
  | VDict d =>
      HDict d
        ((fix all (d : list (string * value)) : Forall (fun kv => P (snd kv)) d :=
            match d with
            | [] => Forall_nil _
            | (k, x) :: rest =>
                Forall_cons (P := fun kv => P (snd kv)) (k, x)
                  (value_nested_ind x) (all rest)
            end) d)
  end.
End ValueInduction.

Lemma flatten_value_keys (v : value) :
  forall par key,
    par <> "" ->
    (In key (Dict.keys (flatten_value v par "."))
     <-> exists path leaf,
           leaf_at v path leaf /\ key = par ++ "." ++ String.concat "." path).
Proof.
  induction v as [|b|z|q|s|l IH|d IH] using value_nested_ind; intros par key Hpar;
    try (simpl; split; [contradiction | intros (path & leaf & H & _); inversion H]).
  change (flatten_value (VDict d) par ".") with (flatten d par ".").
  rewrite flatten_fold, flatten_fold_keys.
  destruct (String.eqb_spec par ""); [contradiction|].
  rewrite Forall_forall in IH. split.
  - intros [[]|(k & v & Hin & Hc)].
    unfold contributes in Hc.
    destruct (String.eqb_spec par ""); [contradiction|].
    destruct (is_dict v) eqn:Hd.
    + destruct v; try discriminate.
      apply (IH (k, VDict d0) Hin) in Hc as (path & leaf & Hleaf & ->);
        [|apply append_not_empty].
      exists (k :: path), leaf. split; [now apply (leaf_below d k (VDict d0))|].
      rewrite (concat_cons k path (leaf_at_path _ _ _ Hleaf)).
      now rewrite !append_assoc.
    + exists [k], v. split; [now apply leaf_here|].
      destruct v; try discriminate; exact Hc.
  - intros (path & leaf & Hleaf & ->). right.
    inversion Hleaf as [d' k v Hin Hd|d' k v path' x Hin Hbelow]; subst.
    + exists k, leaf. split; [assumption|].
      unfold contributes. destruct leaf; try discriminate; reflexivity.
    + exists k, v. split; [assumption|].
      unfold contributes. destruct (String.eqb_spec par ""); [contradiction|].
      destruct v; try (inversion Hbelow; fail).
      apply (IH (k, VDict d0) Hin); [apply append_not_empty|].
      exists path', leaf. split; [assumption|].
      rewrite (concat_cons k path' (leaf_at_path _ _ _ Hbelow)).
      now rewrite !append_assoc.
Qed.

(** X14.  When every value at the root is a dictionary under a non-empty
    key, as in the labels of [augment_track], the keys of the flattened
    mapping are exactly the dot-joined paths from the root to the leaves. *)
Lemma flatten_labels_keys (x : dict) (key : string) :
  (forall k v, In (k, v) x -> k <> "" /\ is_dict v = true) ->
  (In key (Dict.keys (flatten_labels x))
   <-> exists path leaf,
         leaf_at (VDict x) path leaf /\ key = String.concat "." path).
Proof.
  intros Hroot. unfold flatten_labels. rewrite flatten_fold, flatten_fold_keys.
  split.
  - intros [[]|(k & v & Hin & Hc)].
    destruct (Hroot k v Hin) as [Hk Hd]. destruct v; try discriminate.
    unfold contributes in Hc.
    change (In key (Dict.keys (flatten_value (VDict d) k "."))) in Hc.
    apply flatten_value_keys in Hc as (path & leaf & Hleaf & ->); [|assumption].
    exists (k :: path), leaf. split; [now apply (leaf_below x k (VDict d))|].
    now rewrite (concat_cons k path (leaf_at_path _ _ _ Hleaf)).
  - intros (path & leaf & Hleaf & ->). right.
    inversion Hleaf as [d' k v Hin Hd|d' k v path' x' Hin Hbelow]; subst.
    + destruct (Hroot k leaf Hin) as [_ Hd']. congruence.
    + exists k, v. split; [assumption|].
      destruct (Hroot k v Hin) as [Hk Hd]. destruct v; try discriminate.
      unfold contributes.
      change (In (String.concat "." (k :: path'))
                 (Dict.keys (flatten_value (VDict d) k "."))).
      apply flatten_value_keys; [assumption|].
      exists path', leaf. split; [assumption|].
      now rewrite (concat_cons k path' (leaf_at_path _ _ _ Hbelow)).
Qed.

(** ** [feature_pipeline] *)

Lemma mean_axis0_length a : List.length (mean_axis0 a) = shape1 a.
Proof. unfold mean_axis0. now rewrite List.length_map, List.length_seq. Qed.

Lemma feature_pipeline_frames (L : Librosa) (arr : list Q) :
  List.length (feature_pipeline L arr) = n_frames (List.length arr).
Proof.
  unfold feature_pipeline. rewrite mean_axis0_length.
  pose proof (mfcc_shape L arr 44100 26) as Hs. unfold shape in Hs.
  now injection Hs.
Qed.

(** C1.  The vector returned by [feature_pipeline] has one entry per frame
    of the waveform, not one per coefficient: the mean is taken over axis 0,
    the axis of the 26 coefficients, so the length follows the duration. *)
Theorem feature_pipeline_length_is_frame_count (L : Librosa) (arr : list Q) :
  List.length (feature_pipeline L arr) = n_frames (List.length arr)
  /\ shape0 (mfcc L arr 44100 26) = 26%nat.
Proof.
  split; [apply feature_pipeline_frames|].
  pose proof (mfcc_shape L arr 44100 26) as Hs. unfold shape in Hs.
  now injection Hs.
Qed.

(** Waveforms of 1024 and of 4096 samples give vectors of 3 and of 9
    entries, whatever the extractor. *)
Example feature_pipeline_durations (L : Librosa) :
  List.length (feature_pipeline L (repeat 0%Q 1024)) = 3%nat /\
  List.length (feature_pipeline L (repeat 0%Q 4096)) = 9%nat.
Proof.
  rewrite !feature_pipeline_frames, !repeat_length.
  split; reflexivity.
Qed.

(** ** [rand] *)

Lemma Qltb_true p q : Qltb p q = true <-> (p < q)%Q.
Proof.
  unfold Qltb. rewrite negb_true_iff, <- not_true_iff_false, Qle_bool_iff.
  split; [apply Qnot_le_lt | apply Qlt_not_le].
Qed.

Lemma Qltb_false p q : Qltb p q = false <-> (q <= p)%Q.
Proof.
  unfold Qltb. rewrite negb_false_iff, Qle_bool_iff. tauto.
Qed.

Lemma integral_inject z : integral (inject_Z z) = inr z.
Proof.
  unfold integral. rewrite Qfloor_Z.
  now rewrite (proj2 (Qeq_bool_iff _ _) (Qeq_refl _)).
Qed.

Lemma integral_succ z : integral (inject_Z z + 1) = inr (z + 1).
Proof.
  unfold integral.
  assert (E : (inject_Z z + 1 == inject_Z (z + 1))%Q)
    by (rewrite inject_Z_plus; reflexivity).
  assert (F : Qfloor (inject_Z z + 1) = z + 1)
    by (rewrite (Qfloor_comp _ _ E); apply Qfloor_Z).
  rewrite F. rewrite (proj2 (Qeq_bool_iff _ _)); [reflexivity|].
  now rewrite E.
Qed.

Section RandProperties.
Context {R : Random}.

Lemma uniform_between (p q : Q) (x y : value) (w : world R) :
  num x = Some p -> num y = Some q ->
  exists v w', uniform x y w = (inr (VFloat v), w') /\
               ((p <= v /\ v <= q) \/ (q <= v /\ v <= p))%Q.
Proof.
  intros Hx Hy. unfold uniform. rewrite Hx, Hy.
  unfold bind, draw_random, ret.
  pose proof (random_random_range R (rng w)) as [H0 H1].
  destruct (random_random R (rng w)) as [r g]; simpl in *.
  eexists; eexists; split; [reflexivity|].
  destruct (Qlt_le_dec q p) as [Hqp|Hpq]; [right|left].
  - assert (0 <= (p - q) * r)%Q by (apply Qmult_le_0_compat; lra).
    assert (0 <= (p - q) * (1 - r))%Q by (apply Qmult_le_0_compat; lra).
    split; lra.
  - assert (0 <= (q - p) * r)%Q by (apply Qmult_le_0_compat; lra).
    assert (0 <= (q - p) * (1 - r))%Q by (apply Qmult_le_0_compat; lra).
    split; lra.
Qed.

Lemma randint_between (a b : Z) (w : world R) :
  a <= b ->
  exists k w', randint (VInt a) (VInt b) w = (inr (VInt k), w') /\ a <= k <= b.
Proof.
  intros Hab. unfold randint, randrange, bind, lift, draw_below, ret; simpl.
  rewrite integral_inject, integral_succ.
  destruct (Z.ltb_spec 0 (b + 1 - a)) as [Hw|]; [|lia].
  pose proof (randbelow_range R (b + 1 - a) (rng w) Hw) as Hr.
  destruct (randbelow R (b + 1 - a) (rng w)) as [r g]; simpl in *.
  eexists; eexists; split; [reflexivity|lia].
Qed.

Lemma randint_empty_range (a b : Z) (w : world R) :
  b < a -> randint (VInt a) (VInt b) w = (inl ValueError, w).
Proof.
  intros Hab. unfold randint, randrange, bind, lift, raise; simpl.
  rewrite integral_inject, integral_succ.
  destruct (Z.ltb_spec 0 (b + 1 - a)); [lia|reflexivity].
Qed.

Lemma rand_branch (x y : value) (p q : Q) (w : world R) :
  num x = Some p -> num y = Some q ->
  rand x y w = if (Qltb p 1 && Qltb q 1)%bool then uniform x y w else randint x y w.
Proof.
  intros Hx Hy. unfold rand, bind, lift, py_lt_one. rewrite Hx, Hy.
  now destruct (Qltb p 1 && Qltb q 1)%bool.
Qed.

End RandProperties.

(** X8.  What [rand] does deliver: when both bounds are below 1, a float
    in the closed interval between them, in either order; otherwise, when
    both bounds are integers with [x <= y], an integer of the inclusive
    range. *)
Theorem rand_range (R : Random) (x y : value) (p q : Q) (w : world R) :
  num x = Some p -> num y = Some q ->
  ((p < 1 /\ q < 1)%Q ->
   exists v w', rand x y w = (inr (VFloat v), w') /\
                ((p <= v /\ v <= q) \/ (q <= v /\ v <= p))%Q)
  /\
  (~ (p < 1 /\ q < 1)%Q ->
   forall a b, x = VInt a -> y = VInt b -> a <= b ->
   exists k w', rand x y w = (inr (VInt k), w') /\ a <= k <= b).
Proof.
  intros Hx Hy. rewrite (rand_branch x y p q w Hx Hy). split.
  - intros [Hp Hq].
    rewrite (proj2 (Qltb_true p 1) Hp), (proj2 (Qltb_true q 1) Hq); simpl.
    now apply uniform_between.
  - intros Hnot a b -> -> Hab.
    destruct (Qltb p 1 && Qltb q 1)%bool eqn:E.
    + apply andb_true_iff in E as [Hp Hq].
      exfalso; apply Hnot; split; now apply Qltb_true.
    + now apply randint_between.
Qed.

Lemma rand_range_witness :
  (exists v w', rand (VFloat (1 # 4)) (VFloat (3 # 4)) (Script.start [500%nat])
                = (inr (VFloat v), w') /\
                ((1 # 4 <= v /\ v <= 3 # 4) \/ (3 # 4 <= v /\ v <= 1 # 4))%Q)
  /\
  (exists k w', rand (VInt 2) (VInt 5) (Script.start [7%nat]) = (inr (VInt k), w')
                /\ 2 <= k <= 5).
Proof.
  split.
  - apply (proj1 (rand_range Script.generator (VFloat (1 # 4)) (VFloat (3 # 4))
                    (1 # 4) (3 # 4) (Script.start [500%nat]) eq_refl eq_refl)).
    split; reflexivity.
  - refine (proj2 (rand_range Script.generator (VInt 2) (VInt 5)
                     (inject_Z 2) (inject_Z 5) (Script.start [7%nat]) eq_refl eq_refl)
              _ 2 5 eq_refl eq_refl _).
    + intros [H _]; discriminate H.
    + lia.
Defined.

(** C3.  With a float bound at or above the threshold the integer branch
    is taken and [random.randint] refuses the bound: for the bounds 0.5 and
    2, which pass the check [upper > lower] of the caller, [rand] raises
    instead of returning 1 or 2. *)
Theorem rand_float_bound_raises (R : Random) (w : world R) :
  rand (VFloat (1 # 2)) (VInt 2) w = (inl ValueError, w)
  /\ py_gt (VInt 2) (VFloat (1 # 2)) = inr true.
Proof. split; reflexivity. Qed.

(** The same branch with integer bounds in the wrong order. *)
Example rand_reversed_integers (R : Random) (w : world R) :
  rand (VInt 5) (VInt 3) w = (inl ValueError, w).
Proof.
  rewrite (rand_branch (VInt 5) (VInt 3) (inject_Z 5) (inject_Z 3) w eq_refl eq_refl).
  apply randint_empty_range; lia.
Qed.

(** ** [pad] *)

Lemma max_by_first_least best l : (fst best <= fst (max_by_first best l))%nat.
Proof.
  revert best; induction l as [|s l IH]; intros best; simpl; [lia|].
  destruct (Nat.ltb_spec (fst best) (fst s)).
  - specialize (IH s); lia.
  - apply IH.
Qed.

Lemma max_by_first_bounds best l s :
  In s l -> (fst s <= fst (max_by_first best l))%nat.
Proof.
  revert best; induction l as [|s' l IH]; intros best; simpl; [tauto|].
  intros [->|Hin].
  - destruct (Nat.ltb_spec (fst best) (fst s)).
    + apply max_by_first_least.
    + pose proof (max_by_first_least best l); lia.
  - destruct (Nat.ltb_spec (fst best) (fst s')); now apply IH.
Qed.

Lemma py_max_by_first_bounds l m s :
  py_max_by_first l = inr m -> In s l -> (fst s <= fst m)%nat.
Proof.
  destruct l as [|s0 l]; simpl; [discriminate|].
  intros [= <-] [->|Hin].
  - apply max_by_first_least.
  - now apply max_by_first_bounds.
Qed.

Lemma nth_error_map_seq {A} (f : nat -> A) n i :
  (i < n)%nat -> nth_error (map f (seq 0 n)) i = Some (f i).
Proof.
  intros Hi. rewrite nth_error_map, nth_error_seq.
  destruct (Nat.ltb_spec i n); [reflexivity|lia].
Qed.

Lemma item_entry a i j :
  wf_array a -> (i < shape0 a)%nat -> (j < shape1 a)%nat ->
  item a i j = Some (entry a i j).
Proof.
  intros [Hrows Hcols] Hi Hj. unfold item, entry.
  destruct (nth_error (data a) i) as [row|] eqn:E.
  - rewrite (nth_error_nth _ _ [] E).
    assert (Hlen : List.length row = shape1 a).
    { rewrite Forall_forall in Hcols. apply Hcols. eapply nth_error_In; eauto. }
    apply nth_error_nth'. lia.
  - apply nth_error_None in E. lia.
Qed.

Lemma entry_zeros s i j : entry (zeros s) i j = 0%Q.
Proof.
  unfold entry, zeros; simpl.
  destruct (Nat.ltb_spec i (fst s)) as [Hi|Hi].
  - rewrite (nth_indep (repeat (repeat 0%Q (snd s)) (fst s)) []
               (repeat 0%Q (snd s))) by now rewrite repeat_length.
    rewrite nth_repeat. apply nth_repeat.
  - rewrite (nth_overflow (repeat (repeat 0%Q (snd s)) (fst s)) [])
      by now rewrite repeat_length.
    now destruct j.
Qed.

Lemma padder_fits a m0 m1 :
  wf_array a -> (shape0 a <= m0)%nat -> (shape1 a <= m1)%nat ->
  exists out, padder a (m0, m1) = inr out /\ shape out = (m0, m1)
              /\ wf_array out /\ padded_slice a out.
Proof.
  intros Hwf H0 H1. unfold padder, assign_corner.
  change (shape0 (zeros (m0, m1))) with m0. change (shape1 (zeros (m0, m1))) with m1.
  rewrite (Nat.min_l _ _ H0), (Nat.min_l _ _ H1), !Nat.eqb_refl. simpl.
  eexists; split; [reflexivity|]. split; [reflexivity|]. split; [|split].
  - split; simpl.
    + now rewrite List.length_map, List.length_seq.
    + apply Forall_forall; intros row Hrow.
      apply in_map_iff in Hrow as (i & <- & _).
      now rewrite List.length_map, List.length_seq.
  - intros i j Hi Hj. unfold item at 1; simpl.
    rewrite nth_error_map_seq by lia. rewrite nth_error_map_seq by lia.
    destruct (Nat.ltb_spec i (shape0 a)); [|lia].
    destruct (Nat.ltb_spec j (shape1 a)); [|lia].
    simpl. symmetry. now apply item_entry.
  - simpl. intros i j Hi Hj Hout. unfold item; simpl.
    rewrite nth_error_map_seq by lia. rewrite nth_error_map_seq by lia.
    destruct (Nat.ltb_spec i (shape0 a)); destruct (Nat.ltb_spec j (shape1 a));
      simpl; rewrite ?entry_zeros; try reflexivity. lia.
Qed.

Lemma map_padder_fits l m0 m1 :
  Forall wf_array l ->
  Forall (fun a => (shape0 a <= m0)%nat /\ (shape1 a <= m1)%nat) l ->
  exists batch, map_result (fun x => padder x (m0, m1)) l = inr batch
                /\ Forall2 padded_slice l batch
                /\ Forall (fun out => shape out = (m0, m1)) batch.
Proof.
  induction l as [|a l IH]; intros Hwf Hfit.
  - exists []; simpl; auto.
  - inversion Hwf as [|? ? Ha Hl]; inversion Hfit as [|? ? [Ha0 Ha1] Hfl]; subst.
    destruct (padder_fits a m0 m1 Ha Ha0 Ha1) as (out & Hout & Hs & _ & Hp).
    destruct (IH Hl Hfl) as (batch & Hb & Hall & Hshapes).
    exists (out :: batch). cbn [map_result]. rewrite Hout, Hb. auto.
Qed.

(** C2, amended.  For a list of well-formed arrays none of which is wider
    than the chosen maximum shape (the first shape among those with the
    largest first dimension), [pad] returns one slice per array, each of
    the maximum shape, equal to its original on the top-left submatrix and
    zero elsewhere. *)
Theorem pad_preserves_and_zero_fills (l : list array2) (m : nat * nat) :
  Forall wf_array l ->
  py_max_by_first (map shape l) = inr m ->
  Forall (fun a => (shape1 a <= snd m)%nat) l ->
  exists batch, pad l = inr batch
                /\ Forall2 padded_slice l batch
                /\ Forall (fun out => shape out = m) batch.
Proof.
  intros Hwf Hmax Hwidth. unfold pad. rewrite Hmax. destruct m as [m0 m1].
  apply map_padder_fits; auto.
  rewrite Forall_forall in *. intros a Ha. split; [|now apply Hwidth].
  apply (py_max_by_first_bounds (map shape l) (m0, m1) (shape a) Hmax).
  now apply in_map.
Qed.

Lemma pad_preserves_and_zero_fills_witness :
  exists batch, pad [PadSample.short; PadSample.tall] = inr batch
                /\ Forall2 padded_slice [PadSample.short; PadSample.tall] batch
                /\ Forall (fun out => shape out = (2%nat, 1%nat)) batch.
Proof.
  apply (pad_preserves_and_zero_fills [PadSample.short; PadSample.tall] (2%nat, 1%nat)).
  - repeat constructor.
  - reflexivity.
  - repeat constructor.
Defined.

(** C2 as stated fails: the maximum is chosen by the first dimension alone,
    so for a 2x1 array followed by a 1x2 array the grid is 2x1 and copying
    the second array into it raises; no stacked array is returned. *)
Lemma pad_counterexample :
  ~ exists batch, pad [PadSample.tall; PadSample.wide] = inr batch
                  /\ Forall2 padded_slice [PadSample.tall; PadSample.wide] batch.
Proof.
  intros (batch & H & _). vm_compute in H. discriminate H.
Qed.

(** ** The effect chain *)

Lemma set_all_keys {A} (v : A) ks d :
  exists suffix,
    Dict.keys (set_all v ks d) = (Dict.keys d ++ suffix)%list
    /\ incl suffix ks /\ incl ks (Dict.keys d ++ suffix).
Proof.
  revert d; induction ks as [|k ks IH]; intros d; simpl.
  - exists []. rewrite app_nil_r. split; [reflexivity|]. split; intros x [].
  - destruct (IH (Dict.set k v d)) as (suffix & Hk & Hin & Hall).
    destruct (keys_set_cases k v d) as [Hsame|[Hnot Happ]].
    + exists suffix. rewrite Hk, Hsame. split; [reflexivity|]. split.
      * now apply incl_tl.
      * rewrite Hsame in Hall. intros x [<-|Hx]; [|now apply Hall].
        apply in_or_app; left. rewrite <- Hsame. apply in_keys_set.
    + exists (k :: suffix). rewrite Hk, Happ, <- app_assoc. simpl.
      split; [reflexivity|]. split.
      * intros x [<-|Hx]; [now left | right; now apply Hin].
      * rewrite Happ, <- app_assoc in Hall. simpl in Hall.
        intros x [<-|Hx]; [|now apply Hall].
        apply in_or_app; right; now left.
Qed.

Lemma put_back_keys {A} (effects d : list (string * A)) :
  incl (Dict.keys effects) (Dict.keys d) ->
  Dict.keys (put_back effects d) = Dict.keys d.
Proof.
  revert d; induction effects as [|[k v] effects IH]; intros d Hin; simpl.
  - reflexivity.
  - assert (Hk : In k (Dict.keys d)) by (apply Hin; now left).
    rewrite IH; rewrite (keys_set_in k v d Hk); auto.
    intros x Hx. apply Hin. now right.
Qed.

Lemma chain_order_keys (effects : dict) :
  exists middle,
    Dict.keys (Dict.fromkeys (chain_order effects) VNone)
    = ("overdrive" :: middle ++ ["reverb"])%list
    /\ incl (Dict.keys effects) ("overdrive" :: middle ++ ["reverb"]).
Proof.
  unfold Dict.fromkeys, chain_order. simpl.
  set (others := filter (fun f => negb (Dict.mem f ["reverb"; "overdrive"]))
                        (Dict.keys effects)).
  change (fold_left (fun acc k => Dict.set k VNone acc) (others ++ ["reverb"])
            [("overdrive", VNone)])
    with (set_all VNone (others ++ ["reverb"])%list [("overdrive", VNone)]).
  unfold set_all. rewrite fold_left_app. simpl.
  destruct (set_all_keys VNone others [("overdrive", VNone)])
    as (middle & Hk & Hin & Hall).
  unfold set_all in Hk. simpl in Hk.
  set (d := fold_left (fun acc k => Dict.set k VNone acc) others
              [("overdrive", VNone)]) in *.
  assert (Hfresh : ~ In "reverb" (Dict.keys d)).
  { rewrite Hk. intros [E|Hm]; [discriminate|].
    apply Hin in Hm. unfold others in Hm. apply filter_In in Hm as [_ Hm].
    discriminate Hm. }
  exists middle. rewrite (set_fresh _ _ _ Hfresh). unfold Dict.keys at 1.
  rewrite map_app. fold (Dict.keys d). rewrite Hk. simpl. split; [reflexivity|].
  intros k Hkin.
  destruct (string_dec k "overdrive") as [->|Hov]; [now left|].
  destruct (string_dec k "reverb") as [->|Hrv].
  - right. apply in_or_app. right. now left.
  - assert (Ho : In k others).
    { unfold others. apply filter_In. split; [assumption|].
      simpl. destruct (String.eqb_spec k "reverb"); [contradiction|].
      destruct (String.eqb_spec k "overdrive"); [contradiction|]. reflexivity. }
    apply Hall in Ho. simpl in Ho. destruct Ho as [E|Ho]; [congruence|].
    right. apply in_or_app. now left.
Qed.

Lemma ordered_effects_keys (effects : dict) :
  exists middle,
    Dict.keys (ordered_effects effects) = ("overdrive" :: middle ++ ["reverb"])%list.
Proof.
  destruct (chain_order_keys effects) as (middle & Hk & Hin).
  exists middle. unfold ordered_effects.
  change (fold_left (fun acc kv => Dict.set (fst kv) (snd kv) acc) effects
            (Dict.fromkeys (chain_order effects) VNone))
    with (put_back effects (Dict.fromkeys (chain_order effects) VNone)).
  rewrite put_back_keys; rewrite Hk; auto.
Qed.

Lemma effect_chain_inv (X : Sox) (cfg : augmentation_config) (c : dict) :
  effect_chain X cfg = inr c ->
  c = ordered_effects (reduce_to_active (cfg_effects cfg) (cfg_active cfg)).
Proof.
  unfold effect_chain, validate_reduce_fx.
  destruct (forallb (arsenal X) (Dict.keys (cfg_effects cfg))); simpl; congruence.
Qed.

(** C5.  Whatever the order of the configured mapping and of the active
    list, the keys of the chain that [augment_data] builds start with
    ["overdrive"] and end with ["reverb"]. *)
Theorem effect_chain_overdrive_first_reverb_last
    (X : Sox) (cfg : augmentation_config) (c : dict) :
  effect_chain X cfg = inr c ->
  exists middle, Dict.keys c = ("overdrive" :: middle ++ ["reverb"])%list.
Proof.
  intros H. rewrite (effect_chain_inv X cfg c H). apply ordered_effects_keys.
Qed.

Lemma effect_chain_overdrive_first_reverb_last_witness :
  exists middle,
    Dict.keys (ordered_effects (reduce_to_active (cfg_effects ChainSample.config)
                                                 (cfg_active ChainSample.config)))
    = ("overdrive" :: middle ++ ["reverb"])%list.
Proof.
  apply (effect_chain_overdrive_first_reverb_last Excerpt.transformer ChainSample.config).
  reflexivity.
Defined.

(** ** Loops that raise *)

Lemma bind_raises {S A B} (c : M S A) (k : A -> M S B) :
  raises c -> raises (bind c k).
Proof.
  intros Hc s. destruct (Hc s) as (e & s' & E). exists e, s'.
  unfold bind. now rewrite E.
Qed.

Lemma bind_raises_later {S A B} (c : M S A) (k : A -> M S B) :
  (forall x, raises (k x)) -> raises (bind c k).
Proof.
  intros Hk s. unfold bind. destruct (c s) as [[e|x] s'].
  - now exists e, s'.
  - apply Hk.
Qed.

Lemma for_each_raises {S A B} (body : B -> A -> M S B) (l : list A) (x : A) :
  In x l -> (forall acc, raises (body acc x)) ->
  forall acc, raises (for_each body l acc).
Proof.
  induction l as [|a l IH]; intros Hin Hx acc; simpl; [contradiction|].
  destruct Hin as [->|Hin].
  - apply bind_raises, Hx.
  - apply bind_raises_later. intros acc'. now apply IH.
Qed.

(** ** Effects that are always applied *)

Section TrackProperties.
Context {R : Random} (X : Sox) (L : Librosa).

Lemma skipped_never exercise sustain effect (w : world R) :
  may_skip exercise sustain effect = false ->
  skipped exercise sustain effect w = (inr false, w).
Proof. unfold may_skip, skipped. now intros ->. Qed.

Lemma apply_effect_none_raises exercise sustain acc effect :
  may_skip exercise sustain effect = false ->
  raises (apply_effect (R := R) X exercise sustain acc (effect, VNone)).
Proof.
  intros Hs w. unfold apply_effect. destruct acc as [labels fx].
  unfold bind at 1. rewrite (skipped_never _ _ _ w Hs).
  unfold bind, lift, raise. destruct (signature X effect); eauto.
Qed.

Lemma apply_effect_none_attribute_error exercise sustain acc effect d (w : world R) :
  may_skip exercise sustain effect = false ->
  signature X effect = inr d ->
  apply_effect X exercise sustain acc (effect, VNone) w = (inl AttributeError, w).
Proof.
  intros Hs Hd. unfold apply_effect. destruct acc as [labels fx].
  unfold bind at 1. rewrite (skipped_never _ _ _ w Hs).
  unfold bind, lift, raise. now rewrite Hd.
Qed.

Lemma augment_track_raises file n effects exercise sustain write item :
  In item effects ->
  (forall acc, raises (apply_effect (R := R) X exercise sustain acc item)) ->
  raises (augment_track (R := R) X L file n effects exercise sustain write).
Proof.
  intros Hin Hitem. unfold augment_track. apply bind_raises.
  unfold augment_effects. now apply (for_each_raises _ effects item).
Qed.

End TrackProperties.

(** ** A sustained effect outside the active set *)

Lemma reduce_to_active_keys (effects : dict) (active : list string) k :
  In k (Dict.keys (reduce_to_active effects active)) -> In k active.
Proof.
  unfold reduce_to_active.
  assert (G : forall acc,
             (forall k, In k (Dict.keys acc) -> In k active) ->
             forall k,
               In k (Dict.keys
                       (fold_left (fun acc kv =>
                                     if Dict.mem (fst kv) active
                                     then Dict.set (fst kv) (snd kv) acc else acc)
                                  effects acc)) -> In k active).
  { induction effects as [|[k0 v0] effects IH]; intros acc Hacc k'; simpl; [apply Hacc|].
    apply IH. destruct (Dict.mem k0 active) eqn:E; [|assumption].
    intros k1 Hk1. destruct (keys_set_cases k0 v0 acc) as [Hs|[_ Hs]];
      rewrite Hs in Hk1; [now apply Hacc|].
    apply in_app_or in Hk1 as [Hk1|[<-|[]]]; [now apply Hacc|now apply mem_In]. }
  apply G. intros k' [].
Qed.

Lemma lookup_set_all {A} (v : A) ks d k :
  In k ks -> Dict.lookup k (set_all v ks d) = Some v.
Proof.
  revert d; induction ks as [|k0 ks IH]; intros d Hin; simpl; [contradiction|].
  destruct (in_dec string_dec k ks) as [Hlater|Hnot]; [now apply IH|].
  destruct Hin as [->|Hin]; [|contradiction].
  clear IH. generalize (lookup_set_same k v d). generalize (Dict.set k v d).
  induction ks as [|k1 ks IH]; intros d' Hd'; simpl; [assumption|].
  apply IH.
  - intros Hin; apply Hnot; now right.
  - rewrite lookup_set_other; [assumption|]. intros ->. apply Hnot; now left.
Qed.

Lemma lookup_put_back {A} (effects d : list (string * A)) k :
  ~ In k (Dict.keys effects) ->
  Dict.lookup k (put_back effects d) = Dict.lookup k d.
Proof.
  revert d; induction effects as [|[k0 v0] effects IH]; intros d Hnot; simpl.
  - reflexivity.
  - rewrite IH.
    + apply lookup_set_other. intros ->. apply Hnot; now left.
    + intros Hin; apply Hnot; now right.
Qed.

Lemma ordered_effects_missing (effects : dict) (name : string) :
  name = "overdrive" \/ name = "reverb" ->
  ~ In name (Dict.keys effects) ->
  Dict.lookup name (ordered_effects effects) = Some VNone.
Proof.
  intros Hname Hnot. unfold ordered_effects.
  change (Dict.lookup name (put_back effects (set_all VNone (chain_order effects) []))
          = Some VNone).
  rewrite lookup_put_back by assumption.
  apply lookup_set_all. unfold chain_order.
  destruct Hname as [->| ->]; simpl; [now left|].
  right. apply in_or_app. right. now left.
Qed.

Lemma lookup_In {A} k (v : A) d : Dict.lookup k d = Some v -> In (k, v) d.
Proof.
  induction d as [|[k' v'] d IH]; simpl; [discriminate|].
  destruct (String.eqb_spec k k').
  - intros [= ->]. subst. now left.
  - intros H. right. now apply IH.
Qed.

(** C10, amended.  When ["overdrive"] or ["reverb"] is not in the active
    list, the chain still has it as a key, bound to [None], and every call of
    [augment_track] on that chain that cannot skip the effect (the policy is
    not classification, or the name is in the sustain set, as it is by
    default) raises instead of returning; the exception at that effect is the
    [AttributeError] of iterating [None]. *)
Theorem missing_sustained_effect_breaks_chain
    (R : Random) (X : Sox) (L : Librosa) (cfg : augmentation_config)
    (c : dict) (name : string) :
  effect_chain X cfg = inr c ->
  name = "overdrive" \/ name = "reverb" ->
  Dict.mem name (cfg_active cfg) = false ->
  Dict.lookup name c = Some VNone
  /\ (forall file n exercise sustain write,
        may_skip exercise sustain name = false ->
        raises (augment_track (R := R) X L file n c exercise sustain write))
  /\ (forall exercise sustain acc d (w : world R),
        may_skip exercise sustain name = false ->
        signature X name = inr d ->
        apply_effect X exercise sustain acc (name, VNone) w = (inl AttributeError, w)).
Proof.
  intros Hc Hname Hactive.
  assert (Hlook : Dict.lookup name c = Some VNone).
  { rewrite (effect_chain_inv X cfg c Hc). apply ordered_effects_missing; auto.
    intros Hin. apply reduce_to_active_keys in Hin.
    apply mem_false in Hactive. contradiction. }
  split; [assumption|]. split.
  - intros file n exercise sustain write Hskip.
    apply (augment_track_raises X L file n c exercise sustain write (name, VNone)).
    + now apply lookup_In.
    + intros acc. now apply apply_effect_none_raises.
  - intros. eapply apply_effect_none_attribute_error; eauto.
Qed.

Lemma missing_sustained_effect_breaks_chain_witness :
  Dict.lookup "overdrive" MissingSample.chain = Some VNone
  /\ raises (augment_track (R := Script.generator) Excerpt.transformer Excerpt.extractor
               "data/strat/C.wav" 0 MissingSample.chain "regression"
               ["overdrive"; "reverb"] None).
Proof.
  destruct (missing_sustained_effect_breaks_chain Script.generator
              Excerpt.transformer Excerpt.extractor MissingSample.config
              MissingSample.chain "overdrive" eq_refl (or_introl eq_refl) eq_refl)
    as (Hlook & Hraise & _).
  split; [exact Hlook|].
  exact (Hraise "data/strat/C.wav" 0%nat "regression" ["overdrive"; "reverb"] None eq_refl).
Defined.

(** C10 as stated fails: under the classification policy with an empty
    sustain set the coin can skip both effects bound to [None], and the call
    returns. *)
Lemma missing_sustained_effect_counterexample :
  effect_chain Excerpt.transformer MissingSample.config = inr MissingSample.chain
  /\ Dict.mem "overdrive" (cfg_active MissingSample.config) = false
  /\ exists labels features,
       fst (augment_track Excerpt.transformer Excerpt.extractor
              "data/strat/C.wav" 0 MissingSample.chain "classification" [] None
              (Script.start [1; 1; 1]%nat))
       = inr (labels, features).
Proof.
  split; [reflexivity|]. split; [reflexivity|].
  eexists; eexists. vm_compute. reflexivity.
Qed.

(** ** Bounds of a random parameter *)

Lemma py_gt_num a b p q :
  num a = Some p -> num b = Some q -> py_gt a b = inr (Qltb q p).
Proof.
  intros Ha Hb. destruct a; simpl in Ha; try discriminate;
    simpl; rewrite Hb; now injection Ha as <-.
Qed.

Lemma resolve_param_bad_bounds {R : Random} f_defaults effect used param policy
    (u l : Q) (w : world R) :
  py_get "state" policy = VStr "random" ->
  num (py_get "upper" policy) = Some u ->
  num (py_get "lower" policy) = Some l ->
  (u <= l)%Q ->
  resolve_param f_defaults effect used (param, VDict policy) w
  = (inl (bounds_failure (py_get param f_defaults) effect param), w).
Proof.
  intros Hstate Hu Hl Hle. unfold resolve_param. rewrite Hstate.
  change (is_str (VStr "random") "constant") with false.
  change (is_str (VStr "random") "random") with true. cbv iota.
  assert (Hgt : py_gt (py_get "upper" policy) (py_get "lower" policy) = inr false).
  { rewrite (py_gt_num _ _ u l Hu Hl). f_equal. now apply Qltb_false. }
  unfold bounds_failure.
  destruct (py_get param f_defaults); unfold bind, lift, raise; rewrite ?Hgt;
    reflexivity.
Qed.

(** C7, amended.  For a parameter in state ["random"] whose numeric upper
    bound is not strictly above its lower bound, resolving the parameter
    raises and realises no value: the [AssertionError] with the bounds
    message when the library default of the parameter is not a list, the
    [TypeError] of list-valued randomisation when it is.  A call of
    [augment_track] that cannot skip the effect (the policy is not
    classification, or the effect is sustained) therefore raises. *)
Theorem random_bounds_violation_raises
    (R : Random) (X : Sox) (L : Librosa)
    (effect param : string) (policy : dict) (u l : Q) :
  py_get "state" policy = VStr "random" ->
  num (py_get "upper" policy) = Some u ->
  num (py_get "lower" policy) = Some l ->
  (u <= l)%Q ->
  (forall f_defaults used (w : world R),
      resolve_param f_defaults effect used (param, VDict policy) w
      = (inl (bounds_failure (py_get param f_defaults) effect param), w))
  /\
  (forall file n effects params exercise sustain write,
      In (effect, VDict params) effects ->
      In (param, VDict policy) params ->
      may_skip exercise sustain effect = false ->
      raises (augment_track (R := R) X L file n effects exercise sustain write)).
Proof.
  intros Hstate Hu Hl Hle. split.
  - intros. now apply (resolve_param_bad_bounds _ _ _ _ _ u l).
  - intros file n effects params exercise sustain write Heff Hpar Hskip.
    apply (augment_track_raises X L file n effects exercise sustain write
             (effect, VDict params) Heff).
    intros [labels fx] w. unfold apply_effect.
    unfold bind at 1. rewrite (skipped_never _ _ _ w Hskip).
    unfold bind at 1, lift. destruct (signature X effect) as [e|f_defaults]; eauto.
    apply bind_raises.
    apply (for_each_raises _ params (param, VDict policy) Hpar).
    intros used w'. eexists; eexists.
    now apply (resolve_param_bad_bounds _ _ _ _ _ u l).
Qed.

Lemma random_bounds_violation_raises_witness :
  resolve_param (R := Script.generator) [("gain_db", VFloat 20); ("colour", VFloat 20)]
    "overdrive" [] ("gain_db", VDict BoundsSample.policy) (Script.start [])
  = (inl (AssertionError
            "Upper bound for overdrive.gain_db must be greater than its lower bound"),
     Script.start [])
  /\ raises (augment_track (R := Script.generator) Excerpt.transformer Excerpt.extractor
               "data/strat/C.wav" 0 (BoundsSample.effects "overdrive" "gain_db")
               "regression" ["overdrive"; "reverb"] None).
Proof.
  destruct (random_bounds_violation_raises Script.generator Excerpt.transformer
              Excerpt.extractor "overdrive" "gain_db" BoundsSample.policy
              (inject_Z 3) (inject_Z 5) eq_refl eq_refl eq_refl)
    as [Hparam Htrack].
  - discriminate.
  - split.
    + exact (Hparam [("gain_db", VFloat 20); ("colour", VFloat 20)] [] (Script.start [])).
    + apply (Htrack "data/strat/C.wav" 0%nat (BoundsSample.effects "overdrive" "gain_db")
               [("gain_db", VDict BoundsSample.policy)] "regression"
               ["overdrive"; "reverb"] None).
      * now left.
      * now left.
      * reflexivity.
Defined.

(** C7 as stated fails twice over.  With the bounds 5 and 3 on the
    parameter [delays] of [echo], whose library default is a list, the call
    raises the [TypeError] of list-valued randomisation, not the assertion;
    and under the classification policy a phaser with the same bounds can be
    skipped by the coin, and the call returns. *)
Lemma random_bounds_counterexample :
  fst (augment_track Excerpt.transformer Excerpt.extractor
         "data/strat/C.wav" 0 (BoundsSample.effects "echo" "delays")
         "regression" ["overdrive"; "reverb"] None (Script.start []))
  = inl TypeError
  /\ exists labels features,
       fst (augment_track Excerpt.transformer Excerpt.extractor
              "data/strat/C.wav" 0 (BoundsSample.effects "phaser" "delay")
              "classification" ["overdrive"; "reverb"] None (Script.start [1%nat]))
       = inr (labels, features).
Proof.
  split; [reflexivity|]. eexists; eexists. vm_compute. reflexivity.
Qed.

(** ** The confirmation prompt *)

Lemma confirm_cases (line : string) :
  match Py.int_of_string line with
  | inl e => confirm line = inl e
  | inr z => if z =? 1 then confirm line = inr tt
             else confirm line = inl (SystemExit "Operation cancelled")
  end.
Proof.
  unfold confirm. destruct (Py.int_of_string line) as [e|z]; [reflexivity|].
  now destruct (z =? 1).
Qed.

(** C8.  At the prompt the answer ["1"] goes on, as does any text that
    [int] reads as 1, and another integer is the orderly exit; but a key that
    is not a number is neither: [int] raises [ValueError] before the
    comparison, and nothing handles it.  In both aborting cases nothing has
    been written. *)
Theorem confirm_letter_key_raises_value_error
    (R : Random) (w : world R) (cfg : augmentation_config) :
  confirm "1" = inr tt
  /\ confirm "01" = inr tt
  /\ confirm "2" = inl (SystemExit "Operation cancelled")
  /\ confirm "q" = inl ValueError
  /\ confirm_write (PromptSample.args "q") cfg w = (inl ValueError, w)
  /\ confirm_write (PromptSample.args "2") cfg w
     = (inl (SystemExit "Operation cancelled"), w)
  /\ augment_data Excerpt.transformer Excerpt.extractor
       (PromptSample.args "q") Sample.config w = (inl ValueError, w).
Proof. repeat split; reflexivity. Qed.

(** ** Determinism in the generator state *)

Section RngOnly.
Context {R : Random}.

Lemma rng_only_ret {A} (x : A) : rng_only (R := R) (ret x).
Proof. intros w1 w2 H; split; [reflexivity | exact H]. Qed.

Lemma rng_only_raise {A} (e : exn) : rng_only (R := R) (A := A) (raise e).
Proof. intros w1 w2 H; split; [reflexivity | exact H]. Qed.

Lemma rng_only_lift {A} (r : result A) : rng_only (R := R) (lift r).
Proof. intros w1 w2 H; split; [reflexivity | exact H]. Qed.

Lemma rng_only_bind {A B} (c : M (world R) A) (k : A -> M (world R) B) :
  rng_only c -> (forall x, rng_only (k x)) -> rng_only (bind c k).
Proof.
  intros Hc Hk w1 w2 H. unfold bind.
  destruct (Hc w1 w2 H) as [Hout Hrng].
  destruct (c w1) as [[e1|x1] s1], (c w2) as [[e2|x2] s2];
    simpl in Hout, Hrng; try discriminate.
  - injection Hout as ->. split; [reflexivity | exact Hrng].
  - injection Hout as ->. now apply Hk.
Qed.

Lemma rng_only_draw_random : rng_only (R := R) draw_random.
Proof.
  intros w1 w2 H. unfold draw_random. rewrite H.
  destruct (random_random R (rng w2)); split; reflexivity.
Qed.

Lemma rng_only_draw_below n : rng_only (R := R) (draw_below n).
Proof.
  intros w1 w2 H. unfold draw_below. rewrite H.
  destruct (randbelow R n (rng w2)); split; reflexivity.
Qed.

Lemma rng_only_for_each {A B} (body : B -> A -> M (world R) B) l :
  (forall acc x, rng_only (body acc x)) ->
  forall acc, rng_only (for_each body l acc).
Proof.
  intros Hbody. induction l as [|x l IH]; intros acc; simpl.
  - apply rng_only_ret.
  - apply rng_only_bind; [apply Hbody | exact IH].
Qed.

Ltac rng_step :=
  repeat match goal with
    | |- rng_only (bind _ _) => apply rng_only_bind; [|intros ?]
    | |- rng_only (ret _) => apply rng_only_ret
    | |- rng_only (raise _) => apply rng_only_raise
    | |- rng_only (lift _) => apply rng_only_lift
    | |- rng_only draw_random => apply rng_only_draw_random
    | |- rng_only (draw_below _) => apply rng_only_draw_below
    | |- rng_only (if ?b then _ else _) => destruct b
    | |- rng_only (match ?o with _ => _ end) => destruct o
    end.

Lemma rng_only_rand x y : rng_only (R := R) (rand x y).
Proof. unfold rand, uniform, randint, randrange. rng_step. Qed.

Lemma rng_only_resolve_param f_defaults effect used item :
  rng_only (R := R) (resolve_param f_defaults effect used item).
Proof.
  unfold resolve_param. destruct item as [param val].
  rng_step; apply rng_only_rand.
Qed.

Lemma rng_only_skipped exercise sustain effect :
  rng_only (R := R) (skipped exercise sustain effect).
Proof. unfold skipped, choice. rng_step. Qed.

Lemma rng_only_apply_effect (X : Sox) exercise sustain acc item :
  rng_only (R := R) (apply_effect X exercise sustain acc item).
Proof.
  unfold apply_effect. destruct acc as [labels fx], item as [effect parameters].
  apply rng_only_bind; [apply rng_only_skipped|]. intros skip.
  rng_step. apply rng_only_for_each. intros; apply rng_only_resolve_param.
Qed.

Lemma rng_only_augment_effects (X : Sox) effects exercise sustain :
  rng_only (R := R) (augment_effects X effects exercise sustain).
Proof.
  unfold augment_effects. apply rng_only_for_each.
  intros; apply rng_only_apply_effect.
Qed.

Lemma for_each_ext {S A B} (f g : B -> A -> M S B) l :
  (forall acc x s, f acc x s = g acc x s) ->
  forall acc s, for_each f l acc s = for_each g l acc s.
Proof.
  intros Hfg. induction l as [|x l IH]; intros acc s; simpl; [reflexivity|].
  unfold bind. rewrite Hfg. destruct (g acc x s) as [[e|acc'] s']; auto.
Qed.

(** Two transformers with the same method table apply effects alike,
    whatever they render. *)
Lemma augment_effects_ext (X1 X2 : Sox) effects exercise sustain (w : world R) :
  (forall e, signature X1 e = signature X2 e) ->
  (forall e used, apply X1 e used = apply X2 e used) ->
  augment_effects X1 effects exercise sustain w
  = augment_effects X2 effects exercise sustain w.
Proof.
  intros Hs Ha. unfold augment_effects. apply for_each_ext.
  intros [labels fx] [effect parameters] s. unfold apply_effect, bind.
  destruct (skipped exercise sustain effect s) as [[e|[|]] s']; try reflexivity.
  unfold lift. rewrite Hs. destruct (signature X2 effect); [reflexivity|].
  destruct parameters; try reflexivity.
  destruct (for_each _ _ _ s') as [[e|used] s'']; [reflexivity|].
  now rewrite Ha.
Qed.

Lemma augment_track_inv (X : Sox) (L : Librosa) file n effects exercise sustain
    write (w w' : world R) labels features :
  augment_track X L file n effects exercise sustain write w
  = (inr (labels, features), w') ->
  exists nested fx w0,
    augment_effects X effects exercise sustain w = (inr (nested, fx), w0)
    /\ labels = Dict.set "group" (VInt (Z.of_nat n)) (flatten_labels nested)
    /\ rng w' = rng w0.
Proof.
  unfold augment_track. unfold bind at 1.
  destruct (augment_effects X effects exercise sustain w) as [[e|[nested fx]] w0];
    [discriminate|].
  intros H. exists nested, fx, w0. split; [reflexivity|].
  unfold bind, lift, ret, record_written in H.
  destruct write as [dir|].
  - destruct (outfile_of dir file n) as [e|outfile]; [discriminate|].
    destruct (build X file (Some outfile) fx); [discriminate|].
    destruct (build X file None fx) as [e|audio]; [discriminate|].
    destruct (load X audio 41000); [discriminate|].
    injection H as <- _ <-. split; reflexivity.
  - destruct (build X file None fx) as [e|audio]; [discriminate|].
    destruct (load X audio 41000); [discriminate|].
    injection H as <- _ <-. split; reflexivity.
Qed.

End RngOnly.

(** C9.  Two runs of [augment_track] that start from the same generator
    state, on the same file, repetition and configuration and with the same
    method table of the transformer, take the same decisions: the effect
    loop ends with the same outcome (the realised parameters of the same
    effects, or the same exception) and the same generator state, whatever
    else differs in the two worlds, in the rendered audio or in the feature
    extractor; and when both runs return, their labels are equal. *)
Theorem augment_track_deterministic
    (R : Random) (X1 X2 : Sox) (L1 L2 : Librosa)
    (file : string) (n : nat) (effects : dict) (exercise : string)
    (sustain : list string) (write1 write2 : option string) (w1 w2 : world R) :
  (forall e, signature X1 e = signature X2 e) ->
  (forall e used, apply X1 e used = apply X2 e used) ->
  rng w1 = rng w2 ->
  (fst (augment_effects X1 effects exercise sustain w1)
   = fst (augment_effects X2 effects exercise sustain w2)
   /\ rng (snd (augment_effects X1 effects exercise sustain w1))
      = rng (snd (augment_effects X2 effects exercise sustain w2)))
  /\
  (forall labels1 features1 w1' labels2 features2 w2',
      augment_track X1 L1 file n effects exercise sustain write1 w1
      = (inr (labels1, features1), w1') ->
      augment_track X2 L2 file n effects exercise sustain write2 w2
      = (inr (labels2, features2), w2') ->
      labels1 = labels2 /\ rng w1' = rng w2').
Proof.
  intros Hs Ha Hrng.
  assert (Hloop :
    fst (augment_effects X1 effects exercise sustain w1)
    = fst (augment_effects X2 effects exercise sustain w2)
    /\ rng (snd (augment_effects X1 effects exercise sustain w1))
       = rng (snd (augment_effects X2 effects exercise sustain w2))).
  { rewrite (augment_effects_ext X1 X2 effects exercise sustain w1 Hs Ha).
    now apply rng_only_augment_effects. }
  split; [exact Hloop|].
  intros labels1 features1 w1' labels2 features2 w2' H1 H2.
  apply augment_track_inv in H1 as (nested1 & fx1 & v1 & E1 & -> & ->).
  apply augment_track_inv in H2 as (nested2 & fx2 & v2 & E2 & -> & ->).
  rewrite E1, E2 in Hloop. simpl in Hloop. destruct Hloop as [Hout Hgen].
  injection Hout as -> _. split; [reflexivity | exact Hgen].
Qed.

(** ** The assembled dataset *)

Lemma bind_inv {S A B} (c : M S A) (k : A -> M S B) s r s' :
  bind c k s = (inr r, s') ->
  exists x s0, c s = (inr x, s0) /\ k x s0 = (inr r, s').
Proof.
  unfold bind. destruct (c s) as [[e|x] s0]; [discriminate|]. eauto.
Qed.

Lemma lift_inv {S A} (r : result A) (s s' : S) x :
  lift r s = (inr x, s') -> r = inr x /\ s' = s.
Proof. unfold lift. now intros [= -> ->]. Qed.

Lemma ret_inv {S A} (x y : A) (s s' : S) :
  ret x s = (inr y, s') -> y = x /\ s' = s.
Proof. unfold ret. now intros [= -> ->]. Qed.

Lemma map_result_length {A B} (f : A -> result B) l l' :
  map_result f l = inr l' -> List.length l' = List.length l.
Proof.
  revert l'; induction l as [|x l IH]; intros l'; simpl.
  - now intros [= <-].
  - destruct (f x); [discriminate|].
    destruct (map_result f l); [discriminate|].
    intros [= <-]. simpl. f_equal. now apply IH.
Qed.

Lemma repeat_each_length {A} n (l : list A) :
  List.length (repeat_each n l) = (List.length l * n)%nat.
Proof.
  unfold repeat_each. induction l as [|x l IH]; simpl; [reflexivity|].
  now rewrite length_app, repeat_length, IH.
Qed.

Lemma unzip2_inv {A B} (pairs : list (A * B)) la lb :
  unzip2 pairs = inr (la, lb) -> la = map fst pairs /\ lb = map snd pairs.
Proof. destruct pairs; simpl; [discriminate|]. now intros [= <- <-]. Qed.

Section Choices.
Context {R : Random}.

Lemma choices_length {A} (population : list A) k (w w' : world R) l :
  choices population k w = (inr l, w') -> List.length l = k.
Proof.
  revert w w' l; induction k as [|k IH]; intros w w' l; simpl.
  - now intros [= <- _].
  - intros H. apply bind_inv in H as (r & w0 & _ & H).
    destruct (nth_error population _); [|discriminate].
    apply bind_inv in H as (rest & w1 & Hrest & H).
    apply ret_inv in H as [-> _]. simpl. f_equal. eapply IH; eauto.
Qed.
End Choices.

(** *** Columns of the label table *)

Lemma lookup_remove_other {A} k name (row : list (string * A)) :
  k <> name -> Dict.lookup k (Dict.remove name row) = Dict.lookup k row.
Proof.
  intros Hne. unfold Dict.remove. induction row as [|[k' v'] row IH]; simpl; [reflexivity|].
  destruct (String.eqb_spec name k'); simpl.
  - subst. destruct (String.eqb_spec k k'); [contradiction|assumption].
  - destruct (String.eqb_spec k k'); [reflexivity|assumption].
Qed.

Lemma set_column_from_length i name values df :
  List.length (set_column_from i name values df) = List.length df.
Proof. revert i; induction df; intros i; simpl; auto. Qed.

Lemma column_set_column_from_other i k name values df :
  k <> name -> column k (set_column_from i name values df) = column k df.
Proof.
  intros Hne. revert i; induction df as [|row df IH]; intros i; simpl; [reflexivity|].
  rewrite IH. f_equal.
  destruct (nth_error values i);
    [now apply lookup_set_other | now apply lookup_remove_other].
Qed.

Lemma column_set_column_from_same name df :
  forall values before,
    List.length values = List.length df ->
    column name (set_column_from (List.length before) name (before ++ values) df)
    = map Some values.
Proof.
  induction df as [|row df IH]; intros values before Hlen; simpl.
  - destruct values; [reflexivity|discriminate].
  - destruct values as [|v values]; [discriminate|]. simpl in Hlen.
    rewrite nth_error_app2, Nat.sub_diag by lia. simpl.
    rewrite lookup_set_same. f_equal.
    specialize (IH values (before ++ [v])%list).
    rewrite length_app, <- app_assoc in IH. simpl in IH.
    rewrite Nat.add_1_r in IH. apply IH. lia.
Qed.

Lemma column_set_column_same name values df :
  List.length values = List.length df ->
  column name (set_column name values df) = map Some values.
Proof. intros H. exact (column_set_column_from_same name df values [] H). Qed.

Lemma column_set_column_other k name values df :
  k <> name -> column k (set_column name values df) = column k df.
Proof. apply column_set_column_from_other. Qed.

Lemma set_column_length name values df :
  List.length (set_column name values df) = List.length df.
Proof. apply set_column_from_length. Qed.

(** *** The double loop *)

Section Loop.
Context {R : Random} (X : Sox) (L : Librosa).

Lemma augment_track_group file n effects exercise sustain write
    (w w' : world R) labels features :
  augment_track X L file n effects exercise sustain write w
  = (inr (labels, features), w') ->
  Dict.lookup "group" labels = group_cell n.
Proof.
  intros H. apply augment_track_inv in H as (nested & fx & w0 & _ & -> & _).
  apply lookup_set_same.
Qed.

Lemma repetitions_groups file effects exercise sustain write reps :
  forall store (w w' : world R) store',
    for_each
      (fun store i =>
         bind (augment_track X L file i effects exercise sustain write)
              (fun r => ret (store ++ [r])%list))
      reps store w = (inr store', w') ->
    exists rows, store' = (store ++ rows)%list
                 /\ map (fun r => Dict.lookup "group" (fst r)) rows
                    = map group_cell reps.
Proof.
  induction reps as [|i reps IH]; intros store w w' store'; simpl.
  - intros H. apply ret_inv in H as [-> _]. exists []. now rewrite app_nil_r.
  - intros H. apply bind_inv in H as (store1 & w1 & Hstep & H).
    apply bind_inv in Hstep as ([labels features] & w0 & Htrack & Hret).
    apply ret_inv in Hret as [-> _].
    apply IH in H as (rows & -> & Hrows).
    exists ((labels, features) :: rows). rewrite <- app_assoc. split; [reflexivity|].
    simpl. rewrite Hrows. f_equal. eapply augment_track_group; eauto.
Qed.

Lemma augment_all_groups n effects exercise sustain write files :
  forall store (w w' : world R) store',
    for_each
      (fun store sf =>
         for_each
           (fun store i =>
              bind (augment_track X L sf i effects exercise sustain write)
                   (fun r => ret (store ++ [r])%list))
           (seq 0 n) store)
      files store w = (inr store', w') ->
    exists rows, store' = (store ++ rows)%list
                 /\ map (fun r => Dict.lookup "group" (fst r)) rows
                    = List.concat (map (fun _ => map group_cell (seq 0 n)) files).
Proof.
  induction files as [|sf files IH]; intros store w w' store'; simpl.
  - intros H. apply ret_inv in H as [-> _]. exists []. now rewrite app_nil_r.
  - intros H. apply bind_inv in H as (store1 & w1 & Hinner & H).
    apply repetitions_groups in Hinner as (rows1 & -> & Hrows1).
    apply IH in H as (rows & -> & Hrows).
    exists (rows1 ++ rows)%list. rewrite <- app_assoc. split; [reflexivity|].
    rewrite map_app. f_equal; assumption.
Qed.

End Loop.

Lemma concat_groups_length {A} n (files : list A) :
  List.length (List.concat (map (fun _ => map group_cell (seq 0 n)) files))
  = (List.length files * n)%nat.
Proof.
  induction files as [|f files IH]; simpl; [reflexivity|].
  now rewrite length_app, List.length_map, List.length_seq, IH.
Qed.

Lemma augment_track_deterministic_witness :
  fst (augment_effects Excerpt.transformer DeterminismSample.effects
         "classification" ["overdrive"; "reverb"] DeterminismSample.fresh)
  = fst (augment_effects DeterminismSample.muted DeterminismSample.effects
           "classification" ["overdrive"; "reverb"] DeterminismSample.used)
  /\ rng (snd (augment_effects Excerpt.transformer DeterminismSample.effects
                 "classification" ["overdrive"; "reverb"] DeterminismSample.fresh))
     = rng (snd (augment_effects DeterminismSample.muted DeterminismSample.effects
                   "classification" ["overdrive"; "reverb"] DeterminismSample.used)).
Proof.
  apply (proj1 (augment_track_deterministic Script.generator
                  Excerpt.transformer DeterminismSample.muted
                  Excerpt.extractor Excerpt.extractor
                  "data/strat/C.wav" 0 DeterminismSample.effects
                  "classification" ["overdrive"; "reverb"] None (Some "out")
                  DeterminismSample.fresh DeterminismSample.used
                  (fun _ => eq_refl) (fun _ _ => eq_refl) eq_refl)).
Defined.

(** * Further properties *)

(** ** The validator and the chain *)

(** X1.  [validate_reduce_fx] answers [True] exactly when every configured
    effect is a method of the transformer, then with the mapping itself;
    otherwise its second component is the non-empty collection of exactly
    the configured names that are not methods. *)
Theorem validate_reduce_fx_partitions (X : Sox) (effects : dict) :
  (fst (validate_reduce_fx X effects) = true
   <-> forall f, In f (Dict.keys effects) -> arsenal X f = true)
  /\ (fst (validate_reduce_fx X effects) = true ->
      snd (validate_reduce_fx X effects) = inl effects)
  /\ (fst (validate_reduce_fx X effects) = false ->
      exists invalid,
        snd (validate_reduce_fx X effects) = inr invalid
        /\ invalid <> []
        /\ forall f, In f invalid
                     <-> In f (Dict.keys effects) /\ arsenal X f = false).
Proof.
  unfold validate_reduce_fx.
  destruct (forallb (arsenal X) (Dict.keys effects)) eqn:E; simpl.
  - rewrite forallb_forall in E. repeat split; auto; discriminate.
  - split; [split; [discriminate|]|split; [discriminate|]].
    + intros H. rewrite <- forallb_forall in H. congruence.
    + intros _. eexists; split; [reflexivity|].
      assert (Hchar : forall f,
                 In f (filter (fun f => negb (arsenal X f)) (Dict.keys effects))
                 <-> In f (Dict.keys effects) /\ arsenal X f = false).
      { intros f. rewrite filter_In, negb_true_iff. tauto. }
      split; [|exact Hchar].
      intros Hnil.
      assert (Hall : forallb (arsenal X) (Dict.keys effects) = true).
      { apply forallb_forall. intros f Hf.
        destruct (arsenal X f) eqn:Ef; [reflexivity|].
        assert (Hin : In f []) by (rewrite <- Hnil; apply Hchar; auto).
        destruct Hin. }
      congruence.
Qed.

Lemma effect_chain_invalid (X : Sox) (cfg : augmentation_config) (f : string) :
  In f (Dict.keys (cfg_effects cfg)) -> arsenal X f = false ->
  effect_chain X cfg = inl AttributeError.
Proof.
  intros Hin Hf. unfold effect_chain, validate_reduce_fx.
  destruct (forallb (arsenal X) (Dict.keys (cfg_effects cfg))) eqn:E; [|reflexivity].
  rewrite forallb_forall in E. rewrite (E f Hin) in Hf. discriminate.
Qed.

(** X2.  The verdict of the validator is not read, but its second component
    is: when some configured effect is not a method of the transformer,
    whether or not it is active, [augment_data] (without subsampling) raises
    [AttributeError] on the set of invalid names before it prompts, augments
    or writes anything. *)
Theorem invalid_effect_aborts_run
    (R : Random) (X : Sox) (L : Librosa) (a : arguments)
    (cfg : augmentation_config) (w : world R) (f : string) :
  subsample a = None ->
  In f (Dict.keys (cfg_effects cfg)) ->
  arsenal X f = false ->
  augment_data X L a cfg w = (inl AttributeError, w).
Proof.
  intros Hsub Hin Hf. unfold augment_data. rewrite Hsub.
  unfold bind at 1. unfold ret at 1. unfold bind at 1. unfold lift at 1.
  now rewrite (effect_chain_invalid X cfg f Hin Hf).
Qed.

Lemma invalid_effect_aborts_run_witness :
  Dict.mem "wobble" (cfg_active InvalidSample.config) = false
  /\ augment_data Excerpt.transformer Excerpt.extractor Sample.args
       InvalidSample.config (Script.start [])
     = (inl AttributeError, Script.start []).
Proof.
  split; [reflexivity|].
  apply (invalid_effect_aborts_run Script.generator Excerpt.transformer
           Excerpt.extractor Sample.args InvalidSample.config (Script.start [])
           "wobble").
  - reflexivity.
  - simpl. tauto.
  - reflexivity.
Defined.

Lemma reduce_to_active_from (active : list string) (effects acc : dict) :
  NoDup (Dict.keys effects) ->
  (forall k, In k (Dict.keys effects) -> ~ In k (Dict.keys acc)) ->
  fold_left (fun acc kv => if Dict.mem (fst kv) active
                           then Dict.set (fst kv) (snd kv) acc else acc)
            effects acc
  = (acc ++ filter (fun kv => Dict.mem (fst kv) active) effects)%list.
Proof.
  revert acc; induction effects as [|[k v] effects IH]; intros acc Hnd Hfresh; simpl.
  - now rewrite app_nil_r.
  - unfold Dict.keys in Hnd; simpl in Hnd. inversion Hnd as [|? ? Hk Hnd']; subst.
    destruct (Dict.mem k active) eqn:E.
    + rewrite set_fresh by (apply Hfresh; now left).
      rewrite IH; [now rewrite <- app_assoc|assumption|].
      intros k' Hk' Hin. unfold Dict.keys in Hin. rewrite map_app in Hin.
      apply in_app_or in Hin as [Hin|[<-|[]]].
      * apply (Hfresh k'); [now right|assumption].
      * now apply Hk.
    + apply IH; [assumption|]. intros k' Hk'. apply Hfresh. now right.
Qed.

Lemma reduce_to_active_filter (effects : dict) (active : list string) :
  NoDup (Dict.keys effects) ->
  reduce_to_active effects active
  = filter (fun kv => Dict.mem (fst kv) active) effects.
Proof.
  intros Hnd. unfold reduce_to_active.
  now rewrite reduce_to_active_from by (auto; intros k _ []).
Qed.

Lemma keys_filter {A} (p : string -> bool) (d : list (string * A)) :
  Dict.keys (filter (fun kv => p (fst kv)) d) = filter p (Dict.keys d).
Proof.
  unfold Dict.keys. induction d as [|[k v] d IH]; simpl; [reflexivity|].
  destruct (p k); simpl; now rewrite IH.
Qed.

Lemma fromkeys_nodup {A} (v : A) (ks : list string) (d : list (string * A)) :
  NoDup ks -> (forall k, In k ks -> ~ In k (Dict.keys d)) ->
  set_all v ks d = (d ++ map (fun k => (k, v)) ks)%list.
Proof.
  revert d; induction ks as [|k ks IH]; intros d Hnd Hfresh; simpl.
  - now rewrite app_nil_r.
  - inversion Hnd as [|? ? Hk Hnd']; subst.
    rewrite set_fresh by (apply Hfresh; now left).
    rewrite IH; [now rewrite <- app_assoc|assumption|].
    intros k' Hk' Hin. unfold Dict.keys in Hin. rewrite map_app in Hin.
    apply in_app_or in Hin as [Hin|[<-|[]]].
    + apply (Hfresh k'); [now right|assumption].
    + now apply Hk.
Qed.

Lemma chain_order_nodup (effects : dict) :
  NoDup (Dict.keys effects) -> NoDup (chain_order effects).
Proof.
  intros Hnd. unfold chain_order. simpl.
  set (others := filter (fun f => negb (Dict.mem f ["reverb"; "overdrive"]))
                        (Dict.keys effects)).
  assert (Hothers : forall k, In k others -> k <> "overdrive" /\ k <> "reverb").
  { intros k Hk. unfold others in Hk. apply filter_In in Hk as [_ Hk].
    split; intros ->; discriminate Hk. }
  constructor.
  - intros Hin. apply in_app_or in Hin as [Hin|[E|[]]]; [|discriminate E].
    now apply Hothers in Hin as [H _].
  - apply NoDup_app; [now apply NoDup_filter | repeat constructor; auto |].
    intros k Hk [<-|[]]. now apply Hothers in Hk as [_ H].
Qed.

Lemma ordered_effects_keys_exact (effects : dict) :
  NoDup (Dict.keys effects) ->
  Dict.keys (ordered_effects effects) = chain_order effects.
Proof.
  intros Hnd. unfold ordered_effects.
  change (Dict.keys (put_back effects (set_all VNone (chain_order effects) []))
          = chain_order effects).
  assert (Hfrom : Dict.keys (set_all VNone (chain_order effects) [])
                  = chain_order effects).
  { rewrite fromkeys_nodup by (auto using chain_order_nodup; intros k _ []).
    unfold Dict.keys. cbn [app]. rewrite map_map. cbn [fst]. apply map_id. }
  rewrite put_back_keys; [exact Hfrom|].
  rewrite Hfrom. intros k Hk. unfold chain_order. cbn [app].
  destruct (string_dec k "overdrive") as [->|Hov]; [now left|].
  right. apply in_or_app.
  destruct (string_dec k "reverb") as [->|Hrv]; [right; now left|].
  left. apply filter_In. split; [assumption|]. simpl.
  destruct (String.eqb_spec k "reverb"); [contradiction|].
  destruct (String.eqb_spec k "overdrive"); [contradiction|reflexivity].
Qed.

(** X3.  For a configured mapping (its keys are distinct) the chain lists
    ["overdrive"], then the other active configured effects in the order of
    the configuration, then ["reverb"]: nothing else, nothing twice. *)
Theorem effect_chain_keys_in_configured_order
    (X : Sox) (cfg : augmentation_config) (c : dict) :
  NoDup (Dict.keys (cfg_effects cfg)) ->
  effect_chain X cfg = inr c ->
  Dict.keys c
  = ("overdrive"
       :: filter (fun k => (Dict.mem k (cfg_active cfg)
                            && negb (Dict.mem k ["reverb"; "overdrive"]))%bool)
                 (Dict.keys (cfg_effects cfg))
       ++ ["reverb"])%list
  /\ NoDup (Dict.keys c).
Proof.
  intros Hnd Hc. rewrite (effect_chain_inv X cfg c Hc).
  rewrite reduce_to_active_filter by assumption.
  assert (Hred : NoDup (Dict.keys (filter (fun kv => Dict.mem (fst kv) (cfg_active cfg))
                                          (cfg_effects cfg)))).
  { rewrite (keys_filter (fun k => Dict.mem k (cfg_active cfg))).
    now apply NoDup_filter. }
  rewrite (ordered_effects_keys_exact _ Hred). split.
  - unfold chain_order. simpl. f_equal. f_equal.
    rewrite (keys_filter (fun k => Dict.mem k (cfg_active cfg))).
    generalize (Dict.keys (cfg_effects cfg)) as ks.
    induction ks as [|k ks IH]; simpl; [reflexivity|].
    destruct (Dict.mem k (cfg_active cfg)); simpl; [|exact IH].
    destruct (negb _); simpl; now rewrite IH.
  - now apply chain_order_nodup.
Qed.

Lemma effect_chain_keys_in_configured_order_witness :
  Dict.keys (ordered_effects (reduce_to_active (cfg_effects ChainSample.config)
                                               (cfg_active ChainSample.config)))
  = ["overdrive"; "phaser"; "reverb"]
  /\ NoDup (Dict.keys (ordered_effects
                         (reduce_to_active (cfg_effects ChainSample.config)
                                           (cfg_active ChainSample.config)))).
Proof.
  apply (effect_chain_keys_in_configured_order Excerpt.transformer ChainSample.config).
  - repeat constructor; simpl; intuition discriminate.
  - reflexivity.
Defined.

Lemma lookup_not_in {A} k (d : list (string * A)) :
  Dict.lookup k d = None <-> ~ In k (Dict.keys d).
Proof.
  unfold Dict.keys; induction d as [|[k' v'] d IH]; simpl; [tauto|].
  destruct (String.eqb_spec k k').
  - split; [discriminate|]. intros H; exfalso; apply H; auto.
  - rewrite IH. split; intros H; [intros [E|Hin]; [congruence|tauto]|tauto].
Qed.

Lemma lookup_filter {A} (p : string -> bool) k (d : list (string * A)) :
  Dict.lookup k (filter (fun kv => p (fst kv)) d)
  = if p k then Dict.lookup k d else None.
Proof.
  induction d as [|[k0 v0] d IH]; simpl; [now destruct (p k)|].
  destruct (p k0) eqn:E0; simpl; destruct (String.eqb_spec k k0); subst;
    rewrite ?E0; auto.
  now rewrite IH, E0.
Qed.

Lemma lookup_set_all_other {A} (v : A) ks d k :
  ~ In k ks -> Dict.lookup k (set_all v ks d) = Dict.lookup k d.
Proof.
  revert d; induction ks as [|k0 ks IH]; intros d Hnot; simpl; [reflexivity|].
  rewrite IH by (intros H; apply Hnot; now right).
  apply lookup_set_other. intros ->. apply Hnot; now left.
Qed.

Lemma lookup_put_back_nodup {A} (effects d : list (string * A)) k :
  NoDup (Dict.keys effects) ->
  Dict.lookup k (put_back effects d)
  = match Dict.lookup k effects with
    | Some v => Some v
    | None => Dict.lookup k d
    end.
Proof.
  revert d; induction effects as [|[k0 v0] effects IH]; intros d Hnd; simpl;
    [reflexivity|].
  unfold Dict.keys in Hnd; simpl in Hnd. inversion Hnd as [|? ? Hk Hnd']; subst.
  rewrite (IH _ Hnd'). destruct (String.eqb_spec k k0) as [->|Hne].
  - rewrite (proj2 (lookup_not_in k0 effects) Hk). apply lookup_set_same.
  - destruct (Dict.lookup k effects); [reflexivity|]. now apply lookup_set_other.
Qed.

(** X4.  In the chain every active configured effect keeps the
    specification of the configuration; ["overdrive"] and ["reverb"] are
    bound to [None] when the configuration does not give them or they are not
    active; and no other name is a key. *)
Theorem effect_chain_specifications
    (X : Sox) (cfg : augmentation_config) (c : dict) (k : string) :
  NoDup (Dict.keys (cfg_effects cfg)) ->
  effect_chain X cfg = inr c ->
  Dict.lookup k c
  = match (if Dict.mem k (cfg_active cfg)
           then Dict.lookup k (cfg_effects cfg) else None) with
    | Some spec => Some spec
    | None => if Dict.mem k ["overdrive"; "reverb"] then Some VNone else None
    end.
Proof.
  intros Hnd Hc. rewrite (effect_chain_inv X cfg c Hc).
  rewrite reduce_to_active_filter by assumption.
  set (red := filter (fun kv => Dict.mem (fst kv) (cfg_active cfg)) (cfg_effects cfg)).
  assert (Hred : NoDup (Dict.keys red)).
  { unfold red. rewrite (keys_filter (fun k => Dict.mem k (cfg_active cfg))).
    now apply NoDup_filter. }
  unfold ordered_effects.
  change (fold_left (fun acc kv => Dict.set (fst kv) (snd kv) acc) red
            (Dict.fromkeys (chain_order red) VNone))
    with (put_back red (set_all VNone (chain_order red) [])).
  rewrite (lookup_put_back_nodup _ _ _ Hred).
  assert (Hlook : Dict.lookup k red
                  = if Dict.mem k (cfg_active cfg)
                    then Dict.lookup k (cfg_effects cfg) else None)
    by apply (lookup_filter (fun k => Dict.mem k (cfg_active cfg))).
  rewrite <- Hlook. destruct (Dict.lookup k red) eqn:E; [reflexivity|].
  apply lookup_not_in in E.
  destruct (Dict.mem k ["overdrive"; "reverb"]) eqn:Em.
  - apply lookup_set_all. unfold chain_order. cbn [app].
    apply mem_In in Em. destruct Em as [<-|[<-|[]]]; [now left|].
    right. apply in_or_app. right. now left.
  - rewrite lookup_set_all_other; [reflexivity|].
    apply mem_false in Em. unfold chain_order. cbn [app].
    intros [<-|Hin]; [apply Em; now left|].
    apply in_app_or in Hin as [Hin|[<-|[]]].
    + apply filter_In in Hin as [Hin _]. contradiction.
    + apply Em. right. now left.
Qed.

Lemma effect_chain_specifications_witness :
  Dict.lookup "echo"
    (ordered_effects (reduce_to_active (cfg_effects ChainSample.config)
                                       (cfg_active ChainSample.config)))
  = None
  /\ Dict.lookup "reverb"
       (ordered_effects (reduce_to_active (cfg_effects MissingSample.config)
                                          (cfg_active MissingSample.config)))
     = Some VNone.
Proof.
  split.
  - apply (effect_chain_specifications Excerpt.transformer ChainSample.config _ "echo").
    + repeat constructor; simpl; intuition discriminate.
    + reflexivity.
  - apply (effect_chain_specifications Excerpt.transformer MissingSample.config _ "reverb").
    + repeat constructor; simpl; intuition discriminate.
    + reflexivity.
Defined.

(** ** More on [pad] *)

Lemma nth_map_seq {A} (f : nat -> A) n i d :
  (i < n)%nat -> nth i (map f (seq 0 n)) d = f i.
Proof. intros Hi. apply nth_error_nth. now apply nth_error_map_seq. Qed.

Lemma rows_of_entries (a : array2) :
  wf_array a ->
  map (fun i => map (fun j => entry a i j) (seq 0 (shape1 a))) (seq 0 (shape0 a))
  = data a.
Proof.
  intros [Hrows Hcols].
  apply (nth_ext _ _ [] []).
  - now rewrite List.length_map, List.length_seq.
  - intros i Hi. rewrite List.length_map, List.length_seq in Hi.
    rewrite nth_map_seq by assumption.
    assert (Hlen : List.length (nth i (data a) []) = shape1 a).
    { rewrite Forall_forall in Hcols. apply Hcols. apply nth_In. lia. }
    apply (nth_ext _ _ 0%Q 0%Q).
    + now rewrite List.length_map, List.length_seq.
    + intros j Hj. rewrite List.length_map, List.length_seq in Hj.
      now rewrite nth_map_seq by assumption.
Qed.

Lemma padder_same_shape (a : array2) :
  wf_array a -> padder a (shape a) = inr a.
Proof.
  intros Hwf. pose proof (rows_of_entries a Hwf) as Hrows.
  destruct a as [x y rows]. cbn [shape0 shape1 data] in Hrows.
  unfold padder, assign_corner, shape.
  cbn [shape0 shape1 zeros fst snd].
  rewrite !Nat.min_id, !Nat.eqb_refl. cbn [orb andb].
  f_equal. f_equal. etransitivity; [|exact Hrows].
  apply map_ext_in. intros i Hi. apply in_seq in Hi.
  apply map_ext_in. intros j Hj. apply in_seq in Hj.
  destruct (Nat.ltb_spec i x); [|lia]. destruct (Nat.ltb_spec j y); [|lia].
  reflexivity.
Qed.

Lemma max_by_first_In best l : In (max_by_first best l) (best :: l).
Proof.
  revert best; induction l as [|s l IH]; intros best; simpl; [now left|].
  destruct (Nat.ltb (fst best) (fst s)).
  - right. apply IH.
  - destruct (IH best) as [H|H]; [now left | right; now right].
Qed.

Lemma py_max_by_first_same l m :
  l <> [] -> Forall (fun s => s = m) l -> py_max_by_first l = inr m.
Proof.
  destruct l as [|s l]; [congruence|]. intros _ Hall. simpl. f_equal.
  rewrite Forall_forall in Hall.
  rewrite (Hall _ (max_by_first_In s l)). reflexivity.
Qed.

Lemma padder_shape_wf a m out :
  padder a m = inr out -> shape out = m /\ wf_array out.
Proof.
  unfold padder, assign_corner.
  destruct (_ && _)%bool; [|discriminate]. intros [= <-].
  destruct m as [m0 m1]. split; [reflexivity|]. split; cbn [data shape0 shape1 zeros fst snd].
  - now rewrite List.length_map, List.length_seq.
  - apply Forall_forall; intros row Hrow.
    apply in_map_iff in Hrow as (i & <- & _).
    now rewrite List.length_map, List.length_seq.
Qed.

Lemma map_result_Forall2 {A B} (f : A -> result B) l l' :
  map_result f l = inr l' -> Forall2 (fun x y => f x = inr y) l l'.
Proof.
  revert l'; induction l as [|x l IH]; intros l'; simpl.
  - intros [= <-]. constructor.
  - destruct (f x) as [e|y] eqn:E; [discriminate|].
    destruct (map_result f l) as [e|ys]; [discriminate|].
    intros [= <-]. constructor; auto.
Qed.

Lemma map_result_same {A} (f : A -> result A) l :
  Forall (fun x => f x = inr x) l -> map_result f l = inr l.
Proof.
  induction 1 as [|x l Hx _ IH]; simpl; [reflexivity|]. now rewrite Hx, IH.
Qed.

(** X5.  Whenever [pad] returns, it returns one slice per array, every
    slice well formed and of the chosen maximum shape, and padding the result
    again changes nothing: [pad] is idempotent. *)
Theorem pad_idempotent (l batch : list array2) :
  pad l = inr batch ->
  pad batch = inr batch
  /\ List.length batch = List.length l
  /\ exists m, py_max_by_first (map shape l) = inr m
               /\ Forall (fun out => shape out = m /\ wf_array out) batch.
Proof.
  unfold pad. destruct (py_max_by_first (map shape l)) as [e|m] eqn:Hm; [discriminate|].
  intros Hmap.
  assert (Hlen : List.length batch = List.length l) by (eapply map_result_length; eauto).
  assert (Hall : Forall (fun out => shape out = m /\ wf_array out) batch).
  { apply map_result_Forall2 in Hmap. clear Hm Hlen.
    induction Hmap as [|a out l batch Ha _ IH]; constructor; auto.
    eapply padder_shape_wf; eauto. }
  split; [|split; [exact Hlen | exists m; split; [reflexivity | exact Hall]]].
  assert (Hne : map shape batch <> []).
  { destruct batch; [|discriminate]. destruct l; [discriminate Hm | discriminate Hlen]. }
  rewrite (py_max_by_first_same (map shape batch) m Hne).
  - apply map_result_same. rewrite Forall_forall in *. intros out Hout.
    destruct (Hall out Hout) as [<- Hwf]. now apply padder_same_shape.
  - rewrite Forall_forall in *. intros s Hs.
    apply in_map_iff in Hs as (out & <- & Hout). now apply Hall.
Qed.

Lemma pad_idempotent_witness :
  exists batch,
    pad [PadSample.short; PadSample.tall] = inr batch
    /\ pad batch = inr batch
    /\ List.length batch = 2%nat.
Proof.
  destruct (pad [PadSample.short; PadSample.tall]) as [e|batch] eqn:Hpad;
    [vm_compute in Hpad; discriminate Hpad|].
  exists batch. split; [reflexivity|].
  destruct (pad_idempotent [PadSample.short; PadSample.tall] batch Hpad)
    as (Hagain & Hlen & _).
  split; assumption.
Defined.

Lemma max_by_first_list_max best l :
  fst (max_by_first best l) = Nat.max (fst best) (list_max (map fst l)).
Proof.
  revert best; induction l as [|s l IH]; intros best; simpl; [lia|].
  destruct (Nat.ltb_spec (fst best) (fst s)); rewrite IH; lia.
Qed.

Lemma item_expand_dims (f : list Q) i :
  (i < List.length f)%nat -> item (expand_dims f) i 0 = Some (nth i f 0%Q).
Proof.
  intros Hi. unfold item, expand_dims; cbn [data].
  rewrite nth_error_map, (nth_error_nth' f 0%Q Hi). reflexivity.
Qed.

Lemma expand_dims_wf (f : list Q) : wf_array (expand_dims f).
Proof.
  split; cbn [data shape0 shape1 expand_dims].
  - apply List.length_map.
  - apply Forall_forall. intros row Hrow.
    apply in_map_iff in Hrow as (v & <- & _). reflexivity.
Qed.

Lemma column_slices (n : nat) (features : list (list Q)) :
  forall batch,
    Forall2 padded_slice (map expand_dims features) batch ->
    Forall (fun out => shape out = (n, 1%nat)) batch ->
    Forall2
      (fun f out =>
         shape out = (n, 1%nat)
         /\ forall i, (i < n)%nat -> item out i 0 = Some (nth i f 0%Q))
      features batch.
Proof.
  induction features as [|f features IH]; intros batch Hslices Hshapes;
    inversion Hslices as [|a out arrays batch' [Hkeep Hzero] Hrest]; subst;
    constructor.
  - inversion Hshapes as [|? ? Hs _]; subst. split; [exact Hs|]. intros i Hi.
    unfold shape in Hs. injection Hs as Hs0 Hs1.
    destruct (Nat.ltb_spec i (List.length f)) as [Hin|Hout].
    + rewrite Hkeep by (cbn; lia). now apply item_expand_dims.
    + rewrite Hzero by (cbn; lia). now rewrite nth_overflow.
  - inversion Hshapes; subst. now apply IH.
Qed.

(** X6.  On the feature vectors of a run, each expanded to one column,
    [pad] never raises: for a non-empty list it returns, for each vector,
    the column of the vector followed by zeros up to the length of the longest
    vector. *)
Theorem pad_feature_vectors (features : list (list Q)) :
  features <> [] ->
  exists batch,
    pad (map expand_dims features) = inr batch
    /\ Forall2
         (fun f out =>
            shape out = (list_max (map (@List.length Q) features), 1%nat)
            /\ forall i, (i < list_max (map (@List.length Q) features))%nat ->
                         item out i 0 = Some (nth i f 0%Q))
         features batch.
Proof.
  intros Hne. set (longest := list_max (map (@List.length Q) features)).
  assert (Hmax : py_max_by_first (map shape (map expand_dims features))
                 = inr (longest, 1%nat)).
  { destruct features as [|f0 features]; [congruence|]. cbn [map py_max_by_first].
    f_equal. apply injective_projections.
    - rewrite max_by_first_list_max. unfold longest. cbn [map list_max fold_right fst shape shape0 expand_dims].
      f_equal. rewrite !map_map. reflexivity.
    - assert (Hone : forall s, In s (shape (expand_dims f0)
                                      :: map shape (map expand_dims features)) ->
                                snd s = 1%nat).
      { intros s [<-|Hin]; [reflexivity|]. rewrite map_map in Hin.
        apply in_map_iff in Hin as (f & <- & _). reflexivity. }
      apply Hone, max_by_first_In. }
  unfold pad. rewrite Hmax.
  destruct (map_padder_fits (map expand_dims features) longest 1) as (batch & Hb & Hslices & Hshapes).
  - apply Forall_forall. intros a Ha. apply in_map_iff in Ha as (f & <- & _).
    apply expand_dims_wf.
  - apply Forall_forall. intros a Ha. split.
    + apply (py_max_by_first_bounds _ (longest, 1%nat) (shape a) Hmax). now apply in_map.
    + apply in_map_iff in Ha as (f & <- & _). cbn. lia.
  - exists batch. split; [exact Hb|]. now apply column_slices.
Qed.

Lemma pad_feature_vectors_witness :
  exists batch,
    pad (map expand_dims [[1%Q; 2%Q; 3%Q]; [7%Q]]) = inr batch
    /\ Forall2
         (fun f out =>
            shape out = (3%nat, 1%nat)
            /\ forall i, (i < 3)%nat -> item out i 0 = Some (nth i f 0%Q))
         [[1%Q; 2%Q; 3%Q]; [7%Q]] batch.
Proof.
  apply (pad_feature_vectors [[1%Q; 2%Q; 3%Q]; [7%Q]]). discriminate.
Defined.

Lemma padder_only_value_error a m e : padder a m = inl e -> e = ValueError.
Proof.
  unfold padder, assign_corner. destruct (_ && _)%bool; [discriminate|].
  now intros [= <-].
Qed.

Lemma map_result_error {A B} (f : A -> result B) l e :
  map_result f l = inl e -> exists x, In x l /\ f x = inl e.
Proof.
  induction l as [|x l IH]; simpl; [discriminate|].
  destruct (f x) as [e'|y] eqn:E.
  - intros [= <-]. exists x. auto.
  - destruct (map_result f l) as [e'|ys]; [|discriminate].
    intros [= <-]. destruct (IH eq_refl) as (x' & Hin & Hx'). exists x'. auto.
Qed.

Lemma map_result_raises {A B} (f : A -> result B) l x e :
  In x l -> f x = inl e -> exists e', map_result f l = inl e'.
Proof.
  induction l as [|y l IH]; simpl; [contradiction|].
  intros [->|Hin] Hx.
  - rewrite Hx. eauto.
  - destruct (f y); [eauto|]. destruct (IH Hin Hx) as (e' & ->). eauto.
Qed.

(** X7.  [pad] raises nothing but [ValueError]; it raises it on the empty
    list, and on every list in which some array is wider than the chosen
    maximum shape without being a single column, whatever the arrays hold. *)
Theorem pad_raises_value_error (l : list array2) :
  (forall e, pad l = inl e -> e = ValueError)
  /\ (l = [] -> pad l = inl ValueError)
  /\ (forall m a,
        py_max_by_first (map shape l) = inr m ->
        In a l -> (snd m < shape1 a)%nat -> shape1 a <> 1%nat ->
        pad l = inl ValueError).
Proof.
  assert (Honly : forall e, pad l = inl e -> e = ValueError).
  { unfold pad. intros e.
    destruct (py_max_by_first (map shape l)) as [e'|m] eqn:Hm.
    - destruct l; [|discriminate Hm]. simpl in Hm. congruence.
    - intros H. apply map_result_error in H as (x & _ & Hx).
      eapply padder_only_value_error; eauto. }
  split; [exact Honly|]. split; [now intros ->|].
  intros [m0 m1] a Hm Hin Hwide Hcol.
  assert (Hfail : padder a (m0, m1) = inl ValueError).
  { unfold padder, assign_corner. cbn [shape0 shape1 zeros fst snd] in *.
    rewrite (Nat.min_r (shape1 a) m1) by lia.
    destruct (Nat.eqb_spec (shape1 a) m1); [lia|].
    destruct (Nat.eqb_spec (shape1 a) 1); [contradiction|].
    now rewrite andb_false_r. }
  destruct (pad l) as [e|batch] eqn:Hpad.
  - now rewrite (Honly e eq_refl).
  - unfold pad in Hpad. rewrite Hm in Hpad.
    destruct (map_result_raises (fun x => padder x (m0, m1)) l a ValueError
                Hin Hfail) as (e' & He').
    rewrite He' in Hpad. discriminate Hpad.
Qed.

Lemma pad_raises_value_error_witness :
  pad [PadSample.tall; PadSample.wide] = inl ValueError.
Proof.
  apply (proj2 (proj2 (pad_raises_value_error [PadSample.tall; PadSample.wide]))
           (2%nat, 1%nat) PadSample.wide).
  - reflexivity.
  - right. now left.
  - simpl. lia.
  - discriminate.
Defined.

(** ** Realised parameters *)

(** X9.  A parameter in state ["random"] with numeric bounds [lower < upper]
    and a library default that is not a list is realised and recorded under
    its name: as a float of the closed interval when the upper bound is below
    1 (integer bounds included), and as an integer of the inclusive range when
    the bounds are integers and the upper one is at least 1. *)
Theorem random_parameter_within_bounds
    (R : Random) (f_defaults : dict) (effect param : string)
    (used policy : dict) (p q : Q) (w : world R) :
  py_get "state" policy = VStr "random" ->
  (forall l, py_get param f_defaults <> VList l) ->
  num (py_get "lower" policy) = Some p ->
  num (py_get "upper" policy) = Some q ->
  (p < q)%Q ->
  ((q < 1)%Q ->
   exists v w',
     resolve_param f_defaults effect used (param, VDict policy) w
     = (inr (Dict.set param (VFloat v) used), w')
     /\ (p <= v)%Q /\ (v <= q)%Q)
  /\
  (forall a b,
     py_get "lower" policy = VInt a -> py_get "upper" policy = VInt b ->
     1 <= b ->
     exists k w',
       resolve_param f_defaults effect used (param, VDict policy) w
       = (inr (Dict.set param (VInt k) used), w')
       /\ a <= k <= b).
Proof.
  intros Hstate Hdefault Hl Hu Hlt.
  assert (Hstep :
    resolve_param f_defaults effect used (param, VDict policy) w
    = bind (rand (py_get "lower" policy) (py_get "upper" policy))
           (fun v => ret (Dict.set param v used)) w).
  { unfold resolve_param. rewrite Hstate.
    change (is_str (VStr "random") "constant") with false.
    change (is_str (VStr "random") "random") with true. cbv iota.
    assert (Hgt : py_gt (py_get "upper" policy) (py_get "lower" policy) = inr true).
    { rewrite (py_gt_num _ _ q p Hu Hl). f_equal. now apply Qltb_true. }
    destruct (py_get param f_defaults) eqn:Ed;
      try (unfold bind at 1, lift; rewrite Hgt; reflexivity).
    exfalso. eapply Hdefault; eauto. }
  rewrite Hstep. unfold bind, ret.
  rewrite (rand_branch _ _ p q w Hl Hu). split.
  - intros Hq.
    assert (Hp : (p < 1)%Q) by lra.
    rewrite (proj2 (Qltb_true p 1) Hp), (proj2 (Qltb_true q 1) Hq). cbn [andb].
    destruct (uniform_between p q _ _ w Hl Hu) as (v & w' & -> & Hv).
    exists v, w'. split; [reflexivity|]. destruct Hv as [[? ?]|[? ?]]; split; lra.
  - intros a b Ha Hb Hb1. rewrite Ha, Hb in *.
    simpl in Hl, Hu. injection Hl as <-. injection Hu as <-.
    assert (Hq : Qltb (inject_Z b) 1 = false).
    { apply Qltb_false. change 1%Q with (inject_Z 1). rewrite <- Zle_Qle. lia. }
    rewrite Hq, andb_false_r.
    assert (Hab : a <= b) by (rewrite <- Zlt_Qlt in Hlt; lia).
    destruct (randint_between a b w Hab) as (k & w' & -> & Hk).
    exists k, w'. split; [reflexivity | exact Hk].
Qed.

Lemma random_parameter_within_bounds_witness :
  (exists v w',
     resolve_param (R := Script.generator)
       [("gain_in", VFloat (8 # 10)); ("speed", VFloat (5 # 10))] "phaser" []
       ("speed", VDict [("state", VStr "random"); ("lower", VFloat (1 # 10));
                        ("upper", VFloat (5 # 10))])
       (Script.start [250%nat])
     = (inr (Dict.set "speed" (VFloat v) []), w')
     /\ (1 # 10 <= v)%Q /\ (v <= 5 # 10)%Q).
Proof.
  apply (proj1 (random_parameter_within_bounds Script.generator
                  [("gain_in", VFloat (8 # 10)); ("speed", VFloat (5 # 10))]
                  "phaser" "speed" []
                  [("state", VStr "random"); ("lower", VFloat (1 # 10));
                   ("upper", VFloat (5 # 10))]
                  (1 # 10) (5 # 10) (Script.start [250%nat])
                  eq_refl ltac:(discriminate) eq_refl eq_refl eq_refl)).
  reflexivity.
Defined.

(** ** Runs without randomness *)

Lemma stateless_ret {S A} (x : A) : stateless (S := S) (ret x).
Proof. now exists (inr x). Qed.

Lemma stateless_raise {S A} (e : exn) : stateless (S := S) (A := A) (raise e).
Proof. now exists (inl e). Qed.

Lemma stateless_lift {S A} (r : result A) : stateless (S := S) (lift r).
Proof. now exists r. Qed.

Lemma stateless_bind {S A B} (c : M S A) (k : A -> M S B) :
  stateless c -> (forall x, stateless (k x)) -> stateless (bind c k).
Proof.
  intros [[e|x] Hc] Hk.
  - exists (inl e). intros s. unfold bind. now rewrite Hc.
  - destruct (Hk x) as [r Hr]. exists r. intros s. unfold bind. now rewrite Hc.
Qed.

Lemma stateless_for_each {S A B} (body : B -> A -> M S B) (l : list A) :
  (forall acc x, In x l -> stateless (body acc x)) ->
  forall acc, stateless (for_each body l acc).
Proof.
  induction l as [|x l IH]; intros Hbody acc; simpl.
  - apply stateless_ret.
  - apply stateless_bind; [apply Hbody; now left|].
    intros acc'. apply IH. intros; apply Hbody; now right.
Qed.

Lemma resolve_param_stateless {R : Random} f_defaults effect used param val :
  (forall policy, val = VDict policy ->
                  is_str (py_get "state" policy) "random" = false) ->
  stateless (resolve_param (R := R) f_defaults effect used (param, val)).
Proof.
  intros Hstate. unfold resolve_param.
  destruct val; try apply stateless_raise.
  rewrite (Hstate d eq_refl).
  destruct (is_str _ "constant"); apply stateless_ret.
Qed.

(** X10.  When no effect of the chain can be skipped (the policy is not
    classification, or the effects are sustained) and no parameter is in
    state ["random"], the effect loop of [augment_track] draws nothing from
    the generator: its outcome is the same from every state of the world,
    and the world is left as it was, so every repetition of a file is labelled
    alike. *)
Theorem constant_chain_draws_nothing
    (R : Random) (X : Sox) (effects : list (string * value))
    (exercise : string) (sustain : list string) :
  (forall effect spec, In (effect, spec) effects ->
     may_skip exercise sustain effect = false) ->
  (forall effect params param policy,
     In (effect, VDict params) effects -> In (param, VDict policy) params ->
     is_str (py_get "state" policy) "random" = false) ->
  stateless (augment_effects (R := R) X effects exercise sustain).
Proof.
  intros Hskip Hconst. unfold augment_effects. apply stateless_for_each.
  intros [labels fx] [effect spec] Hin. unfold apply_effect.
  apply stateless_bind.
  - exists (inr false). intros w. apply skipped_never. eapply Hskip; eauto.
  - intros [|]; [apply stateless_ret|].
    apply stateless_bind; [apply stateless_lift|]. intros f_defaults.
    destruct spec as [| | | | | |params]; try apply stateless_raise.
    apply stateless_bind.
    + apply stateless_for_each. intros used [param val] Hp.
      apply resolve_param_stateless. intros policy ->. eapply Hconst; eauto.
    + intros used. apply stateless_bind; [apply stateless_lift|].
      intros _. apply stateless_ret.
Qed.

Lemma constant_chain_draws_nothing_witness :
  stateless (augment_effects (R := Script.generator) Excerpt.transformer
               [("overdrive", VDict [("gain_db", Sample.constant_default)]);
                ("reverb", VDict [("reverberance", Sample.constant_default)])]
               "classification" ["overdrive"; "reverb"]).
Proof.
  apply (constant_chain_draws_nothing Script.generator Excerpt.transformer).
  - intros effect spec [[= <- <-]|[[= <- <-]|[]]]; reflexivity.
  - intros effect params param policy [[= <- <-]|[[= <- <-]|[]]] [[= <- <-]|[]];
      reflexivity.
Defined.

(** ** The labels of a track *)

Lemma skipped_inv {R : Random} exercise sustain effect (w w' : world R) :
  skipped exercise sustain effect w = (inr true, w') ->
  may_skip exercise sustain effect = true.
Proof.
  unfold skipped, may_skip.
  destruct (_ && _)%bool; [reflexivity|]. unfold ret. discriminate.
Qed.

Lemma apply_effect_inv {R : Random} (X : Sox) exercise sustain labels fx
    effect spec (w w' : world R) r :
  apply_effect X exercise sustain (labels, fx) (effect, spec) w = (inr r, w') ->
  (r = (labels, fx) /\ may_skip exercise sustain effect = true)
  \/ exists used,
       r = (Dict.set effect (VDict used) labels, (fx ++ [(effect, used)])%list).
Proof.
  unfold apply_effect. intros H.
  apply bind_inv in H as ([|] & w0 & Hskip & H).
  - left. apply ret_inv in H as [-> _]. split; [reflexivity|].
    eapply skipped_inv; eauto.
  - right. apply bind_inv in H as (f_defaults & w1 & _ & H).
    destruct spec; try (unfold raise in H; discriminate).
    apply bind_inv in H as (used & w2 & _ & H).
    apply bind_inv in H as (u & w3 & _ & H).
    apply ret_inv in H as [-> _]. now exists used.
Qed.

Lemma augment_effects_from {R : Random} (X : Sox) exercise sustain effects :
  forall labels fx (w w' : world R) labels' fx',
    NoDup (Dict.keys effects) ->
    (forall e, In e (Dict.keys effects) -> ~ In e (Dict.keys labels)) ->
    labels = map mirror fx ->
    for_each (apply_effect X exercise sustain) effects (labels, fx) w
    = (inr (labels', fx'), w') ->
    labels' = map mirror fx'
    /\ exists added,
         fx' = (fx ++ added)%list
         /\ incl (map fst added) (Dict.keys effects)
         /\ forall e, In e (Dict.keys effects) ->
                      may_skip exercise sustain e = false -> In e (map fst added).
Proof.
  induction effects as [|[effect spec] effects IH];
    intros labels fx w w' labels' fx' Hnd Hfresh Hmirror H; simpl in H.
  - apply ret_inv in H as [[= -> ->] _]. split; [assumption|].
    exists []. rewrite app_nil_r. split; [reflexivity|]. split; [intros e []|].
    intros e [].
  - unfold Dict.keys in Hnd; simpl in Hnd. inversion Hnd as [|? ? Hk Hnd']; subst.
    apply bind_inv in H as ([labels1 fx1] & w1 & Hstep & H).
    apply apply_effect_inv in Hstep as [[[= -> ->] Hskip]|(used & [= -> ->])].
    + apply IH in H as (Hm & added & -> & Hincl & Hall); auto.
      * split; [exact Hm|]. exists added. split; [reflexivity|]. split.
        -- intros e He. right. now apply Hincl.
        -- intros e [He|He] Hno; [simpl in He; subst e; congruence | now apply Hall].
      * intros e He. apply Hfresh. now right.
    + apply IH in H as (Hm & added & -> & Hincl & Hall); auto.
      * split; [exact Hm|]. exists ((effect, used) :: added).
        rewrite <- app_assoc. split; [reflexivity|]. split.
        -- intros e [He|He]; [simpl in He; subst e; now left | right; now apply Hincl].
        -- intros e [He|He] Hno; [simpl in He; subst e; now left | right; now apply Hall].
      * intros e He Hin. apply keys_set_iff in Hin as [->|Hin].
        -- now apply Hk.
        -- apply (Hfresh e); [now right | assumption].
      * rewrite set_fresh by (apply Hfresh; now left).
        now rewrite map_app.
Qed.


(** X11.  When the effect loop of [augment_track] returns on a chain with
    distinct names, the nested labels mirror, in order, the effects applied
    to the transformer with the parameters they were called with; only
    effects of the chain are applied, and every effect that cannot be skipped
    (any effect unless the policy is classification, and the sustained ones
    under classification) is among them. *)
Theorem labels_mirror_applied_effects
    (R : Random) (X : Sox) (effects : list (string * value))
    (exercise : string) (sustain : list string)
    (w w' : world R) (labels : dict) (fx : chain) :
  NoDup (Dict.keys effects) ->
  augment_effects X effects exercise sustain w = (inr (labels, fx), w') ->
  labels = map mirror fx
  /\ incl (map fst fx) (Dict.keys effects)
  /\ forall e, In e (Dict.keys effects) ->
               may_skip exercise sustain e = false -> In e (Dict.keys labels).
Proof.
  intros Hnd H. unfold augment_effects in H.
  apply augment_effects_from in H as (Hm & added & Hfx & Hincl & Hall); auto.
  simpl in Hfx. subst added. split; [exact Hm|]. split; [exact Hincl|].
  intros e He Hno. rewrite Hm. unfold Dict.keys. rewrite map_map.
  now apply Hall.
Qed.

Lemma labels_mirror_applied_effects_witness :
  exists labels fx w',
    augment_effects Excerpt.transformer DeterminismSample.effects
      "classification" ["overdrive"; "reverb"] (Script.start [1; 57]%nat)
    = (inr (labels, fx), w')
    /\ labels = map mirror fx
    /\ In "reverb" (Dict.keys labels).
Proof.
  destruct (augment_effects Excerpt.transformer DeterminismSample.effects
              "classification" ["overdrive"; "reverb"] (Script.start [1; 57]%nat))
    as [[e|[labels fx]] w'] eqn:Hrun; [vm_compute in Hrun; discriminate Hrun|].
  exists labels, fx, w'. split; [reflexivity|].
  destruct (labels_mirror_applied_effects Script.generator Excerpt.transformer
              DeterminismSample.effects "classification" ["overdrive"; "reverb"]
              (Script.start [1; 57]%nat) w' labels fx) as (Hm & _ & Hall).
  - repeat constructor; simpl; intuition discriminate.
  - exact Hrun.
  - split; [exact Hm|]. apply Hall; [simpl; tauto | reflexivity].
Defined.

(** ** Flat labels *)






Lemma flat_mapping_set k v d :
  is_dict v = false -> flat_mapping d -> flat_mapping (Dict.set k v d).
Proof.
  intros Hv [Hflat Hnd]. split.
  - clear Hnd. induction d as [|[k' v'] d IH]; simpl.
    + now repeat constructor.
    + inversion Hflat; subst. destruct (String.eqb k k'); constructor; auto.
  - destruct (keys_set_cases k v d) as [->|[Hnot ->]]; [assumption|].
    apply NoDup_app; [assumption | repeat constructor; auto |].
    intros a Ha [<-|[]]. contradiction.
Qed.

Lemma flat_mapping_merge a b :
  flat_mapping a -> Forall (fun kv => is_dict (snd kv) = false) b ->
  flat_mapping (Dict.merge a b).
Proof.
  unfold Dict.merge. revert a; induction b as [|[k v] b IH]; intros a Ha Hb; simpl.
  - assumption.
  - inversion Hb; subst. apply IH; [|assumption]. now apply flat_mapping_set.
Qed.

Lemma flatten_value_flat (v : value) :
  forall par sep, flat_mapping (flatten_value v par sep).
Proof.
  induction v as [|b|z|q|s|l IH|d IH] using value_nested_ind; intros par sep;
    try (split; constructor).
  change (flatten_value (VDict d) par sep) with (flatten d par sep).
  rewrite flatten_fold.
  assert (G : forall store, flat_mapping store ->
                            flat_mapping (fold_left (flatten_step par sep) d store)).
  { induction d as [|[k v] d IHd]; intros store Hstore; simpl; [assumption|].
    inversion IH as [|? ? Hv Hd]; subst. apply (IHd Hd).
    unfold flatten_step; cbn [fst snd].
    destruct v; try (apply flat_mapping_set; [reflexivity | assumption]).
    apply flat_mapping_merge; [assumption|]. apply Hv. }
  apply G. split; constructor.
Qed.

(** X13.  Whatever the nesting of its argument, [flatten] returns a mapping
    with distinct keys none of whose values is a dictionary; and applied to
    its own result with the default arguments it puts one more separator in
    front of every key, so it is not idempotent. *)
Theorem flatten_result_is_flat (x : dict) (par sep : string) :
  flat_mapping (flatten x par sep)
  /\ flatten_labels (flatten x par sep)
     = map (fun kv => ("." ++ fst kv, snd kv)) (flatten x par sep).
Proof.
  assert (Hflat : flat_mapping (flatten x par sep)) by apply flatten_value_flat.
  split; [exact Hflat|]. destruct Hflat as [Hleaves Hnd].
  unfold flatten_labels at 1. rewrite flatten_fold, flatten_flat_from; auto.
  apply forallb_forall. intros kv Hkv. rewrite Forall_forall in Hleaves.
  now rewrite (Hleaves kv Hkv).
Qed.

Example flatten_twice :
  flatten_labels (flatten_labels [("overdrive", VDict [("gain_db", VInt 3)])])
  = [(".overdrive.gain_db", VInt 3)].
Proof. reflexivity. Qed.

Lemma flatten_labels_keys_witness :
  In "overdrive.gain_db"
     (Dict.keys (flatten_labels [("overdrive", VDict [("gain_db", VInt 3)])]))
  <-> exists path leaf,
        leaf_at (VDict [("overdrive", VDict [("gain_db", VInt 3)])]) path leaf
        /\ "overdrive.gain_db" = String.concat "." path.
Proof.
  apply (flatten_labels_keys [("overdrive", VDict [("gain_db", VInt 3)])]).
  intros k v [[= <- <-]|[]]. split; [discriminate | reflexivity].
Defined.

(** ** Files written by a track *)

Section KeepsFiles.
Context {R : Random}.

Lemma keeps_files_ret {A} (x : A) : keeps_files (R := R) (ret x).
Proof. intros w r w' [= <- <-]. auto. Qed.

Lemma keeps_files_raise {A} (e : exn) : keeps_files (R := R) (A := A) (raise e).
Proof. intros w r w' [= <- <-]. auto. Qed.

Lemma keeps_files_lift {A} (r : result A) : keeps_files (R := R) (lift r).
Proof. intros w r' w' [= <- <-]. auto. Qed.

Lemma keeps_files_bind {A B} (c : M (world R) A) (k : A -> M (world R) B) :
  keeps_files c -> (forall x, keeps_files (k x)) -> keeps_files (bind c k).
Proof.
  intros Hc Hk w r w'. unfold bind.
  destruct (c w) as [[e|x] w0] eqn:E; destruct (Hc _ _ _ E) as (Hw & Hd & Hn).
  - intros [= <- <-]. auto.
  - intros H. destruct (Hk x _ _ _ H) as (Hw' & Hd' & Hn').
    split; [congruence|]. split; congruence.
Qed.

Lemma keeps_files_draw_random : keeps_files (R := R) draw_random.
Proof.
  intros w r w'. unfold draw_random.
  destruct (random_random R (rng w)). intros [= <- <-]. auto.
Qed.

Lemma keeps_files_draw_below n : keeps_files (R := R) (draw_below n).
Proof.
  intros w r w'. unfold draw_below.
  destruct (randbelow R n (rng w)). intros [= <- <-]. auto.
Qed.

Lemma keeps_files_for_each {A B} (body : B -> A -> M (world R) B) l :
  (forall acc x, keeps_files (body acc x)) ->
  forall acc, keeps_files (for_each body l acc).
Proof.
  intros Hbody. induction l as [|x l IH]; intros acc; simpl.
  - apply keeps_files_ret.
  - apply keeps_files_bind; [apply Hbody | exact IH].
Qed.

Ltac files_step :=
  repeat match goal with
    | |- keeps_files (bind _ _) => apply keeps_files_bind; [|intros ?]
    | |- keeps_files (ret _) => apply keeps_files_ret
    | |- keeps_files (raise _) => apply keeps_files_raise
    | |- keeps_files (lift _) => apply keeps_files_lift
    | |- keeps_files draw_random => apply keeps_files_draw_random
    | |- keeps_files (draw_below _) => apply keeps_files_draw_below
    | |- keeps_files (if ?b then _ else _) => destruct b
    | |- keeps_files (match ?o with _ => _ end) => destruct o
    end.

Lemma keeps_files_rand x y : keeps_files (R := R) (rand x y).
Proof. unfold rand, uniform, randint, randrange. files_step. Qed.

Lemma keeps_files_resolve_param f_defaults effect used item :
  keeps_files (R := R) (resolve_param f_defaults effect used item).
Proof.
  unfold resolve_param. destruct item as [param val].
  files_step; apply keeps_files_rand.
Qed.

Lemma keeps_files_skipped exercise sustain effect :
  keeps_files (R := R) (skipped exercise sustain effect).
Proof. unfold skipped, choice. files_step. Qed.

Lemma keeps_files_apply_effect (X : Sox) exercise sustain acc item :
  keeps_files (R := R) (apply_effect X exercise sustain acc item).
Proof.
  unfold apply_effect. destruct acc as [labels fx], item as [effect parameters].
  apply keeps_files_bind; [apply keeps_files_skipped|]. intros skip.
  files_step. apply keeps_files_for_each. intros; apply keeps_files_resolve_param.
Qed.

Lemma keeps_files_augment_effects (X : Sox) effects exercise sustain :
  keeps_files (R := R) (augment_effects X effects exercise sustain).
Proof.
  unfold augment_effects. apply keeps_files_for_each.
  intros; apply keeps_files_apply_effect.
Qed.

Lemma keeps_files_choices {A} (population : list A) k :
  keeps_files (R := R) (choices population k).
Proof.
  induction k as [|k IH]; simpl; [apply keeps_files_ret|].
  apply keeps_files_bind; [apply keeps_files_draw_random|]. intros r.
  destruct (nth_error population _); [|apply keeps_files_raise].
  apply keeps_files_bind; [exact IH|]. intros; apply keeps_files_ret.
Qed.

End KeepsFiles.

Lemma augment_track_files
    (R : Random) (X : Sox) (L : Librosa) (file : string) (n : nat)
    (effects : list (string * value)) (exercise : string)
    (sustain : list string) (write : option string)
    (w w' : world R) (r : result (dict * list Q)) :
  augment_track X L file n effects exercise sustain write w = (r, w') ->
  dirs w' = dirs w /\ denied w' = denied w
  /\ match write, r with
     | None, _ => written w' = written w
     | Some dir, inr _ =>
         exists outfile, outfile_of dir file n = inr outfile
                         /\ written w' = (written w ++ [outfile])%list
     | Some dir, inl e =>
         written w' = written w
         \/ exists outfile labels fx w0,
              outfile_of dir file n = inr outfile
              /\ augment_effects X effects exercise sustain w = (inr (labels, fx), w0)
              /\ fails_late X file fx e
              /\ written w' = (written w ++ [outfile])%list
     end.
Proof.
  unfold augment_track. unfold bind at 1.
  destruct (augment_effects X effects exercise sustain w) as [[e|[labels fx]] w0] eqn:E;
    destruct (keeps_files_augment_effects X effects exercise sustain _ _ _ E)
      as (Hw & Hd & Hn).
  - intros [= <- <-]. split; [exact Hd|]. split; [exact Hn|].
    destruct write; auto.
  - destruct write as [dir|]; unfold bind, lift, ret, record_written.
    + destruct (outfile_of dir file n) as [e|outfile];
        [intros [= <- <-]; auto|].
      destruct (build X file (Some outfile) fx) as [e|copy];
        [intros [= <- <-]; auto|].
      destruct (build X file None fx) as [e|audio] eqn:Htmp.
      { intros [= <- <-]. cbn [written dirs denied].
        split; [exact Hd|]. split; [exact Hn|].
        right. exists outfile, labels, fx, w0.
        split; [reflexivity|]. split; [reflexivity|].
        split; [now left | now rewrite Hw]. }
      destruct (load X audio 41000) as [e|array] eqn:Hload.
      { intros [= <- <-]. cbn [written dirs denied].
        split; [exact Hd|]. split; [exact Hn|].
        right. exists outfile, labels, fx, w0.
        split; [reflexivity|]. split; [reflexivity|].
        split; [right; exists audio; now split | now rewrite Hw]. }
      intros [= <- <-]. cbn [written dirs denied].
      split; [exact Hd|]. split; [exact Hn|].
      exists outfile. split; [reflexivity | now rewrite Hw].
    + destruct (build X file None fx) as [e|audio]; [intros [= <- <-]; auto|].
      destruct (load X audio 41000) as [e|array]; intros [= <- <-]; auto.
Qed.

(** X15.  A call of [augment_track] never calls [os.makedirs], and the only
    file it can leave is the copy [<write>/<model>/<n>_<name>] of the source
    file: none without a destination, exactly that one when it returns with
    a destination, and at most that one when it raises.  A raising call does
    leave the copy behind when it fails late: when the effect loop and the
    rendering under the name went through and the rendering into the
    temporary file or the loader raised. *)
Theorem augment_track_writes_at_most_one_copy
    (R : Random) (X : Sox) (L : Librosa) (file : string) (n : nat)
    (effects : list (string * value)) (exercise : string)
    (sustain : list string) (write : option string)
    (w w' : world R) (r : result (dict * list Q)) :
  augment_track X L file n effects exercise sustain write w = (r, w') ->
  (dirs w' = dirs w
   /\ match write, r with
      | None, _ => written w' = written w
      | Some dir, inr _ =>
          exists outfile, outfile_of dir file n = inr outfile
                          /\ written w' = (written w ++ [outfile])%list
      | Some dir, inl e =>
          written w' = written w
          \/ exists outfile,
               outfile_of dir file n = inr outfile
               /\ written w' = (written w ++ [outfile])%list
      end)
  /\ (forall dir outfile labels fx w0 copy e,
        write = Some dir ->
        outfile_of dir file n = inr outfile ->
        augment_effects X effects exercise sustain w = (inr (labels, fx), w0) ->
        build X file (Some outfile) fx = inr copy ->
        fails_late X file fx e ->
        r = inl e /\ written w' = (written w ++ [outfile])%list).
Proof.
  intros H. split.
  - apply augment_track_files in H as (Hd & _ & Hw). split; [exact Hd|].
    destruct write as [dir|]; [|exact Hw]. destruct r as [e|]; [|exact Hw].
    destruct Hw as [Hw|(outfile & labels & fx & w0 & Hout & _ & _ & Hw)]; eauto.
  - intros dir outfile labels fx w0 copy e -> Hout E Hcopy Hlate.
    destruct (keeps_files_augment_effects X effects exercise sustain _ _ _ E)
      as (Hw & _).
    unfold augment_track in H. unfold bind at 1 in H. rewrite E in H.
    unfold bind, lift, ret, record_written in H. rewrite Hout, Hcopy in H.
    destruct Hlate as [Htmp|(audio & Htmp & Hload)]; rewrite Htmp in H;
      [|rewrite Hload in H]; injection H as <- <-; cbn [written];
      (split; [reflexivity | now rewrite Hw]).
Qed.

Lemma augment_track_writes_at_most_one_copy_witness :
  exists w',
    augment_track FaultSample.deaf Excerpt.extractor "data/strat/C.wav" 2
      DeterminismSample.effects "regression" ["overdrive"; "reverb"]
      (Some "augmented") (Script.start [300; 57]%nat)
    = (inl OSError, w')
    /\ written w' = ["augmented/strat/2_C.wav"].
Proof.
  destruct (augment_track FaultSample.deaf Excerpt.extractor "data/strat/C.wav" 2
              DeterminismSample.effects "regression" ["overdrive"; "reverb"]
              (Some "augmented") (Script.start [300; 57]%nat))
    as [r w'] eqn:Hrun.
  destruct (augment_effects FaultSample.deaf DeterminismSample.effects "regression"
              ["overdrive"; "reverb"] (Script.start [300; 57]%nat))
    as [[e|[labels fx]] w0] eqn:E; [vm_compute in E; discriminate E|].
  destruct (proj2 (augment_track_writes_at_most_one_copy _ _ _ _ _ _ _ _ _ _ _ _ Hrun)
              "augmented" "augmented/strat/2_C.wav" labels fx w0
              (repeat 0%Q (512 * String.length "data/strat/C.wav")) OSError
              eq_refl eq_refl E eq_refl
              (or_intror (ex_intro _ _ (conj eq_refl eq_refl))))
    as [-> Hw].
  exists w'. split; [reflexivity | exact Hw].
Defined.

(** ** Files written by a run *)

Section RunFiles.
Context {R : Random} (X : Sox) (L : Librosa).

Lemma makedirs_all_inv (f : string -> string) (l : list string) :
  forall (acc u : unit) (w w' : world R),
    for_each (fun _ m => makedirs (f m)) l acc w = (inr u, w') ->
    w' = World (rng w) (written w) (dirs w ++ map f l)%list (denied w)
    /\ Forall (fun m => denied w (f m) = None) l.
Proof.
  induction l as [|m l IH]; intros acc u w w'; simpl.
  - intros [= _ <-]. rewrite app_nil_r. split; [now destruct w | constructor].
  - intros H. apply bind_inv in H as (acc' & w1 & Hm & H).
    unfold makedirs in Hm. destruct (denied w (f m)) eqn:Hdenied; [discriminate|].
    injection Hm as _ <-. apply IH in H as [-> Hall].
    cbn [rng written dirs denied] in *. rewrite <- app_assoc.
    split; [reflexivity|]. constructor; assumption.
Qed.

Lemma confirm_write_inv (a : arguments) (cfg : augmentation_config)
    (w w' : world R) (write : option string) :
  confirm_write a cfg w = (inr write, w') ->
  write = write_destination a cfg
  /\ w' = World (rng w) (written w) (dirs w ++ made_dirs a)%list (denied w)
  /\ Forall (fun p => denied w p = None) (made_dirs a).
Proof.
  assert (Hsame : World (rng w) (written w) (dirs w ++ [])%list (denied w) = w)
    by (rewrite app_nil_r; now destruct w).
  unfold confirm_write, write_destination, made_dirs, out_dir.
  destruct (write_with_effects_to a) as [dest|].
  - destruct (String.eqb dest "").
    + intros [= <- <-]. rewrite Hsame. auto.
    + destruct (INTERIM_DIR a) as [interim|]; [|discriminate].
      intros H. apply bind_inv in H as (u & w1 & Hok & H).
      apply lift_inv in Hok as [_ ->].
      apply bind_inv in H as (u' & w2 & Hdirs & H).
      apply ret_inv in H as [-> ->].
      apply makedirs_all_inv in Hdirs as [-> Hall].
      split; [reflexivity|]. split; [reflexivity|].
      apply Forall_map. exact Hall.
  - intros [= <- <-]. rewrite Hsame. auto.
Qed.



Lemma persist_inv (a : arguments) (w w' : world R) (u : unit) :
  persist a w = (inr u, w') ->
  w' = World (rng w) (written w ++ artifacts a)%list (dirs w) (denied w)
  /\ Forall (fun p => denied w p = None) (artifacts a).
Proof.
  unfold persist, artifacts. destruct (make_training_set a).
  - unfold bind, write_file, record_written.
    destruct (denied w (array_file a)) eqn:Harray; [discriminate|].
    cbn [rng written dirs denied].
    destruct (denied w (table_file a)) eqn:Htable; [discriminate|].
    intros [= _ <-]. cbn [rng written dirs denied]. rewrite <- app_assoc.
    split; [reflexivity|]. repeat constructor; assumption.
  - intros [= _ <-]. rewrite app_nil_r. split; [now destruct w | constructor].
Qed.

Lemma persist_error (a : arguments) (w w' : world R) (e : exn) :
  persist a w = (inl e, w') ->
  make_training_set a = true
  /\ dirs w' = dirs w
  /\ ((denied w (array_file a) = Some e /\ written w' = written w)
      \/ (denied w (array_file a) = None
          /\ denied w (table_file a) = Some e
          /\ written w' = (written w ++ [array_file a])%list)).
Proof.
  unfold persist. destruct (make_training_set a); [|discriminate].
  unfold bind, write_file, record_written.
  destruct (denied w (array_file a)) eqn:Harray.
  - intros [= <- <-]. auto.
  - cbn [rng written dirs denied].
    destruct (denied w (table_file a)) eqn:Htable; [|discriminate].
    intros [= <- <-]. cbn [written dirs]. auto 6.
Qed.

End RunFiles.



(** ** The assembled dataset, row by row *)

Lemma sampled_app {S A B} (step : A -> M S B) todo1 s rows1 s1 :
  sampled step todo1 s rows1 s1 ->
  forall todo2 rows2 s2,
    sampled step todo2 s1 rows2 s2 ->
    sampled step (todo1 ++ todo2) s (rows1 ++ rows2) s2.
Proof.
  induction 1 as [|x todo s r sa rows sb Hstep _ IH]; intros todo2 rows2 s2 H2;
    simpl; [assumption|].
  econstructor; [exact Hstep|]. now apply IH.
Qed.

Lemma sampled_nth {S A B} (step : A -> M S B) todo s rows s' :
  sampled step todo s rows s' ->
  List.length rows = List.length todo
  /\ forall j x, nth_error todo j = Some x ->
       exists r sj sj', nth_error rows j = Some r /\ step x sj = (inr r, sj').
Proof.
  induction 1 as [|x todo s r sa rows sb Hstep _ [IHlen IH]]; simpl.
  - split; [reflexivity|]. intros [|j] x; discriminate.
  - split; [now rewrite IHlen|]. intros [|j] y; simpl.
    + intros [= <-]. eauto.
    + apply IH.
Qed.

Lemma sampled_app_inv {S A B} (step : A -> M S B) todo1 todo2 :
  forall s rows s2,
    sampled step (todo1 ++ todo2) s rows s2 ->
    exists rows1 rows2 s1,
      rows = (rows1 ++ rows2)%list
      /\ sampled step todo1 s rows1 s1 /\ sampled step todo2 s1 rows2 s2.
Proof.
  induction todo1 as [|x todo1 IH]; intros s rows s2 H; simpl in H.
  - exists [], rows, s. split; [reflexivity|]. split; [constructor | exact H].
  - inversion H as [|? ? ? r sa rows' ? Hstep Hrest]; subst.
    apply IH in Hrest as (rows1 & rows2 & s1 & -> & H1 & H2).
    exists (r :: rows1), rows2, s1. split; [reflexivity|].
    split; [econstructor; eauto | exact H2].
Qed.

Lemma bind_returns {S A B} (c : M S A) (k : A -> M S B) s x s0 :
  c s = (inr x, s0) -> bind c k s = k x s0.
Proof. unfold bind. now intros ->. Qed.

Lemma Forall2_at {A B} (P : A -> B -> Prop) l l' :
  Forall2 P l l' ->
  forall j x, nth_error l j = Some x ->
              exists y, nth_error l' j = Some y /\ P x y.
Proof.
  induction 1 as [|x0 y0 l l' Hp _ IH]; intros [|j] x; simpl; try discriminate.
  - intros [= <-]. eauto.
  - apply IH.
Qed.

Lemma repeat_each_map {A B} (f : A -> B) n (l : list A) :
  repeat_each n (map f l) = map f (repeat_each n l).
Proof.
  unfold repeat_each. induction l as [|x l IH]; simpl; [reflexivity|].
  rewrite map_app, IH. f_equal.
  clear. induction n as [|n IHn]; simpl; [reflexivity | now rewrite IHn].
Qed.

Lemma jobs_cons sf files n :
  jobs (sf :: files) n = (map (pair sf) (seq 0 n) ++ jobs files n)%list.
Proof. reflexivity. Qed.

(** The repeated metadata follow the turns of the loop. *)
Lemma jobs_follow {A} (P : string -> A -> Prop) n files (meta : list A) :
  Forall2 P files meta ->
  Forall2 (fun job m => P (fst job) m) (jobs files n) (repeat_each n meta).
Proof.
  induction 1 as [|sf m files meta Hp _ IH]; [constructor|].
  rewrite jobs_cons.
  change (repeat_each n (m :: meta)) with (repeat m n ++ repeat_each n meta)%list.
  apply Forall2_app; [|exact IH].
  clear IH. generalize 0%nat as start.
  induction n as [|n IHn]; intros start; simpl; constructor; auto.
Qed.

Lemma set_column_from_nth i name values df :
  forall j row,
    nth_error df j = Some row ->
    nth_error (set_column_from i name values df) j
    = Some (match nth_error values (i + j) with
            | Some v => Dict.set name v row
            | None => Dict.remove name row
            end).
Proof.
  revert i; induction df as [|row0 df IH]; intros i [|j] row; simpl;
    try discriminate.
  - intros [= <-]. now rewrite Nat.add_0_r.
  - intros H. rewrite (IH (S i) j row H). now rewrite Nat.add_succ_r.
Qed.

(** A column of the right length sets its value in every row. *)
Lemma set_column_nth name values df j row v :
  nth_error df j = Some row -> nth_error values j = Some v ->
  nth_error (set_column name values df) j = Some (Dict.set name v row).
Proof.
  intros Hrow Hv. unfold set_column.
  rewrite (set_column_from_nth 0 name values df j row Hrow). simpl.
  now rewrite Hv.
Qed.

(** [pad] on feature vectors expanded to one column. *)
Lemma columns_pad (features : list (list Q)) :
  features <> [] ->
  exists batch,
    pad (map expand_dims features) = inr batch
    /\ Forall2
         (fun f out =>
            shape out = (list_max (map (@List.length Q) features), 1%nat)
            /\ forall i, (i < list_max (map (@List.length Q) features))%nat ->
                         item out i 0 = Some (nth i f 0%Q))
         features batch.
Proof.
  intros Hne. set (longest := list_max (map (@List.length Q) features)).
  assert (Hmax : py_max_by_first (map shape (map expand_dims features))
                 = inr (longest, 1%nat)).
  { destruct features as [|f0 features]; [congruence|]. cbn [map py_max_by_first].
    f_equal. apply injective_projections.
    - rewrite max_by_first_list_max. unfold longest.
      cbn [map list_max fold_right fst shape shape0 expand_dims].
      f_equal. rewrite !map_map. reflexivity.
    - assert (Hone : forall s, In s (shape (expand_dims f0)
                                      :: map shape (map expand_dims features)) ->
                                snd s = 1%nat).
      { intros s [<-|Hin]; [reflexivity|]. rewrite map_map in Hin.
        apply in_map_iff in Hin as (f & <- & _). reflexivity. }
      apply Hone, max_by_first_In. }
  unfold pad. rewrite Hmax.
  destruct (map_padder_fits (map expand_dims features) longest 1)
    as (batch & Hb & Hslices & Hshapes).
  - apply Forall_forall. intros a Ha. apply in_map_iff in Ha as (f & <- & _).
    apply expand_dims_wf.
  - apply Forall_forall. intros a Ha. split.
    + apply (py_max_by_first_bounds _ (longest, 1%nat) (shape a) Hmax). now apply in_map.
    + apply in_map_iff in Ha as (f & <- & _). cbn. lia.
  - exists batch. split; [exact Hb|]. now apply column_slices.
Qed.

Lemma columns_padded (features : list (list Q)) (batch : list array2) :
  pad (map expand_dims features) = inr batch ->
  Forall2
    (fun f out =>
       shape out = (list_max (map (@List.length Q) features), 1%nat)
       /\ forall i, (i < list_max (map (@List.length Q) features))%nat ->
                    item out i 0 = Some (nth i f 0%Q))
    features batch.
Proof.
  intros Hpad.
  assert (Hne : features <> []) by (intros ->; discriminate Hpad).
  destruct (columns_pad features Hne) as (batch' & Hb & HF).
  rewrite Hb in Hpad. injection Hpad as <-. exact HF.
Qed.

Section RowByRow.
Context {R : Random} (X : Sox) (L : Librosa).

Lemma repetitions_sampled file effects exercise sustain write reps :
  forall store (w w' : world R) store',
    for_each
      (fun store i =>
         bind (augment_track X L file i effects exercise sustain write)
              (fun r => ret (store ++ [r])%list))
      reps store w = (inr store', w') ->
    exists rows,
      store' = (store ++ rows)%list
      /\ sampled (fun job => augment_track X L (fst job) (snd job) effects
                               exercise sustain write)
                 (map (pair file) reps) w rows w'.
Proof.
  induction reps as [|i reps IH]; intros store w w' store' H; cbn [for_each map] in *.
  - apply ret_inv in H as [-> ->]. exists []. rewrite app_nil_r.
    split; [reflexivity | constructor].
  - apply bind_inv in H as (store1 & w1 & Hstep & H).
    apply bind_inv in Hstep as (r & w0 & Htrack & Hret).
    apply ret_inv in Hret as [-> ->].
    apply IH in H as (rows & -> & Hrows).
    exists (r :: rows). rewrite <- app_assoc. split; [reflexivity|].
    econstructor; [exact Htrack | exact Hrows].
Qed.

Lemma augment_all_sampled files n effects exercise sustain write :
  forall store (w w' : world R) store',
    for_each
      (fun store sf =>
         for_each
           (fun store i =>
              bind (augment_track X L sf i effects exercise sustain write)
                   (fun r => ret (store ++ [r])%list))
           (seq 0 n) store)
      files store w = (inr store', w') ->
    exists rows,
      store' = (store ++ rows)%list
      /\ sampled (fun job => augment_track X L (fst job) (snd job) effects
                               exercise sustain write)
                 (jobs files n) w rows w'.
Proof.
  induction files as [|sf files IH]; intros store w w' store' H; cbn [for_each] in H.
  - apply ret_inv in H as [-> ->]. exists []. rewrite app_nil_r.
    split; [reflexivity | constructor].
  - apply bind_inv in H as (store1 & w1 & Hinner & H).
    apply repetitions_sampled in Hinner as (rows1 & -> & Hrows1).
    apply IH in H as (rows & -> & Hrows).
    exists (rows1 ++ rows)%list. rewrite <- app_assoc. split; [reflexivity|].
    rewrite jobs_cons. eapply sampled_app; eauto.
Qed.

Lemma repetitions_of_sampled file effects exercise sustain write reps :
  forall store (w w' : world R) rows,
    sampled (fun job => augment_track X L (fst job) (snd job) effects
                          exercise sustain write)
            (map (pair file) reps) w rows w' ->
    for_each
      (fun store i =>
         bind (augment_track X L file i effects exercise sustain write)
              (fun r => ret (store ++ [r])%list))
      reps store w
    = (inr (store ++ rows)%list, w').
Proof.
  induction reps as [|i reps IH]; intros store w w' rows H;
    cbn [map] in H; cbn [for_each].
  - inversion H; subst. unfold ret. now rewrite app_nil_r.
  - inversion H as [|? ? ? r sa rows' ? Hstep Hrest]; subst.
    cbn [fst snd] in Hstep.
    erewrite bind_returns; [|erewrite bind_returns; [reflexivity | exact Hstep]].
    rewrite (IH _ _ _ _ Hrest). now rewrite <- app_assoc.
Qed.

Lemma augment_all_of_sampled files n effects exercise sustain write :
  forall store (w w' : world R) rows,
    sampled (fun job => augment_track X L (fst job) (snd job) effects
                          exercise sustain write)
            (jobs files n) w rows w' ->
    for_each
      (fun store sf =>
         for_each
           (fun store i =>
              bind (augment_track X L sf i effects exercise sustain write)
                   (fun r => ret (store ++ [r])%list))
           (seq 0 n) store)
      files store w
    = (inr (store ++ rows)%list, w').
Proof.
  induction files as [|sf files IH]; intros store w w' rows H; cbn [for_each].
  - unfold jobs in H. cbn [flat_map] in H. inversion H; subst.
    unfold ret. now rewrite app_nil_r.
  - rewrite jobs_cons in H.
    apply sampled_app_inv in H as (rows1 & rows2 & w1 & -> & H1 & H2).
    erewrite bind_returns; [|apply repetitions_of_sampled; exact H1].
    rewrite (IH _ _ _ _ H2). now rewrite app_assoc.
Qed.

End RowByRow.

(** C4.  A run of [augment_data] that returns has gone over a list of
    files (the files found, or the sample drawn from them) and, with [F]
    the number of those files and [n] the repetition count, the tensor and
    the table both have [F * n] rows, row by row from the same augmented
    sample and in the order of the loop: the store of samples is what
    [augment_track] returned turn after turn, file by file and repetition by
    repetition, each turn starting from the world the one before left; row
    [j] of the table is the labels of sample [j] with the model and the chord
    parsed from the path of its file, and slice [j] of the tensor is the
    feature vector of the same sample, as one column followed by zeros up to
    the longest vector.  The [group] column counts [0 .. n-1] within each
    block of [n] rows, and the [model] and [chords] columns repeat the value
    parsed from each file's path [n] times in a row.  Conversely the run
    does return whenever the files are drawn, the effects are valid, the
    write request is confirmed, every turn of the loop returns, there is at
    least one sample, every path parses and the training set is saved. *)
Theorem augment_data_rows
    (R : Random) (X : Sox) (L : Librosa) (a : arguments)
    (cfg : augmentation_config) (w : world R) :
  (forall (X_train : list array2) (Y_train : DataFrame) (w' : world R),
     augment_data X L a cfg w = (inr (X_train, Y_train), w') ->
     exists (files : list string) (meta : list (string * string))
            (store_all : list (dict * list Q))
            (effects : dict) (write : option string) (w0 w1 w2 : world R),
       match subsample a with
       | Some k => List.length files = k
       | None => files = train_soundfiles a
       end
       /\ map_result (file_meta (source a)) files = inr meta
       /\ List.length X_train = (List.length files * n_augment a)%nat
       /\ List.length Y_train = (List.length files * n_augment a)%nat
       /\ column "group" Y_train
          = List.concat (map (fun _ => map group_cell (seq 0 (n_augment a))) files)
       /\ column "model" Y_train
          = map Some (map VStr (repeat_each (n_augment a) (map fst meta)))
       /\ column "chords" Y_train
          = map Some (map VStr (repeat_each (n_augment a) (map snd meta)))
       /\ pad (map expand_dims (map snd store_all)) = inr X_train
       /\ Y_train
          = set_column "chords" (map VStr (repeat_each (n_augment a) (map snd meta)))
              (set_column "model" (map VStr (repeat_each (n_augment a) (map fst meta)))
                 (map fst store_all))
       /\ match subsample a with
          | Some k => choices (train_soundfiles a) k w = (inr files, w0)
          | None => w0 = w
          end
       /\ effect_chain X cfg = inr effects
       /\ confirm_write a cfg w0 = (inr write, w1)
       /\ sampled (fun job => augment_track X L (fst job) (snd job) effects
                                (exercise_of cfg) (sustain_of cfg) write)
                  (jobs files (n_augment a)) w1 store_all w2
       /\ persist a w2 = (inr tt, w')
       /\ rng w' = rng w2
       /\ forall j sf i,
            nth_error (jobs files (n_augment a)) j = Some (sf, i) ->
            exists labels features model chord out,
              nth_error store_all j = Some (labels, features)
              /\ Dict.lookup "group" labels = group_cell i
              /\ file_meta (source a) sf = inr (model, chord)
              /\ nth_error Y_train j
                 = Some (Dict.set "chords" (VStr chord)
                           (Dict.set "model" (VStr model) labels))
              /\ nth_error X_train j = Some out
              /\ shape out
                 = (list_max (map (@List.length Q) (map snd store_all)), 1%nat)
              /\ forall k,
                   (k < list_max (map (@List.length Q) (map snd store_all)))%nat ->
                   item out k 0 = Some (nth k features 0%Q))
  /\
  (forall (files : list string) (meta : list (string * string))
          (store_all : list (dict * list Q)) (effects : dict)
          (write : option string) (w0 w1 w2 w' : world R),
     match subsample a with
     | Some k => choices (train_soundfiles a) k w = (inr files, w0)
     | None => files = train_soundfiles a /\ w0 = w
     end ->
     effect_chain X cfg = inr effects ->
     confirm_write a cfg w0 = (inr write, w1) ->
     sampled (fun job => augment_track X L (fst job) (snd job) effects
                           (exercise_of cfg) (sustain_of cfg) write)
             (jobs files (n_augment a)) w1 store_all w2 ->
     store_all <> [] ->
     map_result (file_meta (source a)) files = inr meta ->
     persist a w2 = (inr tt, w') ->
     exists X_train Y_train,
       augment_data X L a cfg w = (inr (X_train, Y_train), w')).
Proof.
  split.
  2: {
    intros files meta store_all effects write w0 w1 w2 w'
      Hfiles Heff Hwrite Hsampled Hne Hmeta Hsave.
    assert (Hdraw :
      (match subsample a with
       | Some k => choices (train_soundfiles a) k
       | None => ret (train_soundfiles a)
       end) w = (inr files, w0)).
    { destruct (subsample a); [exact Hfiles|]. destruct Hfiles as [-> ->].
      reflexivity. }
    destruct (columns_pad (map snd store_all)) as (batch & Hpad & _).
    { destruct store_all; [congruence | discriminate]. }
    assert (Hunzip : unzip2 store_all = inr (map fst store_all, map snd store_all))
      by (destruct store_all; [congruence | reflexivity]).
    assert (Hmetas : unzip2 meta = inr (map fst meta, map snd meta)).
    { destruct meta as [|m meta]; [|reflexivity].
      apply map_result_length in Hmeta. destruct files; [|discriminate Hmeta].
      unfold jobs in Hsampled. cbn [flat_map] in Hsampled.
      inversion Hsampled; subst. congruence. }
    eexists. eexists. unfold augment_data.
    rewrite (bind_returns _ _ _ _ _ Hdraw).
    erewrite bind_returns; [|unfold lift; rewrite Heff; reflexivity].
    rewrite (bind_returns _ _ _ _ _ Hwrite).
    erewrite bind_returns;
      [|unfold augment_all; apply (augment_all_of_sampled X L) with (store := []);
        exact Hsampled].
    cbn [app].
    erewrite bind_returns; [|unfold lift; rewrite Hunzip; reflexivity].
    cbv beta iota zeta.
    erewrite bind_returns; [|unfold lift; rewrite Hpad; reflexivity].
    erewrite bind_returns; [|unfold lift; rewrite Hmeta; reflexivity].
    erewrite bind_returns; [|unfold lift; rewrite Hmetas; reflexivity].
    cbv beta iota zeta.
    erewrite bind_returns; [|exact Hsave].
    reflexivity. }
  intros X_train Y_train w' H. unfold augment_data in H.
  apply bind_inv in H as (files & w0 & Hfiles & H).
  apply bind_inv in H as (effects & w2 & Heff & H).
  apply lift_inv in Heff as [Heff ->].
  apply bind_inv in H as (write & w1 & Hwrite & H).
  apply bind_inv in H as (store_all & w4 & Hstore & H).
  apply bind_inv in H as ([labels features] & w5 & Hunzip & H).
  apply lift_inv in Hunzip as [Hunzip ->].
  apply unzip2_inv in Hunzip as [-> ->].
  apply bind_inv in H as (batch & w6 & Hpad & H).
  apply lift_inv in Hpad as [Hpad ->].
  apply bind_inv in H as (meta & w7 & Hmeta & H).
  apply lift_inv in Hmeta as [Hmeta ->].
  apply bind_inv in H as ([models chordnames] & w8 & Hmc & H).
  apply lift_inv in Hmc as [Hmc ->].
  apply unzip2_inv in Hmc as [-> ->].
  apply bind_inv in H as (u & w9 & Hsave & H).
  apply ret_inv in H as [E ->]. injection E as -> ->.
  destruct u. pose proof Hsave as Hpersist.
  apply (persist_inv a) in Hsave as [Hw9 _].
  (* the rows of the store *)
  unfold augment_all in Hstore.
  destruct (augment_all_groups X L _ _ _ _ _ _ _ _ _ _ Hstore)
    as (rows & Hrows & Hgroups).
  simpl in Hrows. subst rows.
  apply augment_all_sampled in Hstore as (rows & Hrows & Hsampled).
  simpl in Hrows. subst rows.
  assert (Hcount : List.length store_all = (List.length files * n_augment a)%nat).
  { pose proof (f_equal (@List.length _) Hgroups) as Hlen.
    now rewrite List.length_map, concat_groups_length in Hlen. }
  assert (Hm : List.length meta = List.length files)
    by (eapply map_result_length; eauto).
  set (models := map VStr (repeat_each (n_augment a) (map fst meta))).
  set (chords := map VStr (repeat_each (n_augment a) (map snd meta))).
  assert (Hmodels : List.length models = List.length (map fst store_all)).
  { unfold models. now rewrite !List.length_map, repeat_each_length, List.length_map, Hm. }
  assert (Hchords : List.length chords
                    = List.length (set_column "model" models (map fst store_all))).
  { unfold chords. rewrite set_column_length.
    now rewrite !List.length_map, repeat_each_length, List.length_map, Hm. }
  assert (Hrow : forall j sf i,
    nth_error (jobs files (n_augment a)) j = Some (sf, i) ->
    exists labels features model chord out,
      nth_error store_all j = Some (labels, features)
      /\ Dict.lookup "group" labels = group_cell i
      /\ file_meta (source a) sf = inr (model, chord)
      /\ nth_error (set_column "chords" chords
                      (set_column "model" models (map fst store_all))) j
         = Some (Dict.set "chords" (VStr chord)
                   (Dict.set "model" (VStr model) labels))
      /\ nth_error batch j = Some out
      /\ shape out
         = (list_max (map (@List.length Q) (map snd store_all)), 1%nat)
      /\ forall k,
           (k < list_max (map (@List.length Q) (map snd store_all)))%nat ->
           item out k 0 = Some (nth k features 0%Q)).
  { intros j sf i Hjob.
    destruct (sampled_nth _ _ _ _ _ Hsampled) as [_ Hturn].
    destruct (Hturn j (sf, i) Hjob) as ([labels features] & wj & wj' & Hnth & Hstep).
    cbn [fst snd] in Hstep.
    pose proof (augment_track_group X L _ _ _ _ _ _ _ _ _ _ Hstep) as Hgroup.
    pose proof (jobs_follow _ (n_augment a) _ _ (map_result_Forall2 _ _ _ Hmeta))
      as Hfollow.
    destruct (Forall2_at _ _ _ Hfollow j (sf, i) Hjob) as ([model chord] & Hmj & Hfm).
    cbn [fst] in Hfm.
    destruct (Forall2_at _ _ _ (columns_padded _ _ Hpad) j features
                (map_nth_error snd j store_all Hnth))
      as (out & Hout & Hshape & Hitems).
    exists labels, features, model, chord, out.
    split; [exact Hnth|]. split; [exact Hgroup|]. split; [exact Hfm|].
    split; [|split; [exact Hout|split; [exact Hshape | exact Hitems]]].
    apply set_column_nth.
    - apply set_column_nth.
      + exact (map_nth_error fst j store_all Hnth).
      + unfold models. rewrite repeat_each_map, map_map.
        exact (map_nth_error (fun m => VStr (fst m)) j _ Hmj).
    - unfold chords. rewrite repeat_each_map, map_map.
      exact (map_nth_error (fun m => VStr (snd m)) j _ Hmj). }
  exists files, meta, store_all, effects, write, w0, w1, w4.
  repeat match goal with |- _ /\ _ => split end.
  - destruct (subsample a) as [k|].
    + eapply choices_length; eauto.
    + now apply ret_inv in Hfiles as [-> _].
  - exact Hmeta.
  - unfold pad in Hpad. destruct (py_max_by_first _); [discriminate|].
    apply map_result_length in Hpad. now rewrite Hpad, !List.length_map.
  - now rewrite !set_column_length, List.length_map.
  - rewrite !column_set_column_other by discriminate.
    unfold column. rewrite map_map. exact Hgroups.
  - rewrite column_set_column_other by discriminate.
    now apply column_set_column_same.
  - now apply column_set_column_same.
  - exact Hpad.
  - reflexivity.
  - destruct (subsample a) as [k|]; [exact Hfiles|].
    now apply ret_inv in Hfiles as [_ ->].
  - exact Heff.
  - exact Hwrite.
  - exact Hsampled.
  - exact Hpersist.
  - now rewrite Hw9.
  - exact Hrow.
Qed.

Lemma augment_data_rows_witness :
  exists (files : list string) (meta : list (string * string))
         (store_all : list (dict * list Q)) X_train Y_train,
    fst (augment_data Excerpt.transformer Excerpt.extractor Sample.args
           Sample.config (Script.start [])) = inr (X_train, Y_train)
    /\ files = ["data/strat/C.wav"; "data/strat/Gmaj.wav"]
    /\ meta = [("strat", "C"); ("strat", "Gmaj")]
    /\ List.length X_train = 4%nat
    /\ List.length Y_train = 4%nat
    /\ column "group" Y_train
       = [Some (VInt 0); Some (VInt 1); Some (VInt 0); Some (VInt 1)]
    /\ column "model" Y_train
       = [Some (VStr "strat"); Some (VStr "strat"); Some (VStr "strat"); Some (VStr "strat")]
    /\ column "chords" Y_train
       = [Some (VStr "C"); Some (VStr "C"); Some (VStr "Gmaj"); Some (VStr "Gmaj")].
Proof.
  destruct (augment_data Excerpt.transformer Excerpt.extractor Sample.args
              Sample.config (Script.start [])) as [[e|[X_train Y_train]] w'] eqn:Hrun;
    [vm_compute in Hrun; discriminate Hrun|].
  destruct (proj1 (augment_data_rows Script.generator Excerpt.transformer
                     Excerpt.extractor Sample.args Sample.config (Script.start []))
              X_train Y_train w' Hrun)
    as (files & meta & store_all & effects & write & w0 & w1 & w2
        & Hfiles & Hmeta & HX & HY & Hg & Hm & Hc & _).
  simpl in Hfiles. subst files.
  vm_compute in Hmeta. injection Hmeta as <-.
  exists ["data/strat/C.wav"; "data/strat/Gmaj.wav"], [("strat", "C"); ("strat", "Gmaj")],
    store_all, X_train, Y_train.
  repeat split; assumption.
Defined.

(** ** Runs that fail or have nothing to do *)

Section RunOutcomes.
Context {R : Random} (X : Sox) (L : Librosa).

Lemma bind_error_inv {S A B} (c : M S A) (k : A -> M S B) s e s' :
  bind c k s = (inl e, s') ->
  c s = (inl e, s') \/ exists x s0, c s = (inr x, s0) /\ k x s0 = (inl e, s').
Proof.
  unfold bind. destruct (c s) as [[e0|x] s0]; intros H;
    [left; now injection H as -> -> | right; eauto].
Qed.

Lemma keeps_files_track_without_write file n effects exercise sustain :
  keeps_files (augment_track (R := R) X L file n effects exercise sustain None).
Proof.
  intros w r w' H. apply augment_track_files in H as (Hd & Hn & Hw). auto.
Qed.

Lemma keeps_files_augment_all_without_write files n effects exercise sustain :
  keeps_files (augment_all (R := R) X L files n effects exercise sustain None).
Proof.
  unfold augment_all. apply keeps_files_for_each. intros store sf.
  apply keeps_files_for_each. intros store' i.
  apply keeps_files_bind; [apply keeps_files_track_without_write|].
  intros; apply keeps_files_ret.
Qed.

Lemma keeps_files_confirm_without_destination
    (a : arguments) (cfg : augmentation_config) :
  write_destination a cfg = None ->
  keeps_files (confirm_write (R := R) a cfg).
Proof.
  unfold write_destination, out_dir, confirm_write.
  destruct (write_with_effects_to a) as [dest|]; [|intros; apply keeps_files_ret].
  destruct (String.eqb dest ""); [intros; apply keeps_files_ret|].
  destruct (INTERIM_DIR a); [discriminate|]. intros; apply keeps_files_raise.
Qed.

Lemma augment_all_nothing files n effects exercise sustain write (w : world R) :
  files = [] \/ n = 0%nat ->
  augment_all X L files n effects exercise sustain write w = (inr [], w).
Proof.
  unfold augment_all. intros [->| ->]; [reflexivity|].
  generalize (@nil (dict * list Q)) as store.
  induction files as [|sf files IH]; intros store; simpl; [reflexivity|].
  unfold bind, ret. apply IH.
Qed.

(** What a returning run went through: the files iterated and the store of
    augmented samples. *)
Lemma augment_data_inv (a : arguments) (cfg : augmentation_config)
    (w w' : world R) (X_train : list array2) (Y_train : DataFrame) :
  augment_data X L a cfg w = (inr (X_train, Y_train), w') ->
  exists files w1 (store_all : list (dict * list Q)),
    match subsample a with
    | Some k => choices (train_soundfiles a) k w = (inr files, w1)
    | None => files = train_soundfiles a
    end
    /\ store_all <> []
    /\ List.length store_all = (List.length files * n_augment a)%nat
    /\ List.length X_train = List.length store_all
    /\ List.length Y_train = List.length store_all.
Proof.
  intros H. unfold augment_data in H.
  apply bind_inv in H as (files & w1 & Hfiles & H).
  apply bind_inv in H as (effects & w2 & _ & H).
  apply bind_inv in H as (write & w3 & _ & H).
  apply bind_inv in H as (store_all & w4 & Hstore & H).
  apply bind_inv in H as ([labels features] & w5 & Hunzip & H).
  apply lift_inv in Hunzip as [Hunzip ->].
  assert (Hne : store_all <> []) by (intros ->; discriminate Hunzip).
  apply unzip2_inv in Hunzip as [-> ->].
  apply bind_inv in H as (batch & w6 & Hpad & H).
  apply lift_inv in Hpad as [Hpad ->].
  apply bind_inv in H as (meta & w7 & _ & H).
  apply bind_inv in H as ([models chordnames] & w8 & _ & H).
  apply bind_inv in H as (u & w9 & _ & H).
  apply ret_inv in H as [E _]. injection E as -> ->.
  unfold augment_all in Hstore.
  apply augment_all_groups in Hstore as (rows & Hrows & Hgroups).
  simpl in Hrows. subst rows.
  pose proof (f_equal (@List.length _) Hgroups) as Hlen.
  rewrite List.length_map, concat_groups_length in Hlen.
  exists files, w1, store_all. repeat split; try assumption.
  - destruct (subsample a); [exact Hfiles|].
    now apply ret_inv in Hfiles as [-> _].
  - unfold pad in Hpad. destruct (py_max_by_first _); [discriminate|].
    apply map_result_length in Hpad. now rewrite Hpad, !List.length_map.
  - now rewrite !set_column_length, List.length_map.
Qed.


(** A run without a write destination that raises either left the file
    system as it was, or reached the last step and raised there. *)
Lemma augment_data_error_inv (a : arguments) (cfg : augmentation_config)
    (w w' : world R) (e : exn) :
  write_destination a cfg = None ->
  augment_data X L a cfg w = (inl e, w') ->
  (written w' = written w /\ dirs w' = dirs w /\ denied w' = denied w)
  \/ exists w0, written w0 = written w /\ dirs w0 = dirs w
                /\ denied w0 = denied w /\ persist a w0 = (inl e, w').
Proof.
  intros Hdest H. unfold augment_data in H.
  assert (Kfiles : keeps_files (R := R)
            (match subsample a with
             | Some k => choices (train_soundfiles a) k
             | None => ret (train_soundfiles a)
             end))
    by (destruct (subsample a); [apply keeps_files_choices | apply keeps_files_ret]).
  apply bind_error_inv in H as [H|(files & w1 & Hgo & H)];
    [left; exact (Kfiles _ _ _ H)|].
  destruct (Kfiles _ _ _ Hgo) as (Hw1 & Hd1 & Hn1). clear Hgo.
  apply bind_error_inv in H as [H|(effects & w2 & Hgo & H)];
    [left; injection H as _ <-; auto|].
  apply lift_inv in Hgo as [_ ->].
  apply bind_error_inv in H as [H|(write & w3 & Hgo & H)].
  { left. destruct (keeps_files_confirm_without_destination a cfg Hdest _ _ _ H)
      as (? & ? & ?). split; [congruence|]. split; congruence. }
  destruct (keeps_files_confirm_without_destination a cfg Hdest _ _ _ Hgo)
    as (Hw3 & Hd3 & Hn3).
  apply confirm_write_inv in Hgo as (-> & _). rewrite Hdest in H.
  apply bind_error_inv in H as [H|(store_all & w4 & Hgo & H)].
  { left. destruct (keeps_files_augment_all_without_write _ _ _ _ _ _ _ _ H)
      as (? & ? & ?). split; [congruence|]. split; congruence. }
  destruct (keeps_files_augment_all_without_write _ _ _ _ _ _ _ _ Hgo)
    as (Hw4 & Hd4 & Hn4). clear Hgo.
  assert (Hkeep : written w4 = written w /\ dirs w4 = dirs w /\ denied w4 = denied w)
    by (split; [congruence|]; split; congruence).
  clear - Hkeep H.
  apply bind_error_inv in H as [H|([labels features] & w5 & Hgo & H)];
    [left; injection H as _ <-; exact Hkeep|].
  apply lift_inv in Hgo as [_ ->].
  apply bind_error_inv in H as [H|(batch & w6 & Hgo & H)];
    [left; injection H as _ <-; exact Hkeep|].
  apply lift_inv in Hgo as [_ ->].
  apply bind_error_inv in H as [H|(meta & w7 & Hgo & H)];
    [left; injection H as _ <-; exact Hkeep|].
  apply lift_inv in Hgo as [_ ->].
  apply bind_error_inv in H as [H|([models chordnames] & w8 & Hgo & H)];
    [left; injection H as _ <-; exact Hkeep|].
  apply lift_inv in Hgo as [_ ->].
  apply bind_error_inv in H as [H|(u & w9 & _ & H)]; [|discriminate H].
  right. exists w4. destruct Hkeep as (? & ? & ?). auto.
Qed.

End RunOutcomes.

(** X17.  A run without a write destination that raises has never called
    [os.makedirs], and has written nothing, with one exception: when
    [make_training_set] is set and the file system takes the array file and
    refuses the table file, the run raises what the file system answered and
    leaves the array file behind, without its labels. *)
Theorem failed_run_leaves_at_most_the_array
    (R : Random) (X : Sox) (L : Librosa) (a : arguments)
    (cfg : augmentation_config) (w w' : world R) (e : exn) :
  write_destination a cfg = None ->
  augment_data X L a cfg w = (inl e, w') ->
  dirs w' = dirs w
  /\ (written w' = written w
      \/ (make_training_set a = true
          /\ denied w (array_file a) = None
          /\ denied w (table_file a) = Some e
          /\ written w' = (written w ++ [array_file a])%list)).
Proof.
  intros Hdest H.
  apply (augment_data_error_inv X L a cfg w w' e Hdest) in H
    as [(Hw & Hd & _)|(w0 & Hw & Hd & Hn & H)]; [auto|].
  apply persist_error in H as (Hset & Hd' & [[_ Hw']|(Harray & Htable & Hw')]).
  - split; [congruence | left; congruence].
  - split; [congruence|]. right. rewrite <- Hn, <- Hw. auto.
Qed.

Lemma failed_run_leaves_at_most_the_array_witness :
  exists w',
    augment_data Excerpt.transformer Excerpt.extractor FaultSample.args
      Sample.config FaultSample.no_table
    = (inl OSError, w')
    /\ dirs w' = []
    /\ written w' = ["/home/data/processed/training_X_power.npy"].
Proof.
  destruct (augment_data Excerpt.transformer Excerpt.extractor FaultSample.args
              Sample.config FaultSample.no_table)
    as [[e|[X_train Y_train]] w'] eqn:Hrun; [|vm_compute in Hrun; discriminate Hrun].
  destruct (failed_run_leaves_at_most_the_array Script.generator
              Excerpt.transformer Excerpt.extractor FaultSample.args Sample.config
              FaultSample.no_table w' e eq_refl Hrun)
    as [Hd [Hw|(_ & _ & Htable & Hw)]].
  - exfalso. vm_compute in Hrun. injection Hrun as _ <-. discriminate Hw.
  - vm_compute in Htable. injection Htable as <-.
    exists w'. split; [reflexivity|]. split; [exact Hd | exact Hw].
Defined.

(** X18.  [augment_data] never returns an empty dataset: a run that returns
    went over at least one file with a positive repetition count, and the
    tensor and the table have as many rows as there are augmented samples,
    at least one. *)
Theorem augment_data_never_returns_empty
    (R : Random) (X : Sox) (L : Librosa) (a : arguments)
    (cfg : augmentation_config) (w w' : world R)
    (X_train : list array2) (Y_train : DataFrame) :
  augment_data X L a cfg w = (inr (X_train, Y_train), w') ->
  X_train <> [] /\ Y_train <> []
  /\ (0 < n_augment a)%nat
  /\ (subsample a = None -> train_soundfiles a <> [])
  /\ subsample a <> Some 0%nat.
Proof.
  intros H. apply augment_data_inv in H
    as (files & w1 & store_all & Hfiles & Hne & Hlen & HX & HY).
  assert (Hpos : (0 < List.length store_all)%nat)
    by (destruct store_all; [congruence | simpl; lia]).
  assert (Hf : (0 < List.length files)%nat /\ (0 < n_augment a)%nat) by nia.
  repeat split.
  - intros ->. simpl in HX. lia.
  - intros ->. simpl in HY. lia.
  - apply Hf.
  - intros Hnone Hnil. rewrite Hnone in Hfiles. subst files.
    rewrite Hnil in Hf. simpl in Hf. lia.
  - intros Hzero. rewrite Hzero in Hfiles. simpl in Hfiles.
    apply ret_inv in Hfiles as [-> _]. simpl in Hf. lia.
Qed.

Lemma augment_data_never_returns_empty_witness :
  exists X_train Y_train,
    fst (augment_data Excerpt.transformer Excerpt.extractor Sample.args
           Sample.config (Script.start [])) = inr (X_train, Y_train)
    /\ X_train <> [] /\ Y_train <> [].
Proof.
  destruct (augment_data Excerpt.transformer Excerpt.extractor Sample.args
              Sample.config (Script.start [])) as [[e|[X_train Y_train]] w'] eqn:Hrun;
    [vm_compute in Hrun; discriminate Hrun|].
  destruct (augment_data_never_returns_empty _ _ _ _ _ _ _ _ _ Hrun)
    as (HX & HY & _).
  exists X_train, Y_train. split; [reflexivity|]. split; assumption.
Defined.

(** X19.  With nothing to augment (no file found, or a repetition count
    of 0), valid effects, no subsampling and no write request, [augment_data]
    raises [ValueError] when it unpacks the empty store, and leaves the world
    as it was. *)
Theorem nothing_to_augment_raises
    (R : Random) (X : Sox) (L : Librosa) (a : arguments)
    (cfg : augmentation_config) (w : world R) (c : dict) :
  subsample a = None ->
  effect_chain X cfg = inr c ->
  write_with_effects_to a = None ->
  train_soundfiles a = [] \/ n_augment a = 0%nat ->
  augment_data X L a cfg w = (inl ValueError, w).
Proof.
  intros Hsub Hchain Hwrite Hnothing. unfold augment_data.
  rewrite Hsub, Hchain. unfold confirm_write. rewrite Hwrite.
  unfold bind at 1, ret at 1. unfold bind at 1, lift at 1.
  unfold bind at 1, ret at 1. unfold bind at 1.
  now rewrite (augment_all_nothing X L _ _ _ _ _ _ w Hnothing).
Qed.

Lemma nothing_to_augment_raises_witness :
  augment_data Excerpt.transformer Excerpt.extractor EdgeSample.no_repetition
    Sample.config (Script.start [])
  = (inl ValueError, Script.start []).
Proof.
  eapply (nothing_to_augment_raises Script.generator Excerpt.transformer
            Excerpt.extractor EdgeSample.no_repetition).
  - reflexivity.
  - reflexivity.
  - reflexivity.
  - right. reflexivity.
Defined.



(** X24.  As the module stands, the name [INTERIM_DIR] is not bound: a run
    that is asked to write the augmented audio, with valid effects and
    without subsampling, then raises [NameError] before it prompts, and
    leaves the world as it was. *)
Theorem unbound_interim_dir_raises_name_error
    (R : Random) (X : Sox) (L : Librosa) (a : arguments)
    (cfg : augmentation_config) (w : world R) (c : dict) (dest : string) :
  subsample a = None ->
  effect_chain X cfg = inr c ->
  write_with_effects_to a = Some dest ->
  dest <> "" ->
  INTERIM_DIR a = None ->
  augment_data X L a cfg w = (inl NameError, w)
  /\ confirm_write a cfg w = (inl NameError, w).
Proof.
  intros Hsub Hchain Hwrite Hdest Hname.
  apply String.eqb_neq in Hdest.
  assert (Hconfirm : confirm_write a cfg w = (inl NameError, w)).
  { unfold confirm_write. now rewrite Hwrite, Hdest, Hname. }
  split; [|exact Hconfirm].
  unfold augment_data. rewrite Hsub, Hchain.
  unfold bind at 1, ret at 1. unfold bind at 1, lift at 1.
  unfold bind at 1. now rewrite Hconfirm.
Qed.

Lemma unbound_interim_dir_raises_name_error_witness :
  augment_data Excerpt.transformer Excerpt.extractor FaultSample.as_shipped
    Sample.config (Script.start [])
  = (inl NameError, Script.start [])
  /\ confirm_write FaultSample.as_shipped Sample.config (Script.start [])
     = (inl NameError, Script.start []).
Proof.
  eapply (unbound_interim_dir_raises_name_error Script.generator
            Excerpt.transformer Excerpt.extractor FaultSample.as_shipped).
  - reflexivity.
  - reflexivity.
  - reflexivity.
  - discriminate.
  - reflexivity.
Defined.

(** ** Paths: the model and the chord read off a file name *)

Lemma split_nonempty (c : ascii) (s : string) : Py.split c s <> [].
Proof.
  destruct s as [|a s]; cbn [Py.split]; [discriminate|].
  destruct (Ascii.eqb a c); [discriminate|].
  destruct (Py.split c s); discriminate.
Qed.

Lemma split_app (c : ascii) (a b : string) :
  Py.split c (a ++ String c b) = (Py.split c a ++ Py.split c b)%list.
Proof.
  induction a as [|x a IH]; cbn [String.append Py.split].
  - rewrite Ascii.eqb_refl. reflexivity.
  - destruct (Ascii.eqb x c).
    + rewrite IH. reflexivity.
    + rewrite IH. pose proof (split_nonempty c a) as Hne.
      destruct (Py.split c a) as [|w ws]; [congruence|]. reflexivity.
Qed.

Lemma split_segment (s : string) : segment s -> Py.split "/" s = [s].
Proof.
  unfold segment, Py.chars.
  induction s as [|a s IH]; cbn [list_ascii_of_string forallb Py.split];
    [reflexivity|].
  intros H. apply andb_prop in H as [Ha Hs].
  apply negb_true_iff in Ha. rewrite Ha, (IH Hs). reflexivity.
Qed.

Lemma split_two_segments (base model name : string) :
  segment model -> segment name ->
  Py.split "/" (base ++ "/" ++ model ++ "/" ++ name)
  = (Py.split "/" base ++ [model; name])%list.
Proof.
  intros Hm Hn.
  change (base ++ "/" ++ model ++ "/" ++ name)
    with (base ++ String "/" (model ++ String "/" name)).
  rewrite !split_app, (split_segment _ Hm), (split_segment _ Hn). reflexivity.
Qed.

Lemma index_from_end_1 {A} (l : list A) (x : A) :
  Py.index_from_end (l ++ [x]) 1 = inr x.
Proof.
  unfold Py.index_from_end. rewrite rev_app_distr. reflexivity.
Qed.

Lemma index_from_end_S {A} (l : list A) (x : A) (k : nat) :
  Py.index_from_end (l ++ [x]) (S (S k)) = Py.index_from_end l (S k).
Proof.
  unfold Py.index_from_end. rewrite rev_app_distr.
  cbn [rev app Nat.sub nth_error]. rewrite Nat.sub_0_r. reflexivity.
Qed.

Lemma string_app_assoc (a b c : string) : (a ++ b) ++ c = a ++ b ++ c.
Proof.
  induction a as [|x a IH]; cbn [String.append]; [reflexivity|].
  rewrite IH. reflexivity.
Qed.

Lemma prefix_app (s b : string) : String.prefix s (s ++ b) = true.
Proof.
  induction s as [|a s IH]; cbn [String.append String.prefix].
  - destruct b; reflexivity.
  - destruct (ascii_dec a a); [exact IH|congruence].
Qed.

Lemma contains_app (sub a b : string) :
  Py.contains sub (a ++ sub ++ b) = true.
Proof.
  induction a as [|x a IH]; cbn [String.append].
  - destruct sub; cbn [Py.contains String.append];
      [destruct b; reflexivity|].
    change (String a (sub ++ b)) with (String a sub ++ b).
    rewrite prefix_app. reflexivity.
  - cbn [Py.contains]. fold (Py.contains sub (a ++ sub ++ b)). rewrite IH.
    destruct (String.prefix sub (String x (a ++ sub ++ b))); reflexivity.
Qed.

Lemma file_meta_plain (src base model name : string) :
  segment model -> segment name ->
  src <> "sn" ->
  file_meta src (base ++ "/" ++ model ++ "/" ++ name)
  = inr (model, Py.rstrip ".wav" name).
Proof.
  intros Hm Hn Hsrc.
  apply String.eqb_neq in Hsrc.
  unfold file_meta, gt. rewrite Hsrc. cbn [negb].
  rewrite (split_two_segments base model name Hm Hn).
  change (Py.split "/" base ++ [model; name])%list
    with (Py.split "/" base ++ [model] ++ [name])%list.
  rewrite app_assoc, index_from_end_S, !index_from_end_1. reflexivity.
Qed.

(** X21.  For a sound file [base/model/name] whose path has no [/audio/]
    component and a source other than ['sn'], the two places that read the
    path agree: the [model] column of the labels is the parent directory,
    the chord is the file name right-stripped of the characters of
    ['.wav'], and copy number [n] is written under the same parent
    directory's name as [n_name]. *)
Theorem plain_layout_names_agree
    (src write base model name : string) (n : nat) :
  segment model -> segment name ->
  src <> "sn" ->
  Py.contains "/audio/" (base ++ "/" ++ model ++ "/" ++ name) = false ->
  file_meta src (base ++ "/" ++ model ++ "/" ++ name)
  = inr (model, Py.rstrip ".wav" name)
  /\ outfile_of write (base ++ "/" ++ model ++ "/" ++ name) n
     = inr (Py.join write [model; Py.str_of_nat n ++ "_" ++ name]).
Proof.
  intros Hm Hn Hsrc Haudio. split; [apply file_meta_plain; assumption|].
  unfold outfile_of. rewrite Haudio. cbn [negb].
  rewrite (split_two_segments base model name Hm Hn).
  change (Py.split "/" base ++ [model; name])%list
    with (Py.split "/" base ++ [model] ++ [name])%list.
  rewrite app_assoc, index_from_end_S, !index_from_end_1. reflexivity.
Qed.

Lemma plain_layout_names_agree_witness :
  file_meta "power" ("data/raw/LP/C.wav")
  = inr ("LP", Py.rstrip ".wav" "C.wav")
  /\ outfile_of "out" ("data/raw/LP/C.wav") 0
     = inr (Py.join "out" ["LP"; Py.str_of_nat 0 ++ "_" ++ "C.wav"]).
Proof.
  apply (plain_layout_names_agree "power" "out" "data/raw" "LP" "C.wav" 0);
    [reflexivity | reflexivity | discriminate | reflexivity].
Defined.

(** X22.  For a sound file [base/model/audio/name] the copies are written
    under [model] whatever the source is, while the [model] column holds
    [model] only for the source ['sn']: for every other source it holds
    ['audio']. *)
Theorem audio_layout_model_depends_on_source
    (src write base model name : string) (n : nat) :
  segment model -> segment name ->
  outfile_of write (base ++ "/" ++ model ++ "/audio/" ++ name) n
  = inr (Py.join write [model; Py.str_of_nat n ++ "_" ++ name])
  /\ file_meta src (base ++ "/" ++ model ++ "/audio/" ++ name)
     = inr (if String.eqb src "sn" then model else "audio",
            Py.rstrip ".wav" name).
Proof.
  intros Hm Hn.
  assert (Hsplit :
    Py.split "/" (base ++ "/" ++ model ++ "/audio/" ++ name)
    = (((Py.split "/" base ++ [model]) ++ ["audio"]) ++ [name])%list).
  { change (base ++ "/" ++ model ++ "/audio/" ++ name)
      with (base ++ String "/" (model ++ String "/" ("audio" ++ String "/" name))).
    rewrite !split_app, (split_segment _ Hm), (split_segment _ Hn).
    rewrite <- !app_assoc. reflexivity. }
  assert (Haudio :
    Py.contains "/audio/" (base ++ "/" ++ model ++ "/audio/" ++ name) = true).
  { replace (base ++ "/" ++ model ++ "/audio/" ++ name)
      with ((base ++ "/" ++ model) ++ "/audio/" ++ name).
    - apply contains_app.
    - rewrite !string_app_assoc. reflexivity. }
  unfold file_meta, outfile_of, gt. rewrite Haudio, Hsplit. cbn [negb].
  rewrite !index_from_end_1.
  destruct (String.eqb src "sn"); cbn [negb];
    rewrite !index_from_end_S, !index_from_end_1; split; reflexivity.
Qed.

Lemma audio_layout_model_depends_on_source_witness :
  outfile_of "out" ("data/raw/LP/audio/C.wav") 1
  = inr (Py.join "out" ["LP"; Py.str_of_nat 1 ++ "_" ++ "C.wav"])
  /\ file_meta "power" ("data/raw/LP/audio/C.wav")
     = inr ("audio", Py.rstrip ".wav" "C.wav").
Proof.
  apply (audio_layout_model_depends_on_source "power" "out" "data/raw" "LP"
           "C.wav" 1); reflexivity.
Defined.

Lemma chars_app (a b : string) :
  Py.chars (a ++ b) = (Py.chars a ++ Py.chars b)%list.
Proof.
  unfold Py.chars.
  induction a as [|x a IH]; cbn [String.append list_ascii_of_string app];
    [reflexivity|].
  rewrite IH. reflexivity.
Qed.

Lemma str_app (a b : list ascii) :
  Py.str (a ++ b) = Py.str a ++ Py.str b.
Proof.
  unfold Py.str.
  induction a as [|x a IH]; cbn [String.append string_of_list_ascii app];
    [reflexivity|].
  rewrite IH. reflexivity.
Qed.

Lemma rstrip_wav (stem : string) (c : ascii) :
  Py.rstrip ".wav" ((stem ++ String c "") ++ ".wav")
  = if existsb (Ascii.eqb c) (Py.chars ".wav")
    then Py.rstrip ".wav" stem
    else stem ++ String c "".
Proof.
  unfold Py.rstrip. rewrite !chars_app, !rev_app_distr.
  change (rev (Py.chars ".wav")) with ["v"; "a"; "w"; "."]%char.
  change (rev (Py.chars (String c ""))) with [c].
  cbn [app]. cbn [Py.dropwhile].
  change (existsb (Ascii.eqb "v") (Py.chars ".wav")) with true.
  change (existsb (Ascii.eqb "a") (Py.chars ".wav")) with true.
  change (existsb (Ascii.eqb "w") (Py.chars ".wav")) with true.
  change (existsb (Ascii.eqb ".") (Py.chars ".wav")) with true.
  cbv iota.
  destruct (existsb (Ascii.eqb c) (Py.chars ".wav")); [reflexivity|].
  cbn [rev]. rewrite rev_involutive, str_app.
  unfold Py.str, Py.chars. rewrite string_of_list_ascii_of_string. reflexivity.
Qed.

(** X23.  The chord recorded for [base/model/stem.wav] is the file name
    with its trailing characters taken from the set [., w, a, v] removed,
    not with the suffix ['.wav'] removed: a stem whose last character [c]
    is none of the four is kept whole, and a stem that ends in one of them
    loses it and is stripped further. *)
Theorem chord_name_strips_characters
    (src base model stem : string) (c : ascii) :
  segment model -> segment ((stem ++ String c "") ++ ".wav") ->
  src <> "sn" ->
  file_meta src (base ++ "/" ++ model ++ "/" ++ (stem ++ String c "") ++ ".wav")
  = inr (model,
         if existsb (Ascii.eqb c) (Py.chars ".wav")
         then Py.rstrip ".wav" stem
         else stem ++ String c "").
Proof.
  intros Hm Hn Hsrc.
  rewrite (file_meta_plain src base model _ Hm Hn Hsrc), rstrip_wav.
  reflexivity.
Qed.

Lemma chord_name_strips_characters_witness :
  file_meta "power" ("data/raw/LP/Cmaj7_a.wav") = inr ("LP", "Cmaj7_").
Proof.
  apply (chord_name_strips_characters "power" "data/raw" "LP" "Cmaj7_" "a");
    [reflexivity | reflexivity | discriminate].
Defined.
